(** * download-yt-mp3: the task runner, its fetch strategy and the file-name
      sanitizer, embedded from the TypeScript sources.

    Layout
    - [JsString]  : JavaScript strings as sequences of UTF-16 code units and
                    the regular-expression operations used by the sources.
    - [JsNum]     : the numbers the progress arithmetic works on.
    - [Types]     : types.ts ([SongTask], [TaskResult]).
    - [Runtime]   : the awaited operations, the world they act on, and the
                    monad in which the asynchronous functions are written.
    - [Utils]     : utils.ts ([sanitizeFileName], [resolveOutputPath], ...).
    - [SearchTs]  : search.ts ([findFirstVideo]).
    - [Download]  : download.ts ([downloadWithCore], [downloadWithYtDlp],
                    [shouldFallback], [downloadToMp3]).
    - [Index]     : index.ts ([runTask] and the dispatch of
                    [runDownloadSession]).
    - [JsStringMore]: [startsWith], [includes], [split], [parseInt].
    - [UtilsRest] : utils.ts, the functions around the task runner
                    ([readSongList], [buildSongTasks], [buildPlaylistTasks],
                    [createPlaylistDirectory], [getMaxNumberPrefix],
                    [getMaxNumberPrefixInDownloads], [isYoutubeUrl],
                    [isYoutubePlaylistUrl], [cleanupPlayerScripts]).
    - [Cli]       : index.ts, the functions around the task runner
                    ([parseArgs], the counters of [printSummary], the task
                    lists of [runDownloadSession]).
    - [Logic]     : triples over function bodies.
    - [Properties]: the predicates the theorems are stated with.
    - [Samples]   : collaborators, tasks and worlds to run the code on.
    - [Outcomes], [MoreSamples]: the same for the further properties.
    The theorems follow the definitions. *)

From Stdlib Require Import ZArith NArith QArith Qround Bool Lia.
From stdpp Require Import gmap list strings pretty relations.

Close Scope Q_scope.
Local Open Scope N_scope.

(* ====================================================================== *)
(** * JavaScript strings *)
(* ====================================================================== *)

Module JsString.

(** A JavaScript string is a finite sequence of UTF-16 code units.  Code
    units are kept as [N]; every value a real string can hold is below
    2^16, and nothing below depends on that bound. *)
Abbreviation code_unit := N (only parsing).
Abbreviation jsstring := (list N) (only parsing).

(** A source literal made of ASCII characters. *)
Definition js (s : string) : jsstring :=
  map Ascii.N_of_ascii (String.list_ascii_of_string s).

(** [\s] of ECMAScript (WhiteSpace and LineTerminator), which is also the
    set removed by [String.prototype.trim]. *)
Definition is_space (c : code_unit) : bool :=
  ((9 <=? c) && (c <=? 13))            (* TAB LF VT FF CR *)
  || (c =? 32) || (c =? 160)           (* SP, NBSP *)
  || (c =? 5760)                       (* U+1680 *)
  || ((8192 <=? c) && (c <=? 8202))    (* U+2000 .. U+200A *)
  || (c =? 8232) || (c =? 8233)        (* LS, PS *)
  || (c =? 8239) || (c =? 8287)        (* U+202F, U+205F *)
  || (c =? 12288) || (c =? 65279).     (* U+3000, U+FEFF *)

Definition SP : code_unit := 32.

(** [s.replace(/[cls]/g, ' ')]: every code unit of the class becomes a
    single space. *)
Definition replace_each (cls : code_unit -> bool) (s : jsstring) : jsstring :=
  map (fun c => if cls c then SP else c) s.

(** [s.replace(/cls+/g, ' ')]: every maximal run of code units of the class
    becomes one space.  [in_run] tells that the previous code unit was part
    of the run being replaced. *)
Fixpoint replace_runs (cls : code_unit -> bool) (in_run : bool) (s : jsstring)
  : jsstring :=
  match s with
  | [] => []
  | c :: r =>
      if cls c
      then (if in_run then replace_runs cls true r
            else SP :: replace_runs cls true r)
      else c :: replace_runs cls false r
  end.

(** Removal of a leading run of the class. *)
Fixpoint drop_leading (cls : code_unit -> bool) (s : jsstring) : jsstring :=
  match s with
  | [] => []
  | c :: r => if cls c then drop_leading cls r else s
  end.

(** [s.replace(/cls+$/, '')]: the leftmost match of [cls+$] is the maximal
    run of the class that reaches the end of the string. *)
Fixpoint drop_trailing (cls : code_unit -> bool) (s : jsstring) : jsstring :=
  match s with
  | [] => []
  | c :: r =>
      match drop_trailing cls r with
      | [] => if cls c then [] else [c]
      | r' => c :: r'
      end
  end.

(** [s.trim()]. *)
Definition trim (s : jsstring) : jsstring :=
  drop_trailing is_space (drop_leading is_space s).

(** Upper-casing of one ASCII letter.  The [i] flag compares code units
    after upper-casing them, and without the [u] flag a code unit above 127
    is never folded onto an ASCII one: against a pattern of ASCII
    characters, comparing after [canon] decides the match. *)
Definition canon (c : code_unit) : code_unit :=
  if (97 <=? c) && (c <=? 122) then c - 32 else c.

Fixpoint starts_with_ci (pat s : jsstring) : bool :=
  match pat, s with
  | [], _ => true
  | _ :: _, [] => false
  | p :: pat', c :: s' => (canon p =? canon c) && starts_with_ci pat' s'
  end.

(** [/pat/i.test(s)] for a pattern made of literal characters. *)
Fixpoint test_ci (pat s : jsstring) : bool :=
  starts_with_ci pat s ||
  match s with
  | [] => false
  | _ :: s' => test_ci pat s'
  end.

(** [s] when [s.length <= n], otherwise its first [n - 3] code units
    followed by three dots. *)
Definition truncate (n : nat) (s : jsstring) : jsstring :=
  if (length s <=? n)%nat then s else take (n - 3) s ++ js "...".

End JsString.
Export JsString.

(* ====================================================================== *)
(** * JavaScript numbers *)
(* ====================================================================== *)

Module JsNum.

(** A [number] is a finite value, one of the two infinities, or NaN.
    Finite values are kept as exact rationals, without the sign of zero:
    the double the code computes is the value here, rounded.  A quotient
    of two finite doubles can round to an infinity; a quotient of two
    byte counts, which is not above its numerator, cannot. *)
Inductive jsnum : Type :=
| JFin (q : Q)
| JPosInf
| JNegInf
| JNaN.

Definition js_of_Z (z : Z) : jsnum := JFin (inject_Z z).

Definition is_finite (a : jsnum) : bool :=
  match a with JFin _ => true | _ => false end.

Definition js_isNaN (a : jsnum) : bool :=
  match a with JNaN => true | _ => false end.

Definition Qltb (a b : Q) : bool := negb (Qle_bool b a).

(** [a < b]; every comparison with NaN is false. *)
Definition js_lt (a b : jsnum) : bool :=
  match a, b with
  | JNaN, _ | _, JNaN => false
  | JFin x, JFin y => Qltb x y
  | JNegInf, JNegInf => false
  | JNegInf, _ => true
  | _, JPosInf => match a with JPosInf => false | _ => true end
  | _, _ => false
  end.

(** [a > b]. *)
Definition js_gt (a b : jsnum) : bool := js_lt b a.

(** The infinity of a given sign. *)
Definition inf_signed (positive : bool) : jsnum :=
  if positive then JPosInf else JNegInf.

(** [a / b]. *)
Definition js_div (a b : jsnum) : jsnum :=
  match a, b with
  | JNaN, _ | _, JNaN => JNaN
  | JFin x, JFin y =>
      if Qeq_bool y 0
      then (if Qeq_bool x 0 then JNaN else inf_signed (Qltb 0 x))
      else JFin (x / y)%Q
  | JFin _, _ => JFin 0
  | JPosInf, JFin y => inf_signed (Qle_bool 0 y)
  | JNegInf, JFin y => inf_signed (negb (Qle_bool 0 y))
  | _, _ => JNaN
  end.

(** [a * b]. *)
Definition js_mul (a b : jsnum) : jsnum :=
  match a, b with
  | JNaN, _ | _, JNaN => JNaN
  | JFin x, JFin y => JFin (x * y)%Q
  | JFin x, JPosInf | JPosInf, JFin x =>
      if Qeq_bool x 0 then JNaN else inf_signed (Qltb 0 x)
  | JFin x, JNegInf | JNegInf, JFin x =>
      if Qeq_bool x 0 then JNaN else inf_signed (Qltb x 0)
  | JPosInf, JPosInf | JNegInf, JNegInf => JPosInf
  | _, _ => JNegInf
  end.

(** [Math.floor(a)]. *)
Definition js_floor (a : jsnum) : jsnum :=
  match a with
  | JFin q => js_of_Z (Qfloor q)
  | _ => a
  end.

(** [Math.max(a, b)] and [Math.min(a, b)]: NaN when an argument is NaN. *)
Definition js_max (a b : jsnum) : jsnum :=
  match a, b with
  | JNaN, _ | _, JNaN => JNaN
  | _, _ => if js_lt a b then b else a
  end.

Definition js_min (a b : jsnum) : jsnum :=
  match a, b with
  | JNaN, _ | _, JNaN => JNaN
  | _, _ => if js_lt b a then b else a
  end.

End JsNum.
Export JsNum.

(* ====================================================================== *)
(** * types.ts *)
(* ====================================================================== *)

Module Types.

Inductive TaskMode : Type := search | direct | playlist.

Inductive Status : Type := completed | skipped | failed.

(** Optional fields ([url?: string]) are [option]s: [None] is [undefined]. *)
Module SongTask.
Record t : Type := mk {
  id : N;
  mode : TaskMode;
  query : jsstring;
  url : option jsstring;
  displayTitle : option jsstring;
  playlistTitle : option jsstring;
  outputDir : option jsstring;
  sequenceNumber : option N;
}.
End SongTask.

Module TaskResult.
Record t : Type := mk {
  id : N;
  query : jsstring;
  url : jsstring;
  status : Status;
  reason : option jsstring;
  filePath : option jsstring;
}.
End TaskResult.

(** The part of [VideoSearchResult] (external.d.ts) that the code reads. *)
Record VideoSearchResult : Type := {
  video_url : jsstring;
  video_title : jsstring;
}.

(** The [videos] member of [SearchResult]; [None] is an absent member. *)
Definition SearchResult := option (list VideoSearchResult).

End Types.
Export Types.

(* ====================================================================== *)
(** * The runtime: awaited operations, the world, the function monad *)
(* ====================================================================== *)

Module Runtime.

(** A thrown value: an [Error] object with its [message], or any other
    value, kept as the text [String(value)] gives. *)
Inductive thrown : Type :=
| ErrorObj (message : jsstring)
| OtherValue (text : jsstring).

(** [error instanceof Error ? error.message : String(error)] *)
Definition error_message (error : thrown) : jsstring :=
  match error with
  | ErrorObj message => message
  | OtherValue text => text
  end.

(** [error instanceof Error ? error : new Error(String(error))] *)
Definition as_Error (error : thrown) : thrown :=
  match error with
  | ErrorObj message => ErrorObj message
  | OtherValue text => ErrorObj text
  end.

(** A settled promise: fulfilled with a value or rejected with a reason. *)
Inductive outcome (A : Type) : Type :=
| Ok (a : A)
| Err (e : thrown).
Arguments Ok {A} a.
Arguments Err {A} e.

(** What a path of the file system holds. *)
Inductive Node : Type :=
| Directory
| PartialAudio                (* an unfinished encoder or tool output *)
| Audio (source : jsstring).  (* the finished audio of a media URL *)

(** What the ytdl stream and the encoder reading it do, up to the first
    event that settles the promise of [downloadWithCore]: the progress
    events [(downloaded, total)] and then one of the three events the
    source installs a settling handler for. *)
Inductive CoreEnd : Type :=
| StreamError (e : thrown)
| EncodeError (e : thrown)
| EncodeEnd.

Record CoreScript : Type := {
  core_progress : list (jsnum * jsnum);
  core_end : CoreEnd;
}.

(** What one yt-dlp process does: the numeric value of each progress event
    (NaN when the event carries none), the event that ends the run, and
    what the tool left at its output path. *)
Inductive YtEnd : Type :=
| YtError (e : thrown)
| YtClose (code : option Z).   (* [None]: the code is not a number *)

Record YtScript : Type := {
  yt_progress : list jsnum;
  yt_end : YtEnd;
  yt_written : option Node;
}.

(** A line of downloaded.log, without its time stamp. *)
Inductive LogLine : Type :=
| PlainLine (fileName : jsstring)
| PlaylistLine (playlistTitle folderName fileName : jsstring).

(** The operations the code waits for or calls on an outside object. *)
Inductive Op : Type :=
| YtSearch (query : jsstring)
| GetBasicInfo (url : jsstring)
| PathExists (path : jsstring)
| EnsureDir (path : jsstring)
| Remove (path : jsstring)
| RemoveDetached (path : jsstring)   (* [void fs.remove(path)] *)
| Move (src dst : jsstring)
| DateNow
| RunCore (url tempPath : jsstring)
| GetYtDlp
| RunYtDlp (url targetPath : jsstring)
| AppendErrorsLog (message : jsstring)
| AppendDownloadedLog (line : LogLine)
| BarCreate (title : jsstring)
| BarUpdate (bar : nat) (value : jsnum) (title : jsstring)
| BarStop (bar : nat)
| BarRemove (bar : nat).

Definition Reply (op : Op) : Type :=
  match op with
  | YtSearch _ => outcome SearchResult
  | GetBasicInfo _ => outcome (option jsstring)
  | PathExists _ => bool
  | EnsureDir _ | Remove _ | Move _ _ | GetYtDlp
  | AppendErrorsLog _ | AppendDownloadedLog _ => outcome unit
  | DateNow => N
  | RunCore _ _ => CoreScript
  | RunYtDlp _ _ => YtScript
  | BarCreate _ => nat
  | RemoveDetached _ | BarUpdate _ _ _ | BarStop _ | BarRemove _ => unit
  end.

(** ** Programs: trees of awaited operations *)

Inductive Prog (A : Type) : Type :=
| Ret (a : A)
| Await (op : Op) (k : Reply op -> Prog A).
Arguments Ret {A} a.
Arguments Await {A} op k.

Fixpoint pbind {A B} (p : Prog A) (f : A -> Prog B) : Prog B :=
  match p with
  | Ret a => f a
  | Await op k => Await op (fun x => pbind (k x) f)
  end.

(** ** The monad of a function body

    [L] holds the [let] variables of the function that closures and the
    [catch] and [finally] blocks read after the point of a throw. *)
Definition Js (L A : Type) : Type := L -> Prog (outcome A * L).

Definition ret {L A} (a : A) : Js L A := fun l => Ret (Ok a, l).

Definition throw {L A} (e : thrown) : Js L A := fun l => Ret (Err e, l).

Definition bind {L A B} (m : Js L A) (f : A -> Js L B) : Js L B :=
  fun l => pbind (m l) (fun '(r, l') =>
    match r with
    | Ok a => f a l'
    | Err e => Ret (Err e, l')
    end).

Definition get {L} : Js L L := fun l => Ret (Ok l, l).

Definition modify {L} (f : L -> L) : Js L unit := fun l => Ret (Ok tt, f l).

(** An operation whose reply is used as it comes. *)
Definition await {L} (op : Op) : Js L (Reply op) :=
  fun l => Await op (fun x => Ret (Ok x, l)).

(** A promise that may be rejected: the rejection is thrown at the
    [await]. *)
Definition settle {L A} (m : Js L (outcome A)) : Js L A :=
  bind m (fun r => match r with Ok a => ret a | Err e => throw e end).

(** [try { body } catch (error) { handler error }] *)
Definition try_catch {L A} (body : Js L A) (handler : thrown -> Js L A)
  : Js L A :=
  fun l => pbind (body l) (fun '(r, l') =>
    match r with
    | Ok a => Ret (Ok a, l')
    | Err e => handler e l'
    end).

(** [try { body } finally { final }]: [final] runs on every exit of
    [body]; the exit of [body] stands unless [final] throws. *)
Definition try_finally {L A} (body : Js L A) (final : Js L unit) : Js L A :=
  fun l => pbind (body l) (fun '(r, l') =>
    pbind (final l') (fun '(rf, l'') =>
      match rf with
      | Ok _ => Ret (r, l'')
      | Err e => Ret (Err e, l'')
      end)).

(** A loop over the elements of a list, in order. *)
Fixpoint for_each {L X} (xs : list X) (body : X -> Js L unit) : Js L unit :=
  match xs with
  | [] => ret tt
  | x :: xs' => bind (body x) (fun _ => for_each xs' body)
  end.

(** [Promise.all] over the promises of functions that are started in the
    order of the list.  Every one of them runs to its end, also when
    another one was rejected before, and the whole is rejected with the
    first rejection.  The functions are run one after the other here; the
    code leaves their order open, and what is proved of [promise_all] does
    not rest on it. *)
Fixpoint promise_all {L X} (xs : list X) (body : X -> Js L unit) : Js L unit :=
  match xs with
  | [] => ret tt
  | x :: xs' =>
      fun l => pbind (body x l) (fun '(r, l') =>
        pbind (promise_all xs' body l') (fun '(r', l'') =>
          Ret (match r with
               | Ok _ => r'
               | Err e => Err e
               end, l'')))
  end.

Declare Scope js_scope.
Delimit Scope js_scope with js.
Notation "x <- m ;; k" := (bind m (fun x => k))
  (at level 20, m at level 99, k at level 200, only parsing) : js_scope.
Notation "m ;; k" := (bind m (fun _ => k))
  (at level 100, k at level 200, only parsing, right associativity)
  : js_scope.

(** ** The world *)

(** A progress bar of the multi-bar container. *)
Record Bar : Type := {
  bar_value : jsnum;
  bar_title : jsstring;
  bar_stopped : bool;
}.

Record World : Type := {
  files : gmap (list N) Node;
  detached : list (list N);      (* removals requested and not awaited *)
  errors_log : list (list N);
  downloaded_log : list LogLine;
  bars : gmap nat Bar;
  next_bar : nat;
  now : N;
  trace : list Op;               (* every operation performed, oldest first *)
}.

(** The collaborators the code does not contain: the modules it imports
    and the services behind them. *)
Record Env : Type := {
  DOWNLOADS_DIR : jsstring;
  path_resolve : jsstring -> jsstring -> jsstring;
  path_basename : jsstring -> jsstring;
  validateURL : jsstring -> bool;
  ytSearch : jsstring -> outcome SearchResult;
  getBasicInfo : jsstring -> outcome (option jsstring);
  core_script : jsstring -> CoreScript;
  ytdlp_load : outcome unit;
  ytdlp_script : jsstring -> YtScript;
  fs_fault : Op -> option thrown;   (* asked for EnsureDir, Remove, Move
                                       and the appends to the two logs *)
}.

Definition set_files (f : gmap (list N) Node -> gmap (list N) Node)
  (w : World) : World :=
  {| files := f (files w); detached := detached w;
     errors_log := errors_log w; downloaded_log := downloaded_log w;
     bars := bars w; next_bar := next_bar w; now := now w;
     trace := trace w |}.

Definition set_detached (f : list (list N) -> list (list N)) (w : World)
  : World :=
  {| files := files w; detached := f (detached w);
     errors_log := errors_log w; downloaded_log := downloaded_log w;
     bars := bars w; next_bar := next_bar w; now := now w;
     trace := trace w |}.

Definition set_bars (f : gmap nat Bar -> gmap nat Bar) (w : World) : World :=
  {| files := files w; detached := detached w;
     errors_log := errors_log w; downloaded_log := downloaded_log w;
     bars := f (bars w); next_bar := next_bar w; now := now w;
     trace := trace w |}.

Definition record_op (op : Op) (w : World) : World :=
  {| files := files w; detached := detached w;
     errors_log := errors_log w; downloaded_log := downloaded_log w;
     bars := bars w; next_bar := next_bar w; now := now w;
     trace := trace w ++ [op] |}.

Definition fs_result (E : Env) (op : Op) (w : World)
  (effect : World -> World) : outcome unit * World :=
  match fs_fault E op with
  | Some e => (Err e, w)
  | None => (Ok tt, effect w)
  end.

(** What an operation answers and what it does to the world.
    - [PathExists] is [fs.pathExists], which does not throw.
    - [RemoveDetached] is [void fs.remove(path)]: the removal is
      asynchronous and nothing waits for it, so the call only records it;
      [drain], and [step_detached] in a session, carry it out.
    - [RunCore]: when one of the settling events fires, the encoder has
      created its output at [tempPath], the finished audio on [end] and an
      unfinished file on an error.
    - [Move] is [fs.move(src, dst, { overwrite: true })].
    - [DateNow] reads a clock that moves on at every reading.
    - The appends to the two logs are [fs.appendFile]: they are rejected
      when the file system says so, and then nothing is written.  Their
      time stamps are left out.
    - [GetYtDlp] is [getYtDlp()]: the wrapper of yt-dlp is loaded, which
      looks for the binary in the working directory and downloads it there
      when it is missing.  Its answer is that of the collaborators.
    - [files] holds the paths the code names.  The ancestors that
      [fs.ensureDir] creates, the content that [fs.remove] takes away with
      a directory, the binary of yt-dlp and the player scripts that
      ytdl-core leaves in the working directory are not in it;
      [cleanupPlayerScripts] reads the latter from a listing. *)
Definition handle (E : Env) (op : Op) (w : World) : Reply op * World :=
  match op as o return Reply o * World with
  | YtSearch query => (ytSearch E query, w)
  | GetBasicInfo url => (getBasicInfo E url, w)
  | PathExists path => (bool_decide (is_Some (files w !! path)), w)
  | EnsureDir path =>
      fs_result E (EnsureDir path) w
        (set_files (fun fs =>
           match fs !! path with
           | Some _ => fs
           | None => <[path := Directory]> fs
           end))
  | Remove path =>
      fs_result E (Remove path) w (set_files (delete path))
  | RemoveDetached path => (tt, set_detached (fun d => d ++ [path]) w)
  | Move src dst =>
      match files w !! src with
      | None => (Err (ErrorObj (js "ENOENT: no such file or directory")), w)
      | Some node =>
          fs_result E (Move src dst) w
            (set_files (fun fs => <[dst := node]> (delete src fs)))
      end
  | DateNow =>
      (now w,
       {| files := files w; detached := detached w;
          errors_log := errors_log w; downloaded_log := downloaded_log w;
          bars := bars w; next_bar := next_bar w; now := now w + 1;
          trace := trace w |})
  | RunCore url tempPath =>
      let script := core_script E url in
      (script,
       set_files (<[tempPath :=
         match core_end script with
         | EncodeEnd => Audio url
         | _ => PartialAudio
         end]>) w)
  | GetYtDlp => (ytdlp_load E, w)
  | RunYtDlp url targetPath =>
      let script := ytdlp_script E url in
      (script,
       match yt_written script with
       | Some node => set_files (<[targetPath := node]>) w
       | None => w
       end)
  | AppendErrorsLog message =>
      fs_result E (AppendErrorsLog message) w (fun w =>
        {| files := files w; detached := detached w;
           errors_log := errors_log w ++ [message];
           downloaded_log := downloaded_log w;
           bars := bars w; next_bar := next_bar w; now := now w;
           trace := trace w |})
  | AppendDownloadedLog line =>
      fs_result E (AppendDownloadedLog line) w (fun w =>
        {| files := files w; detached := detached w;
           errors_log := errors_log w;
           downloaded_log := downloaded_log w ++ [line];
           bars := bars w; next_bar := next_bar w; now := now w;
           trace := trace w |})
  | BarCreate title =>
      (next_bar w,
       {| files := files w; detached := detached w;
          errors_log := errors_log w; downloaded_log := downloaded_log w;
          bars := <[next_bar w :=
                    {| bar_value := JFin 0; bar_title := title;
                       bar_stopped := false |}]> (bars w);
          next_bar := S (next_bar w); now := now w; trace := trace w |})
  | BarUpdate bar value title =>
      (tt,
       set_bars (alter (fun b =>
         {| bar_value := value; bar_title := title;
            bar_stopped := bar_stopped b |}) bar) w)
  | BarStop bar =>
      (tt,
       set_bars (alter (fun b =>
         {| bar_value := bar_value b; bar_title := bar_title b;
            bar_stopped := true |}) bar) w)
  | BarRemove bar => (tt, set_bars (delete bar) w)
  end.

(** One operation: its effect, then its entry in the trace. *)
Definition perform (E : Env) (op : Op) (w : World) : Reply op * World :=
  ((handle E op w).1, record_op op (handle E op w).2).

(** A program run from start to end with nothing else in between.  The
    removals that were requested and not awaited are not carried out
    here: [drain] does that, and [step_detached] in a session. *)
Fixpoint exec {A} (E : Env) (p : Prog A) (w : World) : A * World :=
  match p with
  | Ret a => (a, w)
  | Await op k => exec E (k (perform E op w).1) (perform E op w).2
  end.

(** The file system once every detached removal has been carried out. *)
Definition drain (w : World) : World :=
  {| files := foldl (fun fs path => delete path fs) (files w) (detached w);
     detached := [];
     errors_log := errors_log w; downloaded_log := downloaded_log w;
     bars := bars w; next_bar := next_bar w; now := now w;
     trace := trace w |}.

(** How often an operation of a kind was performed. *)
Definition count_ops (kind : Op -> bool) (w : World) : nat :=
  length (filter (fun op => kind op = true) (trace w)).

Definition is_primary_fetch (op : Op) : bool :=
  match op with RunCore _ _ => true | _ => false end.

(** Every call of [downloadWithYtDlp] starts by awaiting [getYtDlp()]. *)
Definition is_fallback_fetch (op : Op) : bool :=
  match op with GetYtDlp => true | _ => false end.

End Runtime.
Export Runtime.

Local Open Scope js_scope.

(** [a || b] on strings: [b] when [a] is empty. *)
Definition str_or (a b : jsstring) : jsstring :=
  match a with [] => b | _ => a end.

(** Whether an optional string is truthy: defined and not empty. *)
Definition truthy (o : option jsstring) : bool :=
  match o with Some (_ :: _) => true | _ => false end.

(** A non-negative integer in a template literal: its decimal digits.
    That is what the code prints for a whole number below 10^21; the
    numbers printed here are task ids, readings of the clock and sequence
    numbers, and the theorems on sequence numbers bound them. *)
Definition num_to_js (n : N) : jsstring := js (pretty n).

(* ====================================================================== *)
(** * utils.ts *)
(* ====================================================================== *)

Module Utils.

(** The character class of the first [replace] of [sanitizeFileName].  In
    the regular expression literal it opens with a backslash followed by a
    slash, which is an escaped slash, so the class holds eight characters:
    slash, colon, star, question mark, double quote, the two angle brackets
    and the bar.  The backslash itself is not a member. *)
Definition is_hostile (c : code_unit) : bool :=
  (c =? 47) || (c =? 58) || (c =? 42) || (c =? 63)
  || (c =? 34) || (c =? 60) || (c =? 62) || (c =? 124).

(** The class of the last [replace]: a dot or white space. *)
Definition is_dot_or_space (c : code_unit) : bool := (c =? 46) || is_space c.

(** Four steps, as chained in the source: every hostile character becomes
    a space; every run of white space becomes one space; [trim]; the
    trailing run of dots and white space is removed. *)
Definition sanitizeFileName (value : jsstring) : jsstring :=
  drop_trailing is_dot_or_space
    (trim (replace_runs is_space false (replace_each is_hostile value))).

Section WithEnv.
Context (E : Env).

(** [path.resolve(baseDir, sanitizeFileName(baseName) + .mp3)]; every
    caller passes [baseDir]. *)
Definition resolveOutputPath (baseName baseDir : jsstring) : jsstring :=
  path_resolve E baseDir (sanitizeFileName baseName ++ js ".mp3").

Definition isAlreadyDownloaded {L} (filePath : jsstring) : Js L bool :=
  await (PathExists filePath).

(** The line is kept without its time stamp.  The promise of
    [fs.appendFile] is awaited, so its rejection is thrown here. *)
Definition logFailure {L} (message : jsstring) : Js L unit :=
  settle (await (AppendErrorsLog message)).

Definition logSuccess {L} (filePath : jsstring)
  (playlistTitle playlistFolder : option jsstring) : Js L unit :=
  let fileName := path_basename E filePath in
  match playlistTitle, playlistFolder with
  | Some (c :: title), Some (d :: folder) =>
      let folderName := path_basename E (d :: folder) in
      settle
        (await (AppendDownloadedLog (PlaylistLine (c :: title) folderName fileName)))
  | _, _ => settle (await (AppendDownloadedLog (PlainLine fileName)))
  end.
End WithEnv.

End Utils.
Export Utils.

(* ====================================================================== *)
(** * search.ts *)
(* ====================================================================== *)

Module SearchTs.

(** [searchResult.videos?.[0] ?? null] *)
Definition findFirstVideo {L} (query : jsstring)
  : Js L (option VideoSearchResult) :=
  searchResult <- settle (await (YtSearch query)) ;;
  let video :=
    match searchResult with
    | Some (first :: _) => Some first
    | _ => None
    end in
  ret video.

End SearchTs.
Export SearchTs.

(* ====================================================================== *)
(** * download.ts *)
(* ====================================================================== *)

Module Download.

Record DownloadOptions (L : Type) : Type := {
  url : jsstring;
  title : jsstring;
  outputDir : jsstring;
  onProgress : jsnum -> jsnum -> jsnum -> Js L unit;
}.
Arguments url {L} _.
Arguments title {L} _.
Arguments outputDir {L} _.
Arguments onProgress {L} _.

(** The constant [percent] of the progress handler of [downloadWithCore]:
    [total > 0 ? downloaded / total : 0]. *)
Definition progress_percent (downloaded total : jsnum) : jsnum :=
  if js_gt total (JFin 0) then js_div downloaded total else JFin 0.

Definition downloadWithCore {L} (url targetPath tempPath : jsstring)
  (onProgress : jsnum -> jsnum -> jsnum -> Js L unit) : Js L jsstring :=
  (* the stream is opened and the encoder saves to tempPath *)
  script <- await (RunCore url tempPath) ;;
  (* stream.on(progress) *)
  for_each (core_progress script) (fun '(downloaded, total) =>
    let percent := progress_percent downloaded total in
    onProgress percent downloaded total) ;;
  match core_end script with
  | StreamError error =>
      (* stream.on(error) *)
      await (RemoveDetached tempPath) ;;
      throw error
  | EncodeError error =>
      (* ffmpeg.on(error) *)
      await (RemoveDetached tempPath) ;;
      throw error
  | EncodeEnd =>
      (* ffmpeg.on(end) *)
      try_catch
        (settle (await (Move tempPath targetPath)) ;;
         ret targetPath)
        (fun error => throw error)
  end.

(** The text of [code] in the message of a failed run. *)
Definition exit_code_text (code : option Z) : jsstring :=
  match code with
  | Some z => js (pretty z)
  | None => js "null"
  end.

(** [handleProgress] with the variable [lastPercent] it assigns: the
    numeric value of the event is used when it is not NaN. *)
Fixpoint handleProgress {L} (events : list jsnum) (lastPercent : jsnum)
  (onProgress : jsnum -> Js L unit) : Js L jsnum :=
  match events with
  | [] => ret lastPercent
  | numeric :: rest =>
      if negb (js_isNaN numeric)
      then onProgress (js_min (JFin 1) (js_max (JFin 0)
                         (js_div numeric (JFin 100)))) ;;
           handleProgress rest numeric onProgress
      else handleProgress rest lastPercent onProgress
  end.

Definition downloadWithYtDlp {L} (url targetPath : jsstring)
  (onProgress : jsnum -> Js L unit) : Js L jsstring :=
  settle (await GetYtDlp) ;;
  script <- await (RunYtDlp url targetPath) ;;
  lastPercent <- handleProgress (yt_progress script) (JFin 0) onProgress ;;
  match yt_end script with
  | YtError error => throw (as_Error error)
  | YtClose code =>
      match code with
      | Some 0%Z =>
          (if js_lt lastPercent (JFin 100) then onProgress (JFin 1)
           else ret tt) ;;
          ret targetPath
      | _ =>
          throw (ErrorObj (js "yt-dlp exited with code " ++ exit_code_text code))
      end
  end.

Definition shouldFallback (error : thrown) : bool :=
  let message := error_message error in
  test_ci (js "Status code: 403") message
  || test_ci (js "Could not parse") message
  || test_ci (js "decipher") message.

(** The [try] statement that ends [downloadToMp3]. *)
Definition downloadToMp3_try {L} (url targetPath tempPath : jsstring)
  (onProgress : jsnum -> jsnum -> jsnum -> Js L unit) : Js L jsstring :=
  try_catch
    (downloadWithCore url targetPath tempPath onProgress)
    (fun error =>
       if negb (shouldFallback error)
       then throw (as_Error error)
       else
         fallbackPath <- downloadWithYtDlp url targetPath
                           (fun percent => onProgress percent (JFin 0) (JFin 0)) ;;
         onProgress (JFin 1) (JFin 0) (JFin 0) ;;
         ret fallbackPath).

(** [youtube-audio-] followed by [Date.now()]. *)
Definition timestamp_name {L} : Js L jsstring :=
  now <- await DateNow ;;
  ret (js "youtube-audio-" ++ num_to_js now).

Section WithEnv.
Context (E : Env).

(** The constants [baseName] and [safeBase] of [downloadToMp3]. *)
Definition downloadToMp3_safeBase {L} (title : jsstring) : Js L jsstring :=
  baseName <- (match title with
               | [] => timestamp_name
               | _ => ret title
               end) ;;
  match sanitizeFileName baseName with
  | [] => timestamp_name
  | safe => ret safe
  end.

Definition downloadToMp3 {L} (options : DownloadOptions L) : Js L jsstring :=
  if negb (validateURL E (url options))
  then throw (ErrorObj (js "Invalid YouTube URL"))
  else
    settle (await (EnsureDir (outputDir options))) ;;
    safeBase <- downloadToMp3_safeBase (title options) ;;
    let targetPath :=
      path_resolve E (outputDir options) (safeBase ++ js ".mp3") in
    let tempPath := targetPath ++ js ".part" in
    settle (await (Remove tempPath)) ;;
    downloadToMp3_try (url options) targetPath tempPath (onProgress options).
End WithEnv.

End Download.
Export Download.

(* ====================================================================== *)
(** * index.ts *)
(* ====================================================================== *)

Module Index.

(** [truncateTitle] with its default [maxLength] of 42. *)
Definition truncateTitle (value : jsstring) : jsstring := truncate 42 value.

(** The [let] variables of [runTask]. *)
Record Locals : Type := {
  bar : option nat;
  displayTitle : jsstring;
  videoUrl : jsstring;
}.

Definition set_bar (b : nat) : Js Locals unit :=
  modify (fun l => {| bar := Some b; displayTitle := displayTitle l;
                      videoUrl := videoUrl l |}).

Definition set_displayTitle (t : jsstring) : Js Locals unit :=
  modify (fun l => {| bar := bar l; displayTitle := t;
                      videoUrl := videoUrl l |}).

Definition set_videoUrl (u : jsstring) : Js Locals unit :=
  modify (fun l => {| bar := bar l; displayTitle := displayTitle l;
                      videoUrl := u |}).

(** The constants [numberPrefix], [titledDisplay] and [safeTitle] of
    [runTask], as functions of the task and of the display title in
    force when they are computed. *)
Definition numberPrefix (task : SongTask.t) : jsstring :=
  match SongTask.sequenceNumber task with
  | Some n => num_to_js n ++ js ". "
  | None => []
  end.

Definition titledDisplay (task : SongTask.t) (displayTitle : jsstring)
  : jsstring :=
  trim (numberPrefix task ++ displayTitle).

Definition safeTitle (task : SongTask.t) (displayTitle : jsstring)
  : jsstring :=
  str_or (sanitizeFileName (titledDisplay task displayTitle))
         (js "youtube-audio-" ++ num_to_js (SongTask.id task)).

Section WithEnv.
Context (E : Env).

Definition targetDir (task : SongTask.t) : jsstring :=
  default (DOWNLOADS_DIR E) (SongTask.outputDir task).

Definition outputPath (task : SongTask.t) (displayTitle : jsstring)
  : jsstring :=
  resolveOutputPath E (safeTitle task displayTitle) (targetDir task).

(** The progress callback [runTask] hands to [downloadToMp3]. *)
Definition runTask_onProgress (title : jsstring)
  (percent _downloaded _total : jsnum) : Js Locals unit :=
  let clamped :=
    js_min (JFin 100) (js_max (JFin 0) (js_floor (js_mul percent (JFin 100)))) in
  l <- get ;;
  match bar l with
  | Some b => await (BarUpdate b clamped (truncateTitle title))
  | None => ret tt
  end.

(** From the computation of [numberPrefix] to the end of the [try]
    block. *)
Definition runTask_fetch (task : SongTask.t) : Js Locals TaskResult.t :=
  l <- get ;;
  let titled := titledDisplay task (displayTitle l) in
  let safe := safeTitle task (displayTitle l) in
  let out := outputPath task (displayTitle l) in
  exists_ <- isAlreadyDownloaded out ;;
  if (exists_ : bool)
  then
    ret (TaskResult.mk (SongTask.id task) (SongTask.query task) (videoUrl l)
           skipped (Some (js "Already downloaded")) (Some out))
  else
    b <- await (BarCreate (truncateTitle titled)) ;;
    set_bar b ;;
    finalPath <- downloadToMp3 E
      {| url := videoUrl l; title := safe; outputDir := targetDir task;
         onProgress := runTask_onProgress titled |} ;;
    await (BarUpdate b (JFin 100) (truncateTitle titled)) ;;
    logSuccess E finalPath
      (match SongTask.mode task with
       | playlist => SongTask.playlistTitle task
       | _ => None
       end)
      (match SongTask.mode task with
       | playlist => Some (targetDir task)
       | _ => None
       end) ;;
    ret (TaskResult.mk (SongTask.id task) (SongTask.query task) (videoUrl l)
           completed None (Some finalPath)).

(** The [try] block. *)
Definition runTask_try (task : SongTask.t) : Js Locals TaskResult.t :=
  match SongTask.mode task with
  | direct | playlist =>
      set_videoUrl (default (SongTask.query task) (SongTask.url task)) ;;
      l <- get ;;
      match videoUrl l with
      | [] => throw (ErrorObj (js "Missing video URL"))
      | _ =>
          (if truthy (SongTask.displayTitle task) then ret tt
           else
             info <- settle (await (GetBasicInfo (videoUrl l))) ;;
             set_displayTitle (default (SongTask.query task) info)) ;;
          runTask_fetch task
      end
  | search =>
      video <- findFirstVideo (SongTask.query task) ;;
      match video with
      | None =>
          let reason := js "No search results" in
          logFailure (SongTask.query task ++ js " :: " ++ reason) ;;
          ret (TaskResult.mk (SongTask.id task) (SongTask.query task) []
                 failed (Some reason) None)
      | Some v =>
          set_videoUrl (video_url v) ;;
          set_displayTitle (video_title v) ;;
          runTask_fetch task
      end
  end.

(** The [catch] block. *)
Definition runTask_catch (task : SongTask.t) (error : thrown)
  : Js Locals TaskResult.t :=
  let message := error_message error in
  logFailure (SongTask.query task ++ js " :: " ++ message) ;;
  l <- get ;;
  ret (TaskResult.mk (SongTask.id task) (SongTask.query task)
         (str_or (videoUrl l) (default [] (SongTask.url task)))
         failed (Some message) None).

(** The [finally] block. *)
Definition runTask_finally : Js Locals unit :=
  l <- get ;;
  match bar l with
  | Some b => await (BarStop b) ;; await (BarRemove b)
  | None => ret tt
  end.

(** The values [runTask] gives its variables before the [try]. *)
Definition runTask_locals (task : SongTask.t) : Locals :=
  {| bar := None;
     displayTitle := default (SongTask.query task) (SongTask.displayTitle task);
     videoUrl := default [] (SongTask.url task) |}.

Definition runTask (task : SongTask.t) : Prog (outcome TaskResult.t * Locals) :=
  try_finally
    (try_catch (runTask_try task) (runTask_catch task))
    runTask_finally
    (runTask_locals task).

(** ** The dispatch of [runDownloadSession]:
    [Promise.all(tasks.map((task) => limit(() => runTask(task, multiBar))))] *)

(** The promise [limit] returns for one task. *)
Inductive Slot : Type :=
| Queued (task : SongTask.t)
| Running (p : Prog (outcome TaskResult.t * Locals))
| Settled (r : outcome TaskResult.t).

Record Session : Type := {
  slots : list Slot;
  world : World;
}.

Definition is_running (s : Slot) : bool :=
  match s with Running _ => true | _ => false end.

(** A task that waits for one of its two fetch strategies. *)
Definition is_fetching (s : Slot) : bool :=
  match s with
  | Running (Await (RunCore _ _) _) => true
  | Running (Await GetYtDlp _) => true
  | Running (Await (RunYtDlp _ _) _) => true
  | _ => false
  end.

Definition count_slots (f : Slot -> bool) (ss : list Slot) : nat :=
  length (filter (fun s => f s = true) ss).

Definition activeCount (s : Session) : nat := count_slots is_running (slots s).

Definition fetchingCount (s : Session) : nat := count_slots is_fetching (slots s).

Definition start (tasks : list SongTask.t) (w : World) : Session :=
  {| slots := map Queued tasks; world := w |}.

(** Modelled from the spec: the admission gate is the p-limit package,
    which the repository imports and does not contain.  As the spec
    words it, the gate counts: a queued task is admitted only while
    fewer than [concurrency] tasks are active, the queue is served in
    order, and a task stays active until its promise settles.  Between
    two admissions the admitted tasks advance one awaited operation at
    a time, in any order; removals that were not awaited complete at any
    later moment. *)
Inductive step (concurrency : nat) : Session -> Session -> Prop :=
| step_admit s i task :
    slots s !! i = Some (Queued task) ->
    (forall j t, (j < i)%nat -> slots s !! j <> Some (Queued t)) ->
    (activeCount s < concurrency)%nat ->
    step concurrency s
      {| slots := <[i := Running (runTask task)]> (slots s);
         world := world s |}
| step_await s i op k :
    slots s !! i = Some (Running (Await op k)) ->
    step concurrency s
      {| slots := <[i := Running (k (perform E op (world s)).1)]> (slots s);
         world := (perform E op (world s)).2 |}
| step_settle s i r l :
    slots s !! i = Some (Running (Ret (r, l))) ->
    step concurrency s
      {| slots := <[i := Settled r]> (slots s); world := world s |}
| step_detached s before path after :
    detached (world s) = before ++ path :: after ->
    step concurrency s
      {| slots := slots s;
         world := set_detached (fun _ => before ++ after)
                    (set_files (delete path) (world s)) |}.

(** What [Promise.all] is fulfilled with: the values of the promises in
    the order of the promises, once each of them is fulfilled. *)
Fixpoint collect (ss : list Slot) : option (list TaskResult.t) :=
  match ss with
  | [] => Some []
  | Settled (Ok r) :: rest =>
      match collect rest with
      | Some rs => Some (r :: rs)
      | None => None
      end
  | _ :: _ => None
  end.

Definition results (s : Session) : option (list TaskResult.t) :=
  collect (slots s).

(** A rejected promise among the slots rejects [Promise.all]. *)
Definition is_rejected (s : Slot) : bool :=
  match s with Settled (Err _) => true | _ => false end.

End WithEnv.

End Index.
Export Index.

(* ====================================================================== *)
(** * More string operations *)
(* ====================================================================== *)

Module JsStringMore.

(** [s.startsWith(pat)] *)
Fixpoint starts_with (pat s : jsstring) : bool :=
  match pat, s with
  | [], _ => true
  | _ :: _, [] => false
  | p :: pat', c :: s' => (p =? c) && starts_with pat' s'
  end.

(** [s.includes(pat)] *)
Fixpoint includes (pat s : jsstring) : bool :=
  starts_with pat s ||
  match s with
  | [] => false
  | _ :: s' => includes pat s'
  end.

(** Whether [s] ends with [pat]. *)
Definition ends_with (pat s : jsstring) : bool :=
  starts_with (rev pat) (rev s).

(** [s.split(sep)] for a separator of one character: the pieces between
    the separators, one more than there are separators. *)
Fixpoint split_at (sep : N) (s : jsstring) : list jsstring :=
  match s with
  | [] => [[]]
  | c :: r =>
      match split_at sep r with
      | [] => [[]]
      | piece :: pieces =>
          if c =? sep then [] :: piece :: pieces
          else (c :: piece) :: pieces
      end
  end.

(** [s.split(/\r?\n/)]: a line feed ends a line, and a carriage return
    right before it belongs to the separator. *)
Fixpoint split_lines (s : jsstring) : list jsstring :=
  match s with
  | [] => [[]]
  | c :: r =>
      match split_lines r with
      | [] => [[]]
      | line :: lines =>
          if c =? 10 then [] :: line :: lines
          else if (c =? 13) && starts_with [10] r then line :: lines
          else (c :: line) :: lines
      end
  end.

Definition is_digit_b (c : N) : bool := (48 <=? c) && (c <=? 57).

(** The longest prefix made of decimal digits. *)
Fixpoint leading_digits (s : jsstring) : jsstring :=
  match s with
  | c :: r => if is_digit_b c then c :: leading_digits r else []
  | [] => []
  end.

(** The number a string of decimal digits denotes. *)
Definition digits_value (ds : jsstring) : N :=
  fold_left (fun acc c => 10 * acc + (c - 48)) ds 0.

(** [Number.parseInt(s, 10)]: leading white space is skipped, a sign is
    read, and the longest run of digits that follows is the value; [None]
    is NaN, the result when no digit follows.  The value is kept exact: a
    number above 2^53 is rounded by JavaScript, which changes neither its
    sign nor whether it is zero. *)
Definition parseInt10 (s : jsstring) : option Z :=
  let s1 := drop_leading is_space s in
  let '(negative, s2) :=
    match s1 with
    | 45 :: r => (true, r)
    | 43 :: r => (false, r)
    | _ => (false, s1)
    end in
  match leading_digits s2 with
  | [] => None
  | ds => Some (if negative : bool then - Z.of_N (digits_value ds)
                else Z.of_N (digits_value ds))%Z
  end.

End JsStringMore.
Export JsStringMore.

(* ====================================================================== *)
(** * utils.ts, the functions around the task runner *)
(* ====================================================================== *)

Module UtilsRest.

Definition DEFAULT_CONCURRENCY : Z := 3.

(** The members of a parsed [URL] that the code reads. *)
Record Url : Type := {
  hostname : jsstring;
  pathname : jsstring;
  searchParams : list (jsstring * jsstring);
}.

(** The members of a ytpl item and of a ytpl play list that the code
    reads; a member that is [null] or [undefined] is [None]. *)
Record PlaylistItem : Type := {
  item_url : option jsstring;
  item_shortUrl : option jsstring;
  item_title : option jsstring;
}.

Record Playlist : Type := {
  playlist_title : jsstring;
  playlist_items : list PlaylistItem;
}.

(** The lines of a song list that are kept: split, trimmed, and neither
    empty nor starting with the comment sign. *)
Definition songEntries (raw : jsstring) : list jsstring :=
  List.filter
    (fun line => negb (bool_decide (line = [])) && negb (starts_with (js "#") line))
    (map trim (split_lines raw)).

(** [readSongList]; [readFile] is [fs.readFile(path, utf-8)]. *)
Definition readSongList {L} (readFile : jsstring -> outcome jsstring)
  (filePath : jsstring) : Js L (list jsstring) :=
  exists_ <- await (PathExists filePath) ;;
  if negb exists_ then ret []
  else
    raw <- settle (ret (readFile filePath)) ;;
    ret (songEntries raw).

Section WithUrl.
(** [new URL(input)], [None] when the constructor throws. *)
Context (parseURL : jsstring -> option Url).

(** The test of the host name: it is youtube.com or ends with
    .youtube.com. *)
Definition youtube_host (host : jsstring) : bool :=
  bool_decide (host = js "youtube.com") || ends_with (js ".youtube.com") host.

Definition isYoutubeUrl (input : jsstring) : bool :=
  match parseURL input with
  | Some parsed =>
      youtube_host (hostname parsed)
      || bool_decide (hostname parsed = js "youtu.be")
  | None => false
  end.

Definition isYoutubePlaylistUrl (input : jsstring) : bool :=
  match parseURL input with
  | Some parsed =>
      if negb (isYoutubeUrl input) then false
      else if existsb (fun kv => bool_decide (kv.1 = js "list")) (searchParams parsed)
      then true
      else includes (js "/playlist") (pathname parsed)
  | None => false
  end.

Definition buildSongTasks (entries : list jsstring) : list SongTask.t :=
  imap (fun index entry =>
          if isYoutubeUrl entry
          then SongTask.mk (N.of_nat index + 1) direct entry (Some entry)
                 None None None None
          else SongTask.mk (N.of_nat index + 1) search entry None
                 None None None None)
       entries.
End WithUrl.

(** The task of one play-list item; [index] counts the items that have a
    URL. *)
Definition playlistTask (list_title : jsstring) (index : nat)
  (item : PlaylistItem) : SongTask.t :=
  let itemTitle :=
    default (js "Playlist item " ++ num_to_js (N.of_nat index + 1))
            (item_title item) in
  SongTask.mk (N.of_nat index + 1) playlist
    (list_title ++ js " :: " ++ itemTitle)
    (match item_shortUrl item with
     | Some short => Some short
     | None => item_url item
     end)
    (Some itemTitle) (Some list_title) None None.

(** [buildPlaylistTasks]; [ytpl] is the call of the ytpl package. *)
Definition buildPlaylistTasks (ytpl : jsstring -> outcome Playlist)
  (playlistUrl : jsstring) : outcome (list SongTask.t) :=
  match ytpl playlistUrl with
  | Ok found =>
      Ok (imap (playlistTask (playlist_title found))
            (List.filter (fun item => truthy (item_url item))
               (playlist_items found)))
  | Err e => Err e
  end.

(** [createPlaylistDirectory] *)
Definition createPlaylistDirectory {L} (E : Env) (playlistName : jsstring)
  : Js L jsstring :=
  folderName <- (match sanitizeFileName playlistName with
                 | [] =>
                     now <- await DateNow ;;
                     ret (js "playlist-" ++ num_to_js now)
                 | safe => ret safe
                 end) ;;
  let playlistDir := path_resolve E (DOWNLOADS_DIR E) folderName in
  settle (await (EnsureDir playlistDir)) ;;
  ret playlistDir.

(** The digits a file name starts with when it matches the pattern of
    [getMaxNumberPrefix]: digits, a dot, a white-space character. *)
Definition numberPrefixOf (file : jsstring) : option jsstring :=
  match leading_digits file with
  | [] => None
  | ds =>
      match drop (length ds) file with
      | 46 :: c :: _ => if is_space c then Some ds else None
      | _ => None
      end
  end.

(** The loop of [getMaxNumberPrefix] over the names of a directory. *)
Definition maxNumberOf (files : list jsstring) : N :=
  fold_left
    (fun maxNumber file =>
       match numberPrefixOf file with
       | Some ds =>
           let num := digits_value ds in
           if maxNumber <? num then num else maxNumber
       | None => maxNumber
       end)
    files 0.

(** [getMaxNumberPrefix]; [readdir] is [fs.readdir(dirPath)]. *)
Definition getMaxNumberPrefix {L} (readdir : jsstring -> outcome (list jsstring))
  (dirPath : jsstring) : Js L N :=
  try_catch
    (exists_ <- await (PathExists dirPath) ;;
     if negb exists_ then ret 0
     else
       files <- settle (ret (readdir dirPath)) ;;
       ret (maxNumberOf files))
    (fun _ => ret 0).

(** An entry of [fs.readdir(dir, { withFileTypes: true })]: a file, a
    directory together with what listing it gives in turn, or an entry
    that is neither. *)
Local Unset Elimination Schemes.
Inductive Dirent : Type :=
| FileEntry (name : jsstring)
| DirEntry (name : jsstring) (listing : outcome (list Dirent))
| OtherEntry (name : jsstring).
Local Set Elimination Schemes.

(** Induction over an entry and the entries below it. *)
Fixpoint Dirent_nested_ind (P : Dirent -> Prop)
  (Hfile : forall name, P (FileEntry name))
  (Hfailed : forall name e, P (DirEntry name (Err e)))
  (Hdir : forall name entries, Forall P entries -> P (DirEntry name (Ok entries)))
  (Hother : forall name, P (OtherEntry name))
  (entry : Dirent) : P entry :=
  match entry with
  | FileEntry name => Hfile name
  | DirEntry name (Err e) => Hfailed name e
  | DirEntry name (Ok entries) =>
      Hdir name entries
        ((fix all (es : list Dirent) : Forall P es :=
            match es with
            | [] => @List.Forall_nil _ P
            | e :: rest =>
                @List.Forall_cons _ P e rest
                  (Dirent_nested_ind P Hfile Hfailed Hdir Hother e) (all rest)
            end) entries)
  | OtherEntry name => Hother name
  end.

(** The body of the test of a file name in the two scans: the new value
    of [maxNumber]. *)
Definition bumpMax (maxNumber : N) (file : jsstring) : N :=
  match numberPrefixOf file with
  | Some ds =>
      let num := digits_value ds in
      if maxNumber <? num then num else maxNumber
  | None => maxNumber
  end.

(** [scanDirectory] of [getMaxNumberPrefixInDownloads], on one entry of
    the directory being scanned; the variable [maxNumber] of the enclosing
    function is passed along, and a listing that fails ends the scan. *)
Fixpoint scanEntry (entry : Dirent) (maxNumber : N) : outcome N :=
  match entry with
  | FileEntry name => Ok (bumpMax maxNumber name)
  | DirEntry _ (Err e) => Err e
  | DirEntry _ (Ok entries) =>
      (fix scanEntries (es : list Dirent) (m : N) : outcome N :=
         match es with
         | [] => Ok m
         | e :: rest =>
             match scanEntry e m with
             | Ok m' => scanEntries rest m'
             | Err x => Err x
             end
         end) entries maxNumber
  | OtherEntry _ => Ok maxNumber
  end.

(** The loop of [scanDirectory] over a listing. *)
Fixpoint scanEntries (entries : list Dirent) (maxNumber : N) : outcome N :=
  match entries with
  | [] => Ok maxNumber
  | e :: rest =>
      match scanEntry e maxNumber with
      | Ok m => scanEntries rest m
      | Err x => Err x
      end
  end.

(** [getMaxNumberPrefixInDownloads]; [listing] is what the downloads
    directory lists. *)
Definition getMaxNumberPrefixInDownloads {L} (E : Env)
  (listing : outcome (list Dirent)) : Js L N :=
  try_catch
    (exists_ <- await (PathExists (DOWNLOADS_DIR E)) ;;
     if negb exists_ then ret 0
     else
       maxNumber <- settle (ret (scanEntry (DirEntry [] listing) 0)) ;;
       ret maxNumber)
    (fun _ => ret 0).

(** The test of a name in [cleanupPlayerScripts]: it ends with
    player-script.js. *)
Definition is_player_script (name : jsstring) : bool :=
  ends_with (js "player-script.js") name.

(** The function each target of [cleanupPlayerScripts] is mapped with. *)
Definition removePlayerScript {L} (E : Env) (cwd name : jsstring) : Js L unit :=
  let filePath := path_resolve E cwd name in
  try_catch
    (settle (await (Remove filePath)))
    (fun error =>
       logFailure (js "Cleanup failed for " ++ filePath ++ js ": "
                     ++ error_message error)).

(** [cleanupPlayerScripts]; [readdir] is [fs.readdir(cwd)].  The
    removals of [Promise.all] are requested in the order of the targets,
    and every one of them is requested, whatever becomes of the others. *)
Definition cleanupPlayerScripts {L} (E : Env)
  (readdir : jsstring -> outcome (list jsstring)) (cwd : jsstring)
  : Js L unit :=
  try_catch
    (entries <- settle (ret (readdir cwd)) ;;
     let targets := List.filter is_player_script entries in
     match targets with
     | [] => ret tt
     | _ => promise_all targets (removePlayerScript E cwd)
     end)
    (fun error =>
       logFailure (js "Cleanup scan failed: " ++ error_message error)).

End UtilsRest.
Export UtilsRest.

(* ====================================================================== *)
(** * index.ts, the functions around the task runner *)
(* ====================================================================== *)

Module Cli.

Module CliConfig.
Record t : Type := mk {
  mode : TaskMode;
  songsFile : option jsstring;
  url : option jsstring;
  playlistUrl : option jsstring;
  concurrency : Z;
}.
End CliConfig.

(** What [parseArgs] ends with: a configuration, or the end of the
    process after the help text. *)
Inductive ParseResult : Type :=
| Parsed (config : CliConfig.t)
| HelpShown.

(** The [let] variables of [parseArgs]. *)
Record ParseState : Type := {
  st_concurrency : Z;
  st_songsFile : option jsstring;
  st_url : option jsstring;
  st_playlistUrl : option jsstring;
}.

(** [!Number.isNaN(parsed) && parsed > 0] *)
Definition usable_concurrency (parsed : option Z) : option Z :=
  match parsed with
  | Some z => if (0 <? z)%Z then Some z else None
  | None => None
  end.

Definition with_concurrency (text : jsstring) (st : ParseState) : ParseState :=
  match usable_concurrency (parseInt10 text) with
  | Some z =>
      {| st_concurrency := z; st_songsFile := st_songsFile st;
         st_url := st_url st; st_playlistUrl := st_playlistUrl st |}
  | None => st
  end.

Definition is_one_of (arg : jsstring) (names : list string) : bool :=
  existsb (fun name => bool_decide (arg = js name)) names.

Section WithEnv.
Context (E : Env) (parseURL : jsstring -> option Url) (cwd : jsstring).

(** The [for] loop of [parseArgs] from the argument [args] starts with;
    [None] is the end of the process in the help case. *)
Fixpoint parseArgs_loop (args : list jsstring) (st : ParseState)
  : option ParseState :=
  match args with
  | [] => Some st
  | arg :: rest =>
      if is_one_of arg ["--help"; "-h"] then None
      else if is_one_of arg ["--file"; "-f"] then
        match rest with
        | (c :: n) :: rest' =>
            parseArgs_loop rest'
              {| st_concurrency := st_concurrency st;
                 st_songsFile := Some (path_resolve E cwd (c :: n));
                 st_url := st_url st; st_playlistUrl := st_playlistUrl st |}
        | _ => parseArgs_loop rest st
        end
      else if is_one_of arg ["--url"] then
        match rest with
        | (c :: n) :: rest' =>
            parseArgs_loop rest'
              {| st_concurrency := st_concurrency st;
                 st_songsFile := st_songsFile st;
                 st_url := Some (c :: n);
                 st_playlistUrl := st_playlistUrl st |}
        | _ => parseArgs_loop rest st
        end
      else if is_one_of arg ["--playlist"] then
        match rest with
        | (c :: n) :: rest' =>
            parseArgs_loop rest'
              {| st_concurrency := st_concurrency st;
                 st_songsFile := st_songsFile st;
                 st_url := st_url st;
                 st_playlistUrl := Some (c :: n) |}
        | _ => parseArgs_loop rest st
        end
      else if is_one_of arg ["--concurrency"; "-c"] then
        match rest with
        | (c :: n) :: rest' => parseArgs_loop rest' (with_concurrency (c :: n) st)
        | _ => parseArgs_loop rest st
        end
      else if negb (truthy (st_playlistUrl st)) && isYoutubePlaylistUrl parseURL arg
      then
        parseArgs_loop rest
          {| st_concurrency := st_concurrency st;
             st_songsFile := st_songsFile st;
             st_url := st_url st;
             st_playlistUrl := Some arg |}
      else
        let st1 :=
          if negb (truthy (st_url st)) && isYoutubeUrl parseURL arg
          then {| st_concurrency := st_concurrency st;
                  st_songsFile := st_songsFile st;
                  st_url := Some arg;
                  st_playlistUrl := st_playlistUrl st |}
          else st in
        let st2 :=
          if starts_with (js "--concurrency=") arg
          then with_concurrency (default [] (split_at 61 arg !! 1%nat)) st1
          else st1 in
        parseArgs_loop rest st2
  end.

(** [parseArgs]; [envConcurrency] is [process.env.DOWNLOAD_CONCURRENCY]. *)
Definition parseArgs (envConcurrency : option jsstring) (argv : list jsstring)
  : ParseResult :=
  let concurrency :=
    default DEFAULT_CONCURRENCY
      (usable_concurrency (parseInt10 (default [] envConcurrency))) in
  match parseArgs_loop argv
          {| st_concurrency := concurrency; st_songsFile := None;
             st_url := None; st_playlistUrl := None |} with
  | None => HelpShown
  | Some st =>
      if truthy (st_playlistUrl st)
      then Parsed (CliConfig.mk playlist None None (st_playlistUrl st)
                     (st_concurrency st))
      else if truthy (st_url st)
      then Parsed (CliConfig.mk direct None (st_url st) None (st_concurrency st))
      else Parsed (CliConfig.mk search (st_songsFile st) None None
                     (st_concurrency st))
  end.
End WithEnv.

(** The counters of [printSummary]. *)
Record Counts : Type := {
  n_total : nat;
  n_completed : nat;
  n_skipped : nat;
  n_failed : nat;
}.

(** The callback of the [reduce] of [printSummary]. *)
Definition count_result (acc : Counts) (result : TaskResult.t) : Counts :=
  match TaskResult.status result with
  | completed =>
      {| n_total := S (n_total acc); n_completed := S (n_completed acc);
         n_skipped := n_skipped acc; n_failed := n_failed acc |}
  | skipped =>
      {| n_total := S (n_total acc); n_completed := n_completed acc;
         n_skipped := S (n_skipped acc); n_failed := n_failed acc |}
  | failed =>
      {| n_total := S (n_total acc); n_completed := n_completed acc;
         n_skipped := n_skipped acc; n_failed := S (n_failed acc) |}
  end.

Definition summaryCounts (results : list TaskResult.t) : Counts :=
  fold_left count_result results
    {| n_total := 0; n_completed := 0; n_skipped := 0; n_failed := 0 |}.

(** The tasks of a play-list session as [runDownloadSession] completes
    them: the output directory, and the sequence numbers counted from
    [startNumber] when the user asked for a prefix.  The sum is the exact
    one, as the code computes it while the numbers stay within 2^53. *)
Definition playlistSessionTasks (tasks : list SongTask.t)
  (playlistDir : jsstring) (startNumber : option N) : list SongTask.t :=
  imap (fun index task =>
          SongTask.mk (SongTask.id task) (SongTask.mode task)
            (SongTask.query task) (SongTask.url task)
            (SongTask.displayTitle task) (SongTask.playlistTitle task)
            (Some playlistDir)
            (match startNumber with
             | Some first => Some (first + N.of_nat index)
             | None => None
             end))
       tasks.

End Cli.
Export Cli.

(* ====================================================================== *)
(** * A program logic for function bodies *)
(* ====================================================================== *)

Module Logic.

(** From locals and a world that satisfy [P], the body ends with an
    outcome, locals and a world that satisfy [Q]. *)
Definition triple {L A} (E : Env) (P : L -> World -> Prop) (m : Js L A)
  (Q : outcome A -> L -> World -> Prop) : Prop :=
  forall l w, P l w ->
    Q (exec E (m l) w).1.1 (exec E (m l) w).1.2 (exec E (m l) w).2.

(** The body keeps [I]. *)
Definition keeps {L A} (E : Env) (I : L -> World -> Prop) (m : Js L A) : Prop :=
  triple E I m (fun _ => I).

(** The operation keeps [I]. *)
Definition stable {L} (E : Env) (I : L -> World -> Prop) (op : Op) : Prop :=
  forall l w, I l w -> I l (perform E op w).2.

End Logic.
Export Logic.

(* ====================================================================== *)
(** * The vocabulary of the theorems *)
(* ====================================================================== *)

Module Properties.

(** White space that is collapsed: every white-space code unit is the
    space character and is not followed by another one.  [after_space]
    tells that a space stands right before the string. *)
Fixpoint single_spaced (after_space : bool) (s : list N) : bool :=
  match s with
  | [] => true
  | c :: r =>
      if is_space c
      then negb after_space && (c =? SP) && single_spaced true r
      else single_spaced false r
  end.

(** What [sanitizeFileName] establishes and what it leaves alone. *)
Record clean (s : list N) : Prop := {
  clean_hostile : Forall (fun c => is_hostile c = false) s;
  clean_spaced : single_spaced false s = true;
  clean_head : forall c, head s = Some c -> is_space c = false;
  clean_last : forall c, last s = Some c -> is_dot_or_space c = false;
}.

Definition is_digit (c : N) : Prop := 48 <= c <= 57.

(** A callback that returns, starts no fetch and leaves the files and
    the detached removals as they are. *)
Definition quiet {L} (E : Env) (callback : Js L unit) : Prop :=
  forall l w, exists l' w',
    exec E (callback l) w = ((Ok tt, l'), w')
    /\ count_ops is_primary_fetch w' = count_ops is_primary_fetch w
    /\ count_ops is_fallback_fetch w' = count_ops is_fallback_fetch w
    /\ files w' = files w
    /\ detached w' = detached w.

(** The resolution of a task succeeds with a media URL and a display
    title: a search with a first hit, or a direct or play-list task that
    has a URL and either brings its title or gets one from the basic
    info. *)
Inductive Resolved (E : Env) (task : SongTask.t) : list N -> list N -> Prop :=
| resolved_search first others :
    SongTask.mode task = search ->
    ytSearch E (SongTask.query task) = Ok (Some (first :: others)) ->
    Resolved E task (video_url first) (video_title first)
| resolved_titled u c t :
    SongTask.mode task <> search ->
    u = default (SongTask.query task) (SongTask.url task) ->
    u <> [] ->
    SongTask.displayTitle task = Some (c :: t) ->
    Resolved E task u (c :: t)
| resolved_info u info :
    SongTask.mode task <> search ->
    u = default (SongTask.query task) (SongTask.url task) ->
    u <> [] ->
    truthy (SongTask.displayTitle task) = false ->
    getBasicInfo E u = Ok info ->
    Resolved E task u (default (SongTask.query task) info).

(** The three texts [shouldFallback] looks for. *)
Definition fallback_signatures : list (list N) :=
  [js "Status code: 403"; js "Could not parse"; js "decipher"].

(** A message that holds one of them, at any place and in any mix of
    upper and lower case. *)
Definition has_signature (message : list N) : Prop :=
  exists signature pre mid post,
    signature ∈ fallback_signatures
    /\ message = pre ++ mid ++ post
    /\ map canon mid = map canon signature.

(** Every way a program can end, whatever the operations answer. *)
Fixpoint leaves {A} (P : A -> Prop) (p : Prog A) : Prop :=
  match p with
  | Ret a => P a
  | Await op k => forall x, leaves P (k x)
  end.

(** A call of the progress callback that goes with a progress event of
    the primary fetch: the byte counts are those of the event, and the
    fraction is their quotient when the total is greater than zero and
    zero otherwise. *)
Definition guarded_call (event : jsnum * jsnum)
  (call : jsnum * jsnum * jsnum) : Prop :=
  call.1.2 = event.1
  /\ call.2 = event.2
  /\ (js_gt event.2 (JFin 0) = true -> call.1.1 = js_div event.1 event.2)
  /\ (js_gt event.2 (JFin 0) = false -> call.1.1 = JFin 0).

(** A result of the [try] block that, if it is a value, carries the id of
    the task. *)
Definition keeps_id (task : SongTask.t) (o : outcome TaskResult.t * Locals)
  : Prop :=
  match o.1 with
  | Ok r => TaskResult.id r = SongTask.id task
  | Err _ => True
  end.

(** Every way a program can end when its operations answer as the
    collaborators [E] make them answer, in whatever world they are
    performed. *)
Fixpoint answers {A} (E : Env) (P : A -> Prop) (p : Prog A) : Prop :=
  match p with
  | Ret a => P a
  | Await op k => forall w, answers E P (k (perform E op w).1)
  end.

(** A rejection that is the rejection of a write to the failure log. *)
Definition log_rejection (E : Env) (e : thrown) : Prop :=
  exists message, fs_fault E (AppendErrorsLog message) = Some e.

(** A settled task: a value with the property [Q], or the rejection of a
    write to the failure log. *)
Definition settles_as (E : Env) (Q : TaskResult.t -> Prop)
  (r : outcome TaskResult.t) : Prop :=
  match r with
  | Ok res => Q res
  | Err e => log_rejection E e
  end.

(** A result that carries the id of the task. *)
Definition same_id (task : SongTask.t) (r : TaskResult.t) : Prop :=
  TaskResult.id r = SongTask.id task.

(** What the slot of a task may hold, in a session whose results have the
    property [Q] of their tasks. *)
Definition slot_ok (E : Env) (Q : SongTask.t -> TaskResult.t -> Prop)
  (task : SongTask.t) (s : Slot) : Prop :=
  match s with
  | Queued t => t = task
  | Running p => answers E (fun o => settles_as E (Q task) o.1) p
  | Settled r => settles_as E (Q task) r
  end.

(** The invariant of a session over the tasks [tasks]. *)
Definition session_ok (E : Env) (Q : SongTask.t -> TaskResult.t -> Prop)
  (concurrency : nat) (tasks : list SongTask.t) (s : Session) : Prop :=
  Forall2 (slot_ok E Q) tasks (slots s) /\ (activeCount s <= concurrency)%nat.




Definition is_settled (s : Slot) : bool :=
  match s with Settled _ => true | _ => false end.

End Properties.
Export Properties.

(* ====================================================================== *)
(** * Sample collaborators, tasks and worlds *)
(* ====================================================================== *)

Module Samples.

Definition posix_resolve (dir name : list N) : list N := dir ++ js "/" ++ name.

Definition blocked : thrown := ErrorObj (js "Status code: 403").
Definition reset : thrown := ErrorObj (js "socket hang up").

Definition env (found : SearchResult) (core : CoreEnd) (yt : YtEnd) : Env :=
  {| DOWNLOADS_DIR := js "/home/user/downloads";
     path_resolve := posix_resolve;
     path_basename := fun p => p;
     validateURL := fun _ => true;
     ytSearch := fun _ => Ok found;
     getBasicInfo := fun _ => Ok (Some (js "Some Song"));
     core_script := fun _ =>
       {| core_progress := [(js_of_Z 512, js_of_Z 1024); (js_of_Z 1024, js_of_Z 1024)];
          core_end := core |};
     ytdlp_load := Ok tt;
     ytdlp_script := fun url =>
       {| yt_progress := [JFin 50]; yt_end := yt;
          yt_written := match yt with
                        | YtClose (Some 0%Z) => Some (Audio url)
                        | _ => None
                        end |};
     fs_fault := fun _ => None |}.

Definition world (existing : list (list N)) : World :=
  {| files := list_to_map (map (fun p => (p, Audio (js "earlier"))) existing);
     detached := []; errors_log := []; downloaded_log := [];
     bars := ∅; next_bar := 0; now := 1700000000000; trace := [] |}.

Definition hit : VideoSearchResult :=
  {| video_url := js "https://youtu.be/abc"; video_title := js "Some Song" |}.

Definition search_task (n : N) (q : string) : SongTask.t :=
  SongTask.mk n search (js q) None None None None None.

Definition direct_task (n : N) (u : string) : SongTask.t :=
  SongTask.mk n direct (js u) (Some (js u)) None None None None.

End Samples.

(* ====================================================================== *)
(** * The vocabulary of the further properties *)
(* ====================================================================== *)

Module Outcomes.

(** [result.status === s], the test of the filter that counts the
    completed results of a play list. *)
Definition has_status (s : Status) (result : TaskResult.t) : bool :=
  match s, TaskResult.status result with
  | completed, completed | skipped, skipped | failed, failed => true
  | _, _ => false
  end.

(** The line [logSuccess] appends for a file. *)
Definition success_line (E : Env) (filePath : list N)
  (playlistTitle playlistFolder : option (list N)) : LogLine :=
  match playlistTitle, playlistFolder with
  | Some (c :: title), Some (d :: folder) =>
      PlaylistLine (c :: title) (path_basename E (d :: folder))
        (path_basename E filePath)
  | _, _ => PlainLine (path_basename E filePath)
  end.

(** What an append to one of the two logs answers. *)
Definition written (E : Env) (op : Op) : outcome unit :=
  match fs_fault E op with
  | Some e => Err e
  | None => Ok tt
  end.

(** What [runTask] settles with once its [catch] block has caught
    [error], with [videoUrl] as it stood at the throw: the failed result,
    or the rejection of the write to the failure log. *)
Definition caught (E : Env) (task : SongTask.t) (videoUrl : list N)
  (error : thrown) : outcome TaskResult.t :=
  match fs_fault E (AppendErrorsLog
                      (SongTask.query task ++ js " :: " ++ error_message error)) with
  | None =>
      Ok (TaskResult.mk (SongTask.id task) (SongTask.query task)
            (str_or videoUrl (default [] (SongTask.url task)))
            failed (Some (error_message error)) None)
  | Some e => Err e
  end.


(** The two optional arguments [runTask] gives [logSuccess]. *)
Definition logged_title (task : SongTask.t) : option (list N) :=
  match SongTask.mode task with
  | playlist => SongTask.playlistTitle task
  | _ => None
  end.

Definition logged_folder (E : Env) (task : SongTask.t) : option (list N) :=
  match SongTask.mode task with
  | playlist => Some (targetDir E task)
  | _ => None
  end.

(** What [runTask] settles with once [downloadToMp3] has ended with [d]
    for the media URL [u]: completed, when the fetch returned a path and
    the log of downloaded files took its line; otherwise what the [catch]
    block makes of the error of the fetch or of the rejected write. *)
Definition fetched (E : Env) (task : SongTask.t) (u : list N)
  (d : outcome (list N)) : outcome TaskResult.t :=
  match d with
  | Ok finalPath =>
      match fs_fault E (AppendDownloadedLog
                          (success_line E finalPath (logged_title task)
                             (logged_folder E task))) with
      | None =>
          Ok (TaskResult.mk (SongTask.id task) (SongTask.query task) u
                completed None (Some finalPath))
      | Some e => caught E task u e
      end
  | Err e => caught E task u e
  end.

(** The members of a result that go with its status. *)
Definition well_formed (E : Env) (task : SongTask.t) (r : TaskResult.t)
  : Prop :=
  TaskResult.id r = SongTask.id task
  /\ TaskResult.query r = SongTask.query task
  /\ match TaskResult.status r with
     | completed =>
         TaskResult.reason r = None
         /\ exists title,
              TaskResult.filePath r = Some (outputPath E task title)
     | skipped =>
         TaskResult.reason r = Some (js "Already downloaded")
         /\ exists title,
              TaskResult.filePath r = Some (outputPath E task title)
     | failed =>
         is_Some (TaskResult.reason r) /\ TaskResult.filePath r = None
     end.

(** No bar is registered under a number the container has not given out
    yet. *)
Definition bars_fresh (w : World) : Prop :=
  forall k, (next_bar w <= k)%nat -> bars w !! k = None.

(** The requests a task with the directory [dir] and the output path
    [out] makes of the file system and of the two fetch strategies: the
    test of the output path, the making of the directory, the removal of
    the temporary path next to the output path, the primary fetch into the
    temporary path, the move from there to the output path, and the
    fallback fetch into the output path.  The other operations take no
    path from the task: the loading of yt-dlp, the two logs, the search,
    the clock and the bars. *)
Definition own_request (dir out : list N) (op : Op) : Prop :=
  match op with
  | PathExists path | RunYtDlp _ path => path = out
  | EnsureDir path => path = dir
  | Remove path | RemoveDetached path | RunCore _ path =>
      path = out ++ js ".part"
  | Move src dst => src = out ++ js ".part" /\ dst = out
  | _ => True
  end.

(** Operations that leave the bars, and operations that leave the two
    logs, as they are. *)
Definition no_bar_op (op : Op) : bool :=
  match op with
  | BarCreate _ | BarUpdate _ _ _ | BarStop _ | BarRemove _ => false
  | _ => true
  end.

(** Operations that touch no file and start no fetch. *)
Definition no_file_op (op : Op) : bool :=
  match op with
  | YtSearch _ | GetBasicInfo _ | PathExists _ | DateNow
  | AppendErrorsLog _ | AppendDownloadedLog _
  | BarCreate _ | BarUpdate _ _ _ | BarStop _ | BarRemove _ => true
  | _ => false
  end.

Definition no_log_op (op : Op) : bool :=
  match op with
  | AppendErrorsLog _ | AppendDownloadedLog _ => false
  | _ => true
  end.

(** What a task with the bar [b], the directory [dir] and the output path
    [out] may have done between [w0] and [w]: it has changed no bar but
    its own, and every operation performed since [w0] is one of its own
    requests. *)
Definition frame (b : nat) (dir out : list N) (w0 w : World) : Prop :=
  (forall k, k <> b -> bars w !! k = bars w0 !! k)
  /\ exists ops,
       trace w = trace w0 ++ ops /\ Forall (own_request dir out) ops.

(** The variable [bar] and the container: no bar yet and the container as
    it was, or the bar [b] and the next number after it. *)
Definition bar_state (b : nat) (l : Locals) (w0 w : World) : Prop :=
  (bar l = None /\ bars w = bars w0 /\ next_bar w = next_bar w0)
  \/ (bar l = Some b /\ next_bar w = S b).

(** A fetch that, if it returns, returns the path [target]. *)
Definition returns {L} (target : list N) (o : outcome (list N) * L) : Prop :=
  match o.1 with
  | Ok path => path = target
  | Err _ => True
  end.

(** A result of the [try] block that, if it is a value, is well formed. *)
Definition keeps_form (E : Env) (task : SongTask.t)
  (o : outcome TaskResult.t * Locals) : Prop :=
  match o.1 with
  | Ok r => well_formed E task r
  | Err _ => True
  end.

(** What holds from the creation of the bar to the end of the [try]
    block of [runTask]. *)
Definition fetch_inv (b : nat) (dir out : list N) (w0 : World)
  (l : Locals) (w : World) : Prop :=
  bar l = Some b
  /\ next_bar w = S b
  /\ frame b dir out w0 w
  /\ errors_log w = errors_log w0
  /\ downloaded_log w = downloaded_log w0.

(** The lines a result stands for in the two logs. *)
Definition failure_lines (task : SongTask.t) (r : TaskResult.t)
  : list (list N) :=
  if has_status failed r
  then [SongTask.query task ++ js " :: " ++ default [] (TaskResult.reason r)]
  else [].

Definition success_lines (E : Env) (task : SongTask.t) (r : TaskResult.t)
  : list LogLine :=
  if has_status completed r
  then [success_line E (default [] (TaskResult.filePath r))
          (logged_title task) (logged_folder E task)]
  else [].

(** What holds when the [try] block of [runTask] is left, for a task that
    started in [w0] and whose display title is [title]. *)
Definition try_post (E : Env) (task : SongTask.t) (title : list N)
  (w0 : World) (x : outcome TaskResult.t * Locals * World) : Prop :=
  frame (next_bar w0) (targetDir E task) (outputPath E task title) w0 x.2
  /\ bar_state (next_bar w0) x.1.2 w0 x.2
  /\ match x.1.1 with
     | Ok r =>
         errors_log x.2 = errors_log w0 ++ failure_lines task r
         /\ downloaded_log x.2 = downloaded_log w0 ++ success_lines E task r
         /\ (has_status failed r = false ->
             TaskResult.filePath r = Some (outputPath E task title))
     | Err _ =>
         errors_log x.2 = errors_log w0
         /\ downloaded_log x.2 = downloaded_log w0
     end.

(** Every directory at or below an entry can be listed. *)
Fixpoint listable (entry : Dirent) : bool :=
  match entry with
  | DirEntry _ (Ok entries) => forallb listable entries
  | DirEntry _ (Err _) => false
  | _ => true
  end.

(** The names of the files at or below an entry, in the order of the
    listings. *)
Fixpoint files_below (entry : Dirent) : list (list N) :=
  match entry with
  | FileEntry name => [name]
  | DirEntry _ (Ok entries) => flat_map files_below entries
  | _ => []
  end.

(** The files once the removals of [cleanupPlayerScripts] that do not
    fail have been carried out. *)
Definition scripts_removed (E : Env) (cwd : list N) (targets : list (list N))
  (fs : gmap (list N) Node) : gmap (list N) Node :=
  foldl (fun fs name =>
           match fs_fault E (Remove (path_resolve E cwd name)) with
           | Some _ => fs
           | None => delete (path_resolve E cwd name) fs
           end) fs targets.

(** The operations of [cleanupPlayerScripts] over the targets [targets]:
    the removal of the path of a target, and writes to the failure log. *)
Definition cleanup_request (E : Env) (cwd : list N) (targets : list (list N))
  (op : Op) : Prop :=
  match op with
  | Remove path =>
      exists name, name ∈ targets /\ path = path_resolve E cwd name
  | AppendErrorsLog _ => True
  | _ => False
  end.

(** The error a primary fetch ends with. *)
Definition core_error (c : CoreEnd) : option thrown :=
  match c with
  | StreamError e | EncodeError e => Some e
  | EncodeEnd => None
  end.

(** Between [w] and [w'] no file has changed, no removal was left
    pending and no fetch strategy was started. *)
Definition untouched (w w' : World) : Prop :=
  files w' = files w
  /\ detached w' = detached w
  /\ count_ops is_primary_fetch w' = count_ops is_primary_fetch w
  /\ count_ops is_fallback_fetch w' = count_ops is_fallback_fetch w.

(** The files once [downloadToMp3] has made sure of the directory [dir]
    and removed what was left at the temporary path [temp]. *)
Definition prepared (dir temp : list N) (fs : gmap (list N) Node)
  : gmap (list N) Node :=
  delete temp (match fs !! dir with
               | Some _ => fs
               | None => <[dir := Directory]> fs
               end).

End Outcomes.
Export Outcomes.

(* ====================================================================== *)
(** * More sample collaborators *)
(* ====================================================================== *)

Module MoreSamples.

(** Collaborators whose ytdl-core accepts no URL. *)
Definition rejecting_env (found : SearchResult) : Env :=
  {| DOWNLOADS_DIR := js "/home/user/downloads";
     path_resolve := Samples.posix_resolve;
     path_basename := fun p => p;
     validateURL := fun _ => false;
     ytSearch := fun _ => Ok found;
     getBasicInfo := fun _ => Ok (Some (js "Some Song"));
     core_script := fun _ => {| core_progress := []; core_end := EncodeEnd |};
     ytdlp_load := Ok tt;
     ytdlp_script := fun _ =>
       {| yt_progress := []; yt_end := YtClose (Some 0%Z); yt_written := None |};
     fs_fault := fun _ => None |}.

(** Collaborators whose primary fetch reports the progress events
    [events] and then ends. *)
Definition progress_env (events : list (jsnum * jsnum)) : Env :=
  {| DOWNLOADS_DIR := js "/home/user/downloads";
     path_resolve := Samples.posix_resolve;
     path_basename := fun p => p;
     validateURL := fun _ => true;
     ytSearch := fun _ => Ok None;
     getBasicInfo := fun _ => Ok None;
     core_script := fun _ => {| core_progress := events; core_end := EncodeEnd |};
     ytdlp_load := Ok tt;
     ytdlp_script := fun _ =>
       {| yt_progress := []; yt_end := YtClose (Some 0%Z); yt_written := None |};
     fs_fault := fun _ => None |}.


(** The rejection of a write to a full disk. *)
Definition no_space : thrown :=
  ErrorObj (js "ENOSPC: no space left on device, write").

(** Collaborators whose search finds nothing and whose disk is full: the
    appends to the two logs are rejected. *)
Definition full_disk_env : Env :=
  {| DOWNLOADS_DIR := js "/home/user/downloads";
     path_resolve := Samples.posix_resolve;
     path_basename := fun p => p;
     validateURL := fun _ => true;
     ytSearch := fun _ => Ok (Some []);
     getBasicInfo := fun _ => Ok (Some (js "Some Song"));
     core_script := fun _ => {| core_progress := []; core_end := EncodeEnd |};
     ytdlp_load := Ok tt;
     ytdlp_script := fun _ =>
       {| yt_progress := []; yt_end := YtClose (Some 0%Z); yt_written := None |};
     fs_fault := fun op =>
       match op with
       | AppendErrorsLog _ | AppendDownloadedLog _ => Some no_space
       | _ => None
       end |}.

(** A play-list task without a URL and without a query. *)
Definition empty_task (n : N) : SongTask.t :=
  SongTask.mk n playlist [] None (Some (js "Intro")) (Some (js "Mix")) None None.

End MoreSamples.

(* ====================================================================== *)
(** * Theorems *)
(* ====================================================================== *)

(** ** Facts about the string operations *)

Section ClassOperations.
Context (cls : N -> bool).

Lemma drop_trailing_split (s : list N) :
  exists t, s = drop_trailing cls s ++ t /\ Forall (fun c => cls c = true) t.
Proof.
  induction s as [|c r IH]; simpl.
  - exists []. split; [reflexivity | constructor].
  - destruct IH as [t [Hs Ht]].
    destruct (drop_trailing cls r) as [|d r'] eqn:Hr.
    + simpl in Hs. subst t. destruct (cls c) eqn:Hc.
      * exists (c :: r). split; [reflexivity | constructor; assumption].
      * exists r. split; [reflexivity | assumption].
    + exists t. split; [ | assumption]. simpl in *. f_equal. exact Hs.
Qed.

Lemma drop_trailing_last (s : list N) (c : N) :
  last (drop_trailing cls s) = Some c -> cls c = false.
Proof.
  revert c. induction s as [|d r IH]; simpl; intros c; [discriminate | ].
  destruct (drop_trailing cls r) as [|e r'] eqn:Hr.
  - destruct (cls d) eqn:Hd; simpl; [discriminate | congruence].
  - intros H. apply IH. rewrite <- H. reflexivity.
Qed.

Lemma drop_trailing_fixed (s : list N) :
  (forall c, last s = Some c -> cls c = false) -> drop_trailing cls s = s.
Proof.
  induction s as [|d r IH]; simpl; intros H; [reflexivity | ].
  destruct r as [|e r'].
  - simpl. rewrite (H d); reflexivity.
  - rewrite IH; [reflexivity | ].
    intros c Hc. apply H. rewrite <- Hc. reflexivity.
Qed.

Lemma drop_trailing_head (s : list N) (c : N) :
  head (drop_trailing cls s) = Some c -> head s = Some c.
Proof.
  destruct s as [|d r]; simpl; [discriminate | ].
  destruct (drop_trailing cls r); [destruct (cls d) | ]; simpl; congruence.
Qed.

Lemma drop_trailing_Forall (P : N -> Prop) (s : list N) :
  Forall P s -> Forall P (drop_trailing cls s).
Proof.
  intros H. destruct (drop_trailing_split s) as [t [Hs _]].
  rewrite Hs in H. apply Forall_app in H. tauto.
Qed.

Lemma drop_leading_head (s : list N) (c : N) :
  head (drop_leading cls s) = Some c -> cls c = false.
Proof.
  induction s as [|d r IH]; simpl; [discriminate | ].
  destruct (cls d) eqn:Hd; [assumption | simpl; congruence].
Qed.

Lemma drop_leading_fixed (s : list N) :
  (forall c, head s = Some c -> cls c = false) -> drop_leading cls s = s.
Proof.
  destruct s as [|d r]; simpl; intros H; [reflexivity | ].
  rewrite (H d); reflexivity.
Qed.

Lemma drop_leading_Forall (P : N -> Prop) (s : list N) :
  Forall P s -> Forall P (drop_leading cls s).
Proof.
  induction 1 as [|d r Hd Hr IH]; simpl; [constructor | ].
  destruct (cls d); [assumption | constructor; assumption].
Qed.

Lemma replace_runs_Forall (P : N -> Prop) (b : bool) (s : list N) :
  P SP -> Forall P s -> Forall P (replace_runs cls b s).
Proof.
  intros HSP H. revert b.
  induction H as [|d r Hd Hr IH]; simpl; intros b; [constructor | ].
  destruct (cls d); [destruct b | ]; try constructor; auto.
Qed.

Lemma replace_each_fixed (s : list N) :
  Forall (fun c => cls c = false) s -> replace_each cls s = s.
Proof.
  induction 1 as [|d r Hd Hr IH]; simpl; [reflexivity | ].
  rewrite Hd. f_equal. exact IH.
Qed.

Lemma replace_each_Forall (s : list N) :
  cls SP = false -> Forall (fun c => cls c = false) (replace_each cls s).
Proof.
  intros HSP. induction s as [|d r IH]; simpl; constructor; [ | exact IH].
  destruct (cls d) eqn:Hd; assumption.
Qed.
End ClassOperations.


Lemma single_spaced_app_l (b : bool) (s t : list N) :
  single_spaced b (s ++ t) = true -> single_spaced b s = true.
Proof.
  revert b. induction s as [|c r IH]; simpl; intros b; [reflexivity | ].
  destruct (is_space c); [ | apply IH].
  rewrite !andb_true_iff. intros [[H1 H2] H3]. eauto.
Qed.

Lemma replace_runs_single_spaced (b : bool) (s : list N) :
  single_spaced b (replace_runs is_space b s) = true.
Proof.
  revert b. induction s as [|c r IH]; simpl; intros b; [reflexivity | ].
  destruct (is_space c) eqn:Hc.
  - destruct b; [apply IH | ]. simpl. apply IH.
  - simpl. rewrite Hc. apply IH.
Qed.

Lemma replace_runs_fixed (b : bool) (s : list N) :
  single_spaced b s = true -> replace_runs is_space b s = s.
Proof.
  revert b. induction s as [|c r IH]; simpl; intros b; [reflexivity | ].
  destruct (is_space c) eqn:Hc.
  - rewrite !andb_true_iff. intros [[H1 H2] H3].
    destruct b; [discriminate | ].
    apply N.eqb_eq in H2. subst c. f_equal. apply IH, H3.
  - intros H. f_equal. apply IH, H.
Qed.

Lemma drop_leading_single_spaced (b : bool) (s : list N) :
  single_spaced b s = true ->
  single_spaced false (drop_leading is_space s) = true.
Proof.
  revert b. induction s as [|c r IH]; simpl; intros b; [reflexivity | ].
  destruct (is_space c) eqn:Hc.
  - rewrite !andb_true_iff. intros [_ H3]. eapply IH, H3.
  - simpl. rewrite Hc. auto.
Qed.

Lemma drop_trailing_single_spaced (cls : N -> bool) (b : bool) (s : list N) :
  single_spaced b s = true -> single_spaced b (drop_trailing cls s) = true.
Proof.
  intros H. destruct (drop_trailing_split cls s) as [t [Hs _]].
  rewrite Hs in H. eapply single_spaced_app_l, H.
Qed.

Lemma is_dot_or_space_space (c : N) :
  is_dot_or_space c = false -> is_space c = false.
Proof. unfold is_dot_or_space. rewrite orb_false_iff. tauto. Qed.

(** ** The shape of a sanitized name *)


Lemma sanitizeFileName_clean (value : list N) : clean (sanitizeFileName value).
Proof.
  unfold sanitizeFileName, trim. split.
  - apply drop_trailing_Forall, drop_trailing_Forall, drop_leading_Forall.
    apply replace_runs_Forall; [reflexivity | ].
    apply replace_each_Forall. reflexivity.
  - apply drop_trailing_single_spaced, drop_trailing_single_spaced.
    eapply drop_leading_single_spaced, replace_runs_single_spaced.
  - intros c Hc.
    apply drop_trailing_head, drop_trailing_head in Hc.
    eapply drop_leading_head, Hc.
  - intros c Hc. eapply drop_trailing_last, Hc.
Qed.

Lemma clean_fixed (s : list N) : clean s -> sanitizeFileName s = s.
Proof.
  intros [Hh Hs Hd Hl]. unfold sanitizeFileName, trim.
  rewrite (replace_each_fixed _ _ Hh), (replace_runs_fixed _ _ Hs).
  rewrite (drop_leading_fixed _ _ Hd).
  rewrite (drop_trailing_fixed is_space).
  - apply drop_trailing_fixed, Hl.
  - intros c Hc. apply is_dot_or_space_space, Hl, Hc.
Qed.

Lemma clean_trimmed (s : list N) : clean s -> trim s = s.
Proof.
  intros [_ _ Hd Hl]. unfold trim.
  rewrite (drop_leading_fixed _ _ Hd).
  apply drop_trailing_fixed. intros c Hc. apply is_dot_or_space_space, Hl, Hc.
Qed.

Example sanitizeFileName_sample :
  sanitizeFileName (js "  AC/DC:  Back?. . ") = js "AC DC Back".
Proof. vm_compute. reflexivity. Qed.

Example sanitizeFileName_all_hostile : sanitizeFileName (js "??? ***") = [].
Proof. vm_compute. reflexivity. Qed.

(** C5.  Sanitizing is idempotent: a sanitized name is left unchanged by
    a second pass of [sanitizeFileName], whatever the input string. *)
Theorem sanitizeFileName_idempotent (x : list N) :
  sanitizeFileName (sanitizeFileName x) = sanitizeFileName x.
Proof. apply clean_fixed, sanitizeFileName_clean. Qed.

(** What a sanitized name looks like: it holds none of the eight
    characters of the class, its white space is single spaces, trimming
    leaves it unchanged, and it ends in neither a dot nor white space. *)
Lemma sanitizeFileName_shape (value : list N) :
  let name := sanitizeFileName value in
  (forall c, c ∈ name -> is_hostile c = false)
  /\ single_spaced false name = true
  /\ trim name = name
  /\ (forall c, last name = Some c -> c <> 46 /\ is_space c = false).
Proof.
  pose proof (sanitizeFileName_clean value) as H. simpl.
  repeat split.
  - intros c Hc. revert c Hc. apply Forall_forall, H.
  - apply H.
  - apply clean_trimmed, H.
  - apply (clean_last _ H) in H0. unfold is_dot_or_space in H0.
    apply orb_false_iff in H0 as [H0 _]. apply N.eqb_neq, H0.
  - apply is_dot_or_space_space, (clean_last _ H), H0.
Qed.

(** C6.  The backslash survives sanitization: the name made of the letter
    a, a backslash and the letter b is returned as it is, so a sanitized
    name can still hold a backslash, one of the nine hostile characters
    of the specification. *)
Theorem sanitizeFileName_keeps_backslash :
  sanitizeFileName (js "a\b") = js "a\b"
  /\ 92 ∈ sanitizeFileName (js "a\b").
Proof.
  split; [vm_compute; reflexivity | ].
  change (sanitizeFileName (js "a\b")) with [97; 92; 98].
  apply list_elem_of_In. simpl. tauto.
Qed.

(** ** Decimal numerals *)


Lemma js_String (a : Ascii.ascii) (s : string) :
  js (String a s) = Ascii.N_of_ascii a :: js s.
Proof. reflexivity. Qed.


Lemma pretty_N_char_digit (x : N) : is_digit (Ascii.N_of_ascii (pretty_N_char x)).
Proof.
  unfold pretty_N_char, is_digit.
  repeat case_match; vm_compute; split; discriminate.
Qed.

Lemma pretty_N_go_digits (x : N) (s : string) :
  Forall is_digit (js s) -> Forall is_digit (js (pretty_N_go x s)).
Proof.
  revert s. induction (N.lt_wf_0 x) as [x _ IH]. intros s Hs.
  destruct (decide (x = 0)) as [-> | Hx].
  - rewrite pretty_N_go_0. exact Hs.
  - rewrite pretty_N_go_step by lia. apply IH.
    + apply N.div_lt; lia.
    + rewrite js_String. constructor; [apply pretty_N_char_digit | exact Hs].
Qed.

Lemma num_to_js_digits (n : N) : Forall is_digit (num_to_js n).
Proof.
  unfold num_to_js, pretty, pretty_N. case_decide.
  - repeat constructor; vm_compute; discriminate.
  - apply pretty_N_go_digits. constructor.
Qed.


Lemma digit_not_hostile (c : N) : is_digit c -> is_hostile c = false.
Proof.
  unfold is_digit, is_hostile. intros H.
  rewrite !orb_false_iff, !N.eqb_neq. lia.
Qed.

Lemma digit_not_dot_or_space (c : N) : is_digit c -> is_dot_or_space c = false.
Proof.
  unfold is_digit, is_dot_or_space, is_space. intros H.
  rewrite !orb_false_iff, !andb_false_iff, !N.eqb_neq, !N.leb_gt. lia.
Qed.

Lemma no_space_single_spaced (b : bool) (s : list N) :
  Forall (fun c => is_space c = false) s -> single_spaced b s = true.
Proof.
  intros H. revert b. induction H as [|c r Hc Hr IH]; simpl; intros b.
  - reflexivity.
  - rewrite Hc. apply IH.
Qed.

(** The name [youtube-audio-] followed by a numeral is already clean. *)
Lemma synthetic_name_clean (n : N) : clean (js "youtube-audio-" ++ num_to_js n).
Proof.
  pose proof (num_to_js_digits n) as Hd.
  split.
  - apply Forall_app. split.
    + repeat constructor.
    + eapply Forall_impl; [exact Hd | apply digit_not_hostile].
  - apply no_space_single_spaced, Forall_app. split.
    + repeat constructor.
    + eapply Forall_impl; [exact Hd | ].
      intros c Hc. apply is_dot_or_space_space, digit_not_dot_or_space, Hc.
  - simpl. intros c [= <-]. reflexivity.
  - intros c. rewrite last_app. destruct (last (num_to_js n)) as [d|] eqn:Hl.
    + intros [= <-]. apply digit_not_dot_or_space.
      apply last_Some_elem_of in Hl. revert d Hl. apply Forall_forall, Hd.
    + intros [= <-]. reflexivity.
Qed.

(** ** Running programs *)

Lemma exec_pbind {A B} (E : Env) (p : Prog A) (f : A -> Prog B) (w : World) :
  exec E (pbind p f) w = exec E (f (exec E p w).1) (exec E p w).2.
Proof.
  revert w. induction p as [a | op k IH]; intros w; simpl; [reflexivity | ].
  apply IH.
Qed.

Lemma exec_bind {L A B} (E : Env) (m : Js L A) (f : A -> Js L B) (l : L)
  (w : World) :
  exec E (bind m f l) w =
  match exec E (m l) w with
  | ((Ok a, l'), w') => exec E (f a l') w'
  | ((Err e, l'), w') => ((Err e, l'), w')
  end.
Proof.
  unfold bind. rewrite exec_pbind.
  destruct (exec E (m l) w) as [[[a | e] l'] w']; reflexivity.
Qed.

Lemma exec_try_catch {L A} (E : Env) (body : Js L A) (h : thrown -> Js L A)
  (l : L) (w : World) :
  exec E (try_catch body h l) w =
  match exec E (body l) w with
  | ((Ok a, l'), w') => ((Ok a, l'), w')
  | ((Err e, l'), w') => exec E (h e l') w'
  end.
Proof.
  unfold try_catch. rewrite exec_pbind.
  destruct (exec E (body l) w) as [[[a | e] l'] w']; reflexivity.
Qed.

Lemma exec_ret {L A} (E : Env) (a : A) (l : L) (w : World) :
  exec E (ret a l) w = ((Ok a, l), w).
Proof. reflexivity. Qed.

Lemma exec_throw {L A} (E : Env) (e : thrown) (l : L) (w : World) :
  exec E (throw (A := A) e l) w = ((Err e, l), w).
Proof. reflexivity. Qed.

Lemma exec_get {L} (E : Env) (l : L) (w : World) :
  exec E (get l) w = ((Ok l, l), w).
Proof. reflexivity. Qed.

Lemma exec_modify {L} (E : Env) (f : L -> L) (l : L) (w : World) :
  exec E (modify f l) w = ((Ok tt, f l), w).
Proof. reflexivity. Qed.

Lemma exec_await {L} (E : Env) (op : Op) (l : L) (w : World) :
  exec E (await op l) w =
  ((Ok (handle E op w).1, l), record_op op (handle E op w).2).
Proof. reflexivity. Qed.

(** The same step, for a goal in which the reply type is already
    computed. *)
Ltac exec_await :=
  match goal with
  | |- context [exec ?E (await ?op ?l) ?w] =>
      change (exec E (await op l) w)
        with ((Ok (handle E op w).1, l), record_op op (handle E op w).2);
      cbv beta iota
  end.

Lemma exec_settle {L A} (E : Env) (m : Js L (outcome A)) (l : L) (w : World) :
  exec E (settle m l) w =
  match exec E (m l) w with
  | ((Ok (Ok a), l'), w') => ((Ok a, l'), w')
  | ((Ok (Err e), l'), w') => ((Err e, l'), w')
  | ((Err e, l'), w') => ((Err e, l'), w')
  end.
Proof.
  unfold settle. rewrite exec_bind.
  destruct (exec E (m l) w) as [[[[a | e] | e] l'] w']; reflexivity.
Qed.

Lemma exec_try_finally {L A} (E : Env) (body : Js L A) (final : Js L unit)
  (l : L) (w : World) :
  exec E (try_finally body final l) w =
  match exec E (body l) w with
  | ((r, l'), w') =>
      match exec E (final l') w' with
      | ((Ok _, l''), w'') => ((r, l''), w'')
      | ((Err e, l''), w'') => ((Err e, l''), w'')
      end
  end.
Proof.
  unfold try_finally. rewrite exec_pbind.
  destruct (exec E (body l) w) as [[r l'] w']. simpl.
  rewrite exec_pbind.
  destruct (exec E (final l') w') as [[[u | e] l''] w'']; reflexivity.
Qed.


(** ** The base name of the output file *)

Lemma str_or_nonempty (a b : list N) : b <> [] -> str_or a b <> [].
Proof. destruct a; simpl; [auto | discriminate]. Qed.

Lemma synthetic_name_nonempty (n : N) : js "youtube-audio-" ++ num_to_js n <> [].
Proof. discriminate. Qed.

Lemma safeTitle_clean (task : SongTask.t) (displayTitle : list N) :
  clean (safeTitle task displayTitle).
Proof.
  unfold safeTitle.
  destruct (sanitizeFileName (titledDisplay task displayTitle)) eqn:H; simpl.
  - apply synthetic_name_clean.
  - rewrite <- H. apply sanitizeFileName_clean.
Qed.

Lemma safeTitle_nonempty (task : SongTask.t) (displayTitle : list N) :
  safeTitle task displayTitle <> [].
Proof. apply str_or_nonempty, synthetic_name_nonempty. Qed.

Lemma downloadToMp3_safeBase_of_clean {L} (E : Env) (name : list N) (l : L)
  (w : World) :
  clean name -> name <> [] ->
  exec E (downloadToMp3_safeBase name l) w = ((Ok name, l), w).
Proof.
  intros Hc Hn. unfold downloadToMp3_safeBase.
  destruct name as [|c r]; [congruence | ].
  rewrite exec_bind, exec_ret, (clean_fixed _ Hc). reflexivity.
Qed.




(** ** Rules of the program logic *)

Section Rules.
Context {L : Type} (E : Env) (I : L -> World -> Prop).

Lemma keeps_ret {A} (a : A) : keeps E I (ret a).
Proof. intros l w H. exact H. Qed.

Lemma keeps_throw {A} (e : thrown) : keeps E I (throw (A := A) e).
Proof. intros l w H. exact H. Qed.

Lemma keeps_await (op : Op) : stable E I op -> keeps E I (await op).
Proof. intros Hop l w H. apply (Hop l w H). Qed.

Lemma keeps_bind {A B} (m : Js L A) (f : A -> Js L B) :
  keeps E I m -> (forall a, keeps E I (f a)) -> keeps E I (bind m f).
Proof.
  intros Hm Hf l w H. rewrite exec_bind. specialize (Hm l w H).
  destruct (exec E (m l) w) as [[[a | e] l1] w1]; cbn [fst snd] in Hm.
  - apply Hf, Hm.
  - exact Hm.
Qed.

Lemma keeps_settle {A} (m : Js L (outcome A)) :
  keeps E I m -> keeps E I (settle m).
Proof.
  intros Hm l w H. rewrite exec_settle. specialize (Hm l w H).
  destruct (exec E (m l) w) as [[[[a | e] | e] l1] w1]; exact Hm.
Qed.

Lemma keeps_try_catch {A} (body : Js L A) (handler : thrown -> Js L A) :
  keeps E I body -> (forall e, keeps E I (handler e)) ->
  keeps E I (try_catch body handler).
Proof.
  intros Hb Hh l w H. rewrite exec_try_catch. specialize (Hb l w H).
  destruct (exec E (body l) w) as [[[a | e] l1] w1]; cbn [fst snd] in Hb.
  - exact Hb.
  - apply Hh, Hb.
Qed.

Lemma keeps_for_each {X} (xs : list X) (body : X -> Js L unit) :
  (forall x, keeps E I (body x)) -> keeps E I (for_each xs body).
Proof.
  intros Hb. induction xs as [|x xs IH]; cbn [for_each].
  - apply keeps_ret.
  - apply keeps_bind; [apply Hb | intros _; exact IH].
Qed.

(** The two fetch strategies and the [try] statement that joins them keep
    what their operations and the progress callback keep. *)

Lemma downloadWithCore_keeps (url targetPath tempPath : list N)
  (onProgress : jsnum -> jsnum -> jsnum -> Js L unit) :
  stable E I (RunCore url tempPath) ->
  stable E I (RemoveDetached tempPath) ->
  stable E I (Move tempPath targetPath) ->
  (forall p d t, keeps E I (onProgress p d t)) ->
  keeps E I (downloadWithCore url targetPath tempPath onProgress).
Proof.
  intros Hrun Hrm Hmv Hcb. unfold downloadWithCore.
  apply keeps_bind; [apply keeps_await, Hrun | ]. intros script.
  apply keeps_bind; [apply keeps_for_each; intros [d t]; apply Hcb | ].
  intros _. destruct (core_end script) as [e | e | ].
  - apply keeps_bind; [apply keeps_await, Hrm | intros _; apply keeps_throw].
  - apply keeps_bind; [apply keeps_await, Hrm | intros _; apply keeps_throw].
  - apply keeps_try_catch; [ | intros e; apply keeps_throw].
    apply keeps_bind; [apply keeps_settle, keeps_await, Hmv | ].
    intros _. apply keeps_ret.
Qed.

Lemma handleProgress_keeps (events : list jsnum) (lastPercent : jsnum)
  (onProgress : jsnum -> Js L unit) :
  (forall p, keeps E I (onProgress p)) ->
  keeps E I (handleProgress events lastPercent onProgress).
Proof.
  intros Hcb. revert lastPercent.
  induction events as [|numeric rest IH]; intros lastPercent;
    cbn [handleProgress].
  - apply keeps_ret.
  - destruct (negb (js_isNaN numeric)); [ | apply IH].
    apply keeps_bind; [apply Hcb | intros _; apply IH].
Qed.

Lemma downloadWithYtDlp_keeps (url targetPath : list N)
  (onProgress : jsnum -> Js L unit) :
  stable E I GetYtDlp ->
  stable E I (RunYtDlp url targetPath) ->
  (forall p, keeps E I (onProgress p)) ->
  keeps E I (downloadWithYtDlp url targetPath onProgress).
Proof.
  intros Hget Hrun Hcb. unfold downloadWithYtDlp.
  apply keeps_bind; [apply keeps_settle, keeps_await, Hget | ]. intros _.
  apply keeps_bind; [apply keeps_await, Hrun | ]. intros script.
  apply keeps_bind; [apply handleProgress_keeps, Hcb | ]. intros lastPercent.
  destruct (yt_end script) as [e | [[ | c | c] | ]]; try apply keeps_throw.
  apply keeps_bind; [ | intros _; apply keeps_ret].
  destruct (js_lt lastPercent (JFin 100)); [apply Hcb | apply keeps_ret].
Qed.

Lemma downloadToMp3_try_keeps (url targetPath tempPath : list N)
  (onProgress : jsnum -> jsnum -> jsnum -> Js L unit) :
  stable E I (RunCore url tempPath) ->
  stable E I (RemoveDetached tempPath) ->
  stable E I (Move tempPath targetPath) ->
  stable E I GetYtDlp ->
  stable E I (RunYtDlp url targetPath) ->
  (forall p d t, keeps E I (onProgress p d t)) ->
  keeps E I (downloadToMp3_try url targetPath tempPath onProgress).
Proof.
  intros Hrun Hrm Hmv Hget Hyt Hcb. unfold downloadToMp3_try.
  apply keeps_try_catch; [apply downloadWithCore_keeps; assumption | ].
  intros e. destruct (negb (shouldFallback e)); [apply keeps_throw | ].
  apply keeps_bind.
  - apply downloadWithYtDlp_keeps; [assumption.. | intros p; apply Hcb].
  - intros fallbackPath. apply keeps_bind; [apply Hcb | ].
    intros _. apply keeps_ret.
Qed.

(** [downloadToMp3] for a title that sanitizing leaves unchanged, as
    [runTask] passes it. *)
Lemma downloadToMp3_keeps (options : DownloadOptions L) :
  clean (title options) -> title options <> [] ->
  let targetPath :=
    path_resolve E (outputDir options) (title options ++ js ".mp3") in
  let tempPath := targetPath ++ js ".part" in
  stable E I (EnsureDir (outputDir options)) ->
  stable E I (Remove tempPath) ->
  stable E I (RunCore (url options) tempPath) ->
  stable E I (RemoveDetached tempPath) ->
  stable E I (Move tempPath targetPath) ->
  stable E I GetYtDlp ->
  stable E I (RunYtDlp (url options) targetPath) ->
  (forall p d t, keeps E I (onProgress options p d t)) ->
  keeps E I (downloadToMp3 E options).
Proof.
  intros Hclean Hne targetPath tempPath Hdir Hrm Hrun Hrd Hmv Hget Hyt Hcb.
  unfold downloadToMp3.
  destruct (negb (validateURL E (url options))); [apply keeps_throw | ].
  apply keeps_bind; [apply keeps_settle, keeps_await, Hdir | ]. intros _.
  intros l w H. rewrite exec_bind.
  rewrite (downloadToMp3_safeBase_of_clean E _ l w Hclean Hne).
  revert l w H. fold targetPath. fold tempPath.
  apply keeps_bind; [apply keeps_settle, keeps_await, Hrm | ]. intros _.
  apply downloadToMp3_try_keeps; assumption.
Qed.

End Rules.

(** ** The fraction of a progress event *)

Lemma Qltb_irrefl_zero (t : Q) : (t == 0)%Q -> Qltb 0 t = false.
Proof.
  intros H. unfold Qltb. apply negb_false_iff, Qle_bool_iff.
  rewrite H. apply Qle_refl.
Qed.

Lemma Qltb_inject_Z (a b : Z) : Qltb (inject_Z a) (inject_Z b) = (a <? b)%Z.
Proof.
  unfold Qltb. destruct (Z.ltb_spec a b) as [Hlt | Hge].
  - apply negb_true_iff. destruct (Qle_bool (inject_Z b) (inject_Z a)) eqn:H;
      [ | reflexivity].
    apply Qle_bool_iff in H. rewrite <- Zle_Qle in H. lia.
  - apply negb_false_iff, Qle_bool_iff. rewrite <- Zle_Qle. exact Hge.
Qed.

(** The progress handler calls the callback once for every event, in the
    order of the events. *)
Lemma for_each_recorded (E : Env) (events : list (jsnum * jsnum))
  (calls : list (jsnum * jsnum * jsnum)) (w : World) :
  exec E (for_each events (fun '(downloaded, total) =>
            modify (fun calls : list (jsnum * jsnum * jsnum) =>
                      calls ++ [(progress_percent downloaded total,
                                 downloaded, total)])) calls) w
  = ((Ok tt,
      calls ++ map (fun '(downloaded, total) =>
                      (progress_percent downloaded total, downloaded, total))
                 events), w).
Proof.
  revert calls. induction events as [|[downloaded total] rest IH]; intros calls;
    cbn [for_each map].
  - rewrite app_nil_r. reflexivity.
  - rewrite exec_bind, exec_modify, IH, <- app_assoc. reflexivity.
Qed.

Lemma progress_percent_call (downloaded total : jsnum) :
  guarded_call (downloaded, total)
    (progress_percent downloaded total, downloaded, total).
Proof.
  unfold guarded_call, progress_percent. cbn [fst snd].
  destruct (js_gt total (JFin 0)); repeat split; intros;
    try reflexivity; discriminate.
Qed.

(** C10.  For every progress event of the primary fetch, in the order of
    the events, the callback is called once, with the two byte counts of
    the event and with a fraction that is their quotient when the total is
    greater than zero and zero otherwise.  So a total of zero gives the
    fraction zero, whatever the downloaded count is; the fraction is a
    finite number exactly when the downloaded count is finite or the total
    is not greater than zero; and for byte counts, which are whole numbers
    with a positive total here, it is their quotient, between zero and the
    downloaded count.  Whatever the callback is, it is called with such
    arguments only: what it keeps when it is called with them, and the
    operations of the fetch keep, the whole fetch keeps.  The quotient of
    zero by a zero total, which the guard avoids, would be NaN. *)
Theorem progress_percent_guarded (E : Env) (url targetPath tempPath : list N)
  (calls : list (jsnum * jsnum * jsnum)) (w : World) :
  let record := fun fraction downloaded total : jsnum =>
    modify (fun calls : list (jsnum * jsnum * jsnum) =>
              calls ++ [(fraction, downloaded, total)]) in
  let run := exec E (downloadWithCore url targetPath tempPath record calls) w in
  (exists new,
     run.1.2 = calls ++ new
     /\ Forall2 guarded_call (core_progress (core_script E url)) new)
  /\ (forall downloaded total fraction,
        guarded_call (downloaded, total) (fraction, downloaded, total) ->
        (forall z : Q, total = JFin z -> (z == 0)%Q -> fraction = JFin 0)
        /\ (is_finite fraction = true
            <-> is_finite downloaded = true \/ js_gt total (JFin 0) = false)
        /\ (forall a b : Z,
              downloaded = js_of_Z a -> total = js_of_Z b ->
              (0 <= a)%Z -> (0 < b)%Z ->
              exists q : Q,
                fraction = JFin q
                /\ (q == inject_Z a / inject_Z b)%Q
                /\ (0 <= q)%Q /\ (q <= inject_Z a)%Q))
  /\ (forall (L : Type) (I : L -> World -> Prop)
        (onProgress : jsnum -> jsnum -> jsnum -> Js L unit),
        stable E I (RunCore url tempPath) ->
        stable E I (RemoveDetached tempPath) ->
        stable E I (Move tempPath targetPath) ->
        (forall fraction downloaded total,
           guarded_call (downloaded, total) (fraction, downloaded, total) ->
           keeps E I (onProgress fraction downloaded total)) ->
        keeps E I (downloadWithCore url targetPath tempPath onProgress))
  /\ (forall total : Q, (total == 0)%Q -> js_div (JFin 0) (JFin total) = JNaN).
Proof.
  intros record run. split; [ | split; [ | split]].
  - exists (map (fun '(downloaded, total) =>
                   (progress_percent downloaded total, downloaded, total))
              (core_progress (core_script E url))).
    split.
    + unfold run, downloadWithCore. rewrite exec_bind. exec_await.
      change ((handle E (RunCore url tempPath) w).1) with (core_script E url).
      rewrite exec_bind.
      change (for_each (core_progress (core_script E url))
                (fun '(downloaded, total) =>
                   let percent := progress_percent downloaded total in
                   record percent downloaded total))
        with (for_each (core_progress (core_script E url))
                (fun '(downloaded, total) =>
                   modify (fun calls : list (jsnum * jsnum * jsnum) =>
                             calls ++ [(progress_percent downloaded total,
                                        downloaded, total)]))).
      rewrite for_each_recorded. cbv beta iota.
      destruct (core_end (core_script E url)) as [e | e | ].
      * rewrite exec_bind. exec_await. reflexivity.
      * rewrite exec_bind. exec_await. reflexivity.
      * rewrite exec_try_catch, exec_bind, exec_settle. exec_await.
        destruct ((handle E (Move tempPath targetPath) _).1) as [[] | e];
          reflexivity.
    + induction (core_progress (core_script E url)) as [|[downloaded total] rest IH];
        cbn [map]; constructor; [apply progress_percent_call | exact IH].
  - intros downloaded total fraction (_ & _ & Hpos & Hnot).
    cbn [fst snd] in Hpos, Hnot.
    split; [ | split].
    + intros z -> Hz. apply Hnot. unfold js_gt. cbn [js_lt].
      apply Qltb_irrefl_zero, Hz.
    + destruct (js_gt total (JFin 0)) eqn:Hgt.
      * rewrite (Hpos eq_refl). unfold js_gt in Hgt.
        destruct downloaded as [x | | | ], total as [y | | | ];
          cbn [js_lt] in Hgt; try discriminate; cbn [js_div is_finite];
          try (split; [intros _; left; reflexivity | intros _; reflexivity]);
          try (split; [try destruct (Qle_bool 0 y); discriminate
                      | intros [H | H]; discriminate]).
        destruct (Qeq_bool y 0) eqn:Hy.
        -- apply Qeq_bool_iff in Hy.
           rewrite (Qltb_irrefl_zero _ Hy) in Hgt. discriminate.
        -- split; [left; reflexivity | reflexivity].
      * rewrite (Hnot eq_refl). split; [right; reflexivity | reflexivity].
    + intros a b -> -> Ha Hb.
      assert (Hgt : js_gt (js_of_Z b) (JFin 0) = true).
      { unfold js_gt, js_of_Z. cbn [js_lt].
        change 0%Q with (inject_Z 0). rewrite Qltb_inject_Z.
        apply Z.ltb_lt, Hb. }
      assert (Hbq : (0 < inject_Z b)%Q).
      { change 0%Q with (inject_Z 0). rewrite <- Zlt_Qlt. exact Hb. }
      rewrite (Hpos Hgt). unfold js_of_Z. cbn [js_div].
      destruct (Qeq_bool (inject_Z b) 0) eqn:Hz.
      { apply Qeq_bool_iff in Hz. rewrite Hz in Hbq.
        exfalso. apply (Qlt_irrefl 0), Hbq. }
      exists (inject_Z a / inject_Z b)%Q.
      split; [reflexivity | ]. split; [reflexivity | ]. split.
      * apply Qle_shift_div_l; [exact Hbq | ].
        rewrite Qmult_0_l. change 0%Q with (inject_Z 0).
        rewrite <- Zle_Qle. exact Ha.
      * apply Qle_shift_div_r; [exact Hbq | ].
        rewrite <- inject_Z_mult, <- Zle_Qle. nia.
  - intros L I onProgress Hrun Hrm Hmv Hcb. unfold downloadWithCore.
    apply keeps_bind; [apply keeps_await, Hrun | ]. intros script.
    apply keeps_bind.
    { apply keeps_for_each. intros [d t]. apply Hcb, progress_percent_call. }
    intros _. destruct (core_end script) as [e | e | ].
    + apply keeps_bind; [apply keeps_await, Hrm | intros _; apply keeps_throw].
    + apply keeps_bind; [apply keeps_await, Hrm | intros _; apply keeps_throw].
    + apply keeps_try_catch; [ | intros e; apply keeps_throw].
      apply keeps_bind; [apply keeps_settle, keeps_await, Hmv | ].
      intros _. apply keeps_ret.
  - intros total H. simpl. apply Qeq_bool_iff in H. rewrite H. reflexivity.
Qed.

Lemma progress_percent_guarded_witness :
  let E := MoreSamples.progress_env
             [(js_of_Z 4096, JFin 0); (js_of_Z 512, js_of_Z 1024)] in
  let record := fun fraction downloaded total : jsnum =>
    modify (fun calls : list (jsnum * jsnum * jsnum) =>
              calls ++ [(fraction, downloaded, total)]) in
  let run := exec E (downloadWithCore (js "https://youtu.be/abc")
                       (js "/d/Song.mp3") (js "/d/Song.mp3.part") record [])
               (Samples.world []) in
  run.1.2 = [(JFin 0, js_of_Z 4096, JFin 0);
             (js_div (js_of_Z 512) (js_of_Z 1024), js_of_Z 512, js_of_Z 1024)]
  /\ exists new,
       run.1.2 = [] ++ new
       /\ Forall2 guarded_call
            [(js_of_Z 4096, JFin 0); (js_of_Z 512, js_of_Z 1024)] new.
Proof.
  intros E record run. split; [vm_compute; reflexivity | ].
  apply (proj1 (progress_percent_guarded E (js "https://youtu.be/abc")
                  (js "/d/Song.mp3") (js "/d/Song.mp3.part") [] (Samples.world []))).
Defined.

(** ** The trace of operations *)

Lemma handle_trace (E : Env) (op : Op) (w : World) :
  trace (handle E op w).2 = trace w.
Proof.
  destruct op; simpl; unfold fs_result; repeat case_match; reflexivity.
Qed.

Lemma count_ops_record (kind : Op -> bool) (op : Op) (w : World) :
  count_ops kind (record_op op w)
  = (count_ops kind w + if kind op then 1 else 0)%nat.
Proof.
  unfold count_ops, record_op. simpl.
  rewrite filter_app, length_app. f_equal.
  rewrite filter_cons, filter_nil.
  case_decide as Hk; destruct (kind op); try discriminate; try congruence;
    reflexivity.
Qed.


Lemma count_ops_handle (E : Env) (kind : Op -> bool) (op : Op) (w : World) :
  count_ops kind (handle E op w).2 = count_ops kind w.
Proof. unfold count_ops. rewrite handle_trace. reflexivity. Qed.

Lemma count_ops_perform (E : Env) (kind : Op -> bool) (op : Op) (w : World) :
  count_ops kind (record_op op (handle E op w).2)
  = (count_ops kind w + if kind op then 1 else 0)%nat.
Proof. rewrite count_ops_record, count_ops_handle. reflexivity. Qed.


Lemma quiet_ret {L} (E : Env) : quiet (L := L) E (ret tt).
Proof. intros l w. exists l, w. repeat split. Qed.

Lemma runTask_onProgress_quiet (E : Env) (title : list N) (p d t : jsnum) :
  quiet E (runTask_onProgress title p d t).
Proof.
  intros l w. unfold runTask_onProgress.
  rewrite exec_bind, exec_get. cbv beta iota.
  destruct (bar l) as [b | ].
  - exec_await. eexists _, _. split; [reflexivity | ].
    rewrite !count_ops_perform. simpl. repeat split; lia.
  - rewrite exec_ret. exists l, w. repeat split.
Qed.

Lemma for_each_quiet {L X} (E : Env) (xs : list X) (body : X -> Js L unit) :
  (forall x, quiet E (body x)) -> quiet E (for_each xs body).
Proof.
  intros Hq. induction xs as [|x xs IH]; simpl; [apply quiet_ret | ].
  intros l w. rewrite exec_bind.
  destruct (Hq x l w) as (l1 & w1 & -> & Hp1 & Hf1 & Hfs1 & Hd1).
  destruct (IH l1 w1) as (l2 & w2 & -> & Hp2 & Hf2 & Hfs2 & Hd2).
  exists l2, w2. repeat split; congruence.
Qed.

(** ** The primary fetch *)

Lemma downloadWithCore_exec {L} (E : Env) (url targetPath tempPath : list N)
  (onProgress : jsnum -> jsnum -> jsnum -> Js L unit) (l : L) (w : World) :
  (forall p d t, quiet E (onProgress p d t)) ->
  exists r l' w',
    exec E (downloadWithCore url targetPath tempPath onProgress l) w
      = ((r, l'), w')
    /\ count_ops is_primary_fetch w' = S (count_ops is_primary_fetch w)
    /\ count_ops is_fallback_fetch w' = count_ops is_fallback_fetch w
    /\ match core_end (core_script E url) with
       | StreamError e | EncodeError e =>
           r = Err e
           /\ files w' = <[tempPath := PartialAudio]> (files w)
           /\ detached w' = detached w ++ [tempPath]
       | EncodeEnd =>
           detached w' = detached w
           /\ match fs_fault E (Move tempPath targetPath) with
              | Some e =>
                  r = Err e
                  /\ files w' = <[tempPath := Audio url]> (files w)
              | None =>
                  r = Ok targetPath
                  /\ files w' = <[targetPath := Audio url]>
                                  (delete tempPath
                                     (<[tempPath := Audio url]> (files w)))
              end
       end.
Proof.
  intros Hq. unfold downloadWithCore.
  rewrite exec_bind. exec_await.
  set (w0 := record_op (RunCore url tempPath)
               (handle E (RunCore url tempPath) w).2).
  assert (Hw0p : count_ops is_primary_fetch w0
                 = S (count_ops is_primary_fetch w)).
  { unfold w0. rewrite count_ops_perform. simpl. lia. }
  assert (Hw0f : count_ops is_fallback_fetch w0
                 = count_ops is_fallback_fetch w).
  { unfold w0. rewrite count_ops_perform. simpl. lia. }
  change ((handle E (RunCore url tempPath) w).1) with (core_script E url).
  rewrite exec_bind.
  destruct (for_each_quiet E (core_progress (core_script E url))
              (fun '(downloaded, total) =>
                 onProgress (progress_percent downloaded total) downloaded total))
    with (l := l) (w := w0) as (l1 & w1 & Hex & Hp1 & Hf1 & Hfs1 & Hd1).
  { intros [d t]. apply Hq. }
  rewrite Hex.
  assert (Hfs0 : files w0 = <[tempPath :=
             match core_end (core_script E url) with
             | EncodeEnd => Audio url
             | _ => PartialAudio
             end]> (files w)) by reflexivity.
  assert (Hd0 : detached w0 = detached w) by reflexivity.
  destruct (core_end (core_script E url)) as [e | e | ].
  - rewrite exec_bind. exec_await. rewrite exec_throw.
    eexists _, _, _. split; [reflexivity | ].
    rewrite !count_ops_perform. simpl.
    repeat split; try lia; congruence.
  - rewrite exec_bind. exec_await. rewrite exec_throw.
    eexists _, _, _. split; [reflexivity | ].
    rewrite !count_ops_perform. simpl.
    repeat split; try lia; congruence.
  - rewrite exec_try_catch, exec_bind, exec_settle. exec_await.
    assert (Hlk : files w1 !! tempPath = Some (Audio url)).
    { rewrite Hfs1, Hfs0. apply lookup_insert_eq. }
    simpl handle. rewrite Hlk. unfold fs_result.
    destruct (fs_fault E (Move tempPath targetPath)) as [e | ]; simpl.
    + eexists _, _, _. split; [reflexivity | ].
      rewrite !count_ops_record. simpl.
      repeat split; try lia; congruence.
    + eexists _, _, _. split; [reflexivity | ].
      rewrite !count_ops_record. simpl.
      repeat split; try lia; try congruence.
      unfold count_ops in *. simpl. lia.
      unfold count_ops in *. simpl. lia.
Qed.


Lemma foldl_delete_absent (ds : list (list N)) (fs : gmap (list N) Node)
  (p : list N) :
  fs !! p = None -> foldl (fun fs path => delete path fs) fs ds !! p = None.
Proof.
  revert fs. induction ds as [|d ds IH]; intros fs Hp; simpl; [exact Hp | ].
  apply IH. rewrite lookup_delete. case_decide; [reflexivity | exact Hp].
Qed.

Lemma foldl_delete_lookup (ds : list (list N)) (fs : gmap (list N) Node)
  (p : list N) :
  p ∈ ds -> foldl (fun fs path => delete path fs) fs ds !! p = None.
Proof.
  revert fs. induction ds as [|d ds IH]; intros fs Hp; simpl.
  - inversion Hp.
  - apply elem_of_cons in Hp as [-> | Hp]; [ | apply IH, Hp].
    apply foldl_delete_absent, lookup_delete_eq.
Qed.

Lemma drain_removes (w : World) (p : list N) :
  p ∈ detached w -> files (drain w) !! p = None.
Proof. apply foldl_delete_lookup. Qed.

Lemma part_suffix_differs (targetPath : list N) :
  targetPath ++ js ".part" <> targetPath.
Proof.
  intros H. apply (f_equal length) in H. rewrite length_app in H.
  simpl in H. lia.
Qed.

(** C9, as the code has it.  The encoder writes to the target path
    suffixed with .part, and the primary fetch moves that file to the
    target path only when the encode ends and the move succeeds.  On a
    stream or encode error the removal of the temporary file is requested
    and not awaited before the error propagates: the file is gone once
    the detached removals have run.  Whenever the primary fetch fails,
    the target path holds what it held before. *)
Theorem primary_fetch_keeps_final_path {L} (E : Env) (url targetPath : list N)
  (onProgress : jsnum -> jsnum -> jsnum -> Js L unit) (l : L) (w : World) :
  (forall p d t, quiet E (onProgress p d t)) ->
  let tempPath := targetPath ++ js ".part" in
  exists r l' w',
    exec E (downloadWithCore url targetPath tempPath onProgress l) w
      = ((r, l'), w')
    /\ match core_end (core_script E url) with
       | StreamError e | EncodeError e =>
           r = Err e
           /\ files w' !! targetPath = files w !! targetPath
           /\ last (detached w') = Some tempPath
           /\ files (drain w') !! tempPath = None
       | EncodeEnd =>
           (r = Ok targetPath
            /\ files w' !! targetPath = Some (Audio url)
            /\ files w' !! tempPath = None)
           \/ (exists e, r = Err e
               /\ files w' !! targetPath = files w !! targetPath)
       end.
Proof.
  intros Hq tempPath.
  pose proof (part_suffix_differs targetPath) as Hne. fold tempPath in Hne.
  destruct (downloadWithCore_exec E url targetPath tempPath onProgress l w Hq)
    as (r & l' & w' & Hex & _ & _ & Hend).
  exists r, l', w'. split; [exact Hex | ].
  destruct (core_end (core_script E url)) as [e | e | ].
  - destruct Hend as (-> & Hfs & Hd). repeat split.
    + rewrite Hfs. apply lookup_insert_ne, Hne.
    + rewrite Hd. apply last_snoc.
    + apply drain_removes. rewrite Hd. apply elem_of_app. right. constructor.
  - destruct Hend as (-> & Hfs & Hd). repeat split.
    + rewrite Hfs. apply lookup_insert_ne, Hne.
    + rewrite Hd. apply last_snoc.
    + apply drain_removes. rewrite Hd. apply elem_of_app. right. constructor.
  - destruct Hend as (Hd & Hmove).
    destruct (fs_fault E (Move tempPath targetPath)) as [e | ].
    + right. exists e. destruct Hmove as (-> & Hfs). split; [reflexivity | ].
      rewrite Hfs. apply lookup_insert_ne, Hne.
    + left. destruct Hmove as (-> & Hfs). rewrite Hfs. repeat split.
      * apply lookup_insert_eq.
      * rewrite lookup_insert_ne by congruence. apply lookup_delete_eq.
Qed.

Lemma primary_fetch_keeps_final_path_witness :
  exists r l' w',
    exec (Samples.env None (StreamError Samples.reset) (YtClose (Some 0%Z)))
      (downloadWithCore (js "https://youtu.be/abc") (js "/d/Song.mp3")
         (js "/d/Song.mp3" ++ js ".part") (fun _ _ _ => ret tt) tt)
      (Samples.world []) = ((r, l'), w')
    /\ r = Err Samples.reset
    /\ files w' !! js "/d/Song.mp3" = None
    /\ last (detached w') = Some (js "/d/Song.mp3" ++ js ".part")
    /\ files (drain w') !! (js "/d/Song.mp3" ++ js ".part") = None.
Proof.
  destruct (primary_fetch_keeps_final_path
              (Samples.env None (StreamError Samples.reset) (YtClose (Some 0%Z)))
              (js "https://youtu.be/abc") (js "/d/Song.mp3")
              (fun _ _ _ => ret tt) tt (Samples.world [])
              (fun _ _ _ => quiet_ret _))
    as (r & l' & w' & Hex & Hr & Ht & Hd & Hdr).
  exists r, l', w'. repeat split; assumption.
Defined.

(** C9, as stated, fails: when the stream fails, the error leaves
    [downloadWithCore] while the temporary file is still on disk. *)
Lemma temp_file_outlives_error :
  let E := Samples.env None (StreamError Samples.reset) (YtClose (Some 0%Z)) in
  let targetPath := js "/d/Song.mp3" in
  let tempPath := targetPath ++ js ".part" in
  let run := exec E (downloadWithCore (js "https://youtu.be/abc") targetPath
                       tempPath (fun _ _ _ => ret tt) tt) (Samples.world []) in
  run.1.1 = Err Samples.reset
  /\ files run.2 !! tempPath = Some PartialAudio.
Proof. vm_compute. split; reflexivity. Qed.

(** ** The fallback fetch *)

Lemma handleProgress_exec {L} (E : Env) (events : list jsnum)
  (lastPercent : jsnum) (onProgress : jsnum -> Js L unit) (l : L) (w : World) :
  (forall p, quiet E (onProgress p)) ->
  exists last' l' w',
    exec E (handleProgress events lastPercent onProgress l) w
      = ((Ok last', l'), w')
    /\ count_ops is_primary_fetch w' = count_ops is_primary_fetch w
    /\ count_ops is_fallback_fetch w' = count_ops is_fallback_fetch w.
Proof.
  intros Hq. revert lastPercent l w.
  induction events as [|numeric rest IH]; intros lastPercent l w;
    cbn [handleProgress].
  - eexists _, _, _. repeat split.
  - destruct (js_isNaN numeric); cbn [negb]; [apply IH | ].
    rewrite exec_bind.
    destruct (Hq (js_min (JFin 1) (js_max (JFin 0) (js_div numeric (JFin 100)))) l w)
      as (l1 & w1 & -> & Hp1 & Hf1 & _).
    destruct (IH numeric l1 w1) as (last' & l2 & w2 & Hex & Hp2 & Hf2).
    exists last', l2, w2. repeat split; congruence.
Qed.

Lemma downloadWithYtDlp_exec {L} (E : Env) (url targetPath : list N)
  (onProgress : jsnum -> Js L unit) (l : L) (w : World) :
  (forall p, quiet E (onProgress p)) ->
  exists r l' w',
    exec E (downloadWithYtDlp url targetPath onProgress l) w = ((r, l'), w')
    /\ count_ops is_primary_fetch w' = count_ops is_primary_fetch w
    /\ count_ops is_fallback_fetch w' = S (count_ops is_fallback_fetch w).
Proof.
  intros Hq. unfold downloadWithYtDlp.
  rewrite exec_bind, exec_settle. exec_await.
  change ((handle E GetYtDlp w).1) with (ytdlp_load E).
  change ((handle E GetYtDlp w).2) with w.
  assert (Hp0 : count_ops is_primary_fetch (record_op GetYtDlp w)
                = count_ops is_primary_fetch w).
  { rewrite count_ops_record. simpl. lia. }
  assert (Hf0 : count_ops is_fallback_fetch (record_op GetYtDlp w)
                = S (count_ops is_fallback_fetch w)).
  { rewrite count_ops_record. simpl. lia. }
  destruct (ytdlp_load E) as [[] | e].
  2: { eexists _, _, _. repeat split; eassumption. }
  rewrite exec_bind. exec_await.
  set (w1 := record_op (RunYtDlp url targetPath)
               (handle E (RunYtDlp url targetPath) (record_op GetYtDlp w)).2).
  assert (Hp1 : count_ops is_primary_fetch w1 = count_ops is_primary_fetch w).
  { unfold w1. rewrite count_ops_perform. simpl. lia. }
  assert (Hf1 : count_ops is_fallback_fetch w1
                = S (count_ops is_fallback_fetch w)).
  { unfold w1. rewrite count_ops_perform. simpl. lia. }
  change ((handle E (RunYtDlp url targetPath) (record_op GetYtDlp w)).1)
    with (ytdlp_script E url).
  rewrite exec_bind.
  destruct (handleProgress_exec E (yt_progress (ytdlp_script E url)) (JFin 0)
              onProgress l w1 Hq) as (lastPercent & l2 & w2 & -> & Hp2 & Hf2).
  destruct (yt_end (ytdlp_script E url)) as [e | code].
  { rewrite exec_throw. eexists _, _, _. repeat split; congruence. }
  assert (Hfail : forall msg,
            exists r l' w',
              exec E (throw (A := list N) (ErrorObj msg) l2) w2 = ((r, l'), w')
              /\ count_ops is_primary_fetch w' = count_ops is_primary_fetch w
              /\ count_ops is_fallback_fetch w'
                 = S (count_ops is_fallback_fetch w)).
  { intros msg. rewrite exec_throw. eexists _, _, _. repeat split; congruence. }
  destruct code as [[ | c | c] | ]; try apply Hfail.
  rewrite exec_bind.
  destruct (js_lt lastPercent (JFin 100)).
  - destruct (Hq (JFin 1) l2 w2) as (l3 & w3 & -> & Hp3 & Hf3 & _).
    rewrite exec_ret. eexists _, _, _. repeat split; congruence.
  - rewrite !exec_ret. eexists _, _, _. repeat split; congruence.
Qed.

Lemma downloadToMp3_try_exec {L} (E : Env) (url targetPath tempPath : list N)
  (onProgress : jsnum -> jsnum -> jsnum -> Js L unit) (l : L) (w : World) :
  (forall p d t, quiet E (onProgress p d t)) ->
  exists rc lc wc r l2 w2,
    exec E (downloadWithCore url targetPath tempPath onProgress l) w
      = ((rc, lc), wc)
    /\ exec E (downloadToMp3_try url targetPath tempPath onProgress l) w
       = ((r, l2), w2)
    /\ count_ops is_primary_fetch w2 = S (count_ops is_primary_fetch w)
    /\ match rc with
       | Ok path =>
           r = Ok path /\ l2 = lc /\ w2 = wc
           /\ count_ops is_fallback_fetch w2 = count_ops is_fallback_fetch w
       | Err e =>
           if shouldFallback e
           then count_ops is_fallback_fetch w2
                = S (count_ops is_fallback_fetch w)
           else r = Err (as_Error e) /\ l2 = lc /\ w2 = wc
                /\ count_ops is_fallback_fetch w2
                   = count_ops is_fallback_fetch w
       end.
Proof.
  intros Hq. unfold downloadToMp3_try. rewrite exec_try_catch.
  destruct (downloadWithCore_exec E url targetPath tempPath onProgress l w Hq)
    as (rc & lc & wc & Hex & Hp & Hf & _).
  rewrite Hex. exists rc, lc, wc.
  destruct rc as [path | e].
  { eexists _, _, _. repeat split; assumption. }
  destruct (shouldFallback e) eqn:Hs; cbn [negb].
  - rewrite exec_bind.
    destruct (downloadWithYtDlp_exec E url targetPath
                (fun percent => onProgress percent (JFin 0) (JFin 0)) lc wc)
      as (r2 & l2 & w2 & Hex2 & Hp2 & Hf2).
    { intros p. apply Hq. }
    rewrite Hex2. destruct r2 as [fallbackPath | e2].
    + rewrite exec_bind.
      destruct (Hq (JFin 1) (JFin 0) (JFin 0) l2 w2)
        as (l3 & w3 & Hex3 & Hp3 & Hf3 & _).
      rewrite Hex3, exec_ret. eexists _, _, _.
      split; [reflexivity | ]. split; [reflexivity | ].
      split; congruence.
    + eexists _, _, _.
      split; [reflexivity | ]. split; [reflexivity | ].
      split; congruence.
  - rewrite exec_throw. eexists _, _, _.
    split; [reflexivity | ]. split; [reflexivity | ].
    repeat split; assumption.
Qed.

Example shouldFallback_forbidden :
  shouldFallback (ErrorObj (js "MinigetError: Status code: 403")) = true.
Proof. vm_compute. reflexivity. Qed.

Example shouldFallback_any_case :
  shouldFallback (OtherValue (js "could NOT parse decipher function")) = true.
Proof. vm_compute. reflexivity. Qed.

Example shouldFallback_other :
  shouldFallback (ErrorObj (js "Status code: 404")) = false.
Proof. vm_compute. reflexivity. Qed.

Lemma starts_with_ci_spec (pat s : list N) :
  starts_with_ci pat s = true
  <-> exists mid post, s = mid ++ post /\ map canon mid = map canon pat.
Proof.
  revert s. induction pat as [|p pat IH]; intros s; simpl.
  - split; [ | reflexivity]. intros _. exists [], s. split; reflexivity.
  - destruct s as [|c s].
    + split; [discriminate | ].
      intros (mid & post & Hs & Hmid). destruct mid; discriminate.
    + rewrite andb_true_iff, N.eqb_eq, IH. split.
      * intros (Hc & mid & post & -> & Hmid).
        exists (c :: mid), post. split; [reflexivity | ]. simpl. congruence.
      * intros (mid & post & Hs & Hmid).
        destruct mid as [|m mid]; [discriminate | ].
        simpl in *. injection Hs as -> ->. injection Hmid as Hm Hmid.
        split; [congruence | ]. exists mid, post. auto.
Qed.

Lemma test_ci_spec (pat s : list N) :
  test_ci pat s = true
  <-> exists pre mid post,
        s = pre ++ mid ++ post /\ map canon mid = map canon pat.
Proof.
  induction s as [|c s IH].
  - simpl. rewrite orb_false_r, starts_with_ci_spec. split.
    + intros (mid & post & Hs & Hmid). exists [], mid, post. auto.
    + intros (pre & mid & post & Hs & Hmid).
      destruct pre; [ | discriminate]. exists mid, post. auto.
  - cbn [test_ci]. rewrite orb_true_iff, starts_with_ci_spec, IH. split.
    + intros [(mid & post & Hs & Hmid) | (pre & mid & post & Hs & Hmid)].
      * exists [], mid, post. auto.
      * exists (c :: pre), mid, post. split; [simpl; congruence | exact Hmid].
    + intros (pre & mid & post & Hs & Hmid). destruct pre as [|c' pre].
      * left. exists mid, post. auto.
      * right. simpl in Hs. injection Hs as -> ->. exists pre, mid, post. auto.
Qed.

(** [shouldFallback] accepts an error exactly when its message holds one
    of the three signatures. *)
Lemma shouldFallback_signature (error : thrown) :
  shouldFallback error = true <-> has_signature (error_message error).
Proof.
  unfold shouldFallback, has_signature, fallback_signatures.
  rewrite !orb_true_iff, !test_ci_spec. split.
  - intros [[H | H] | H]; destruct H as (pre & mid & post & Hs & Hmid);
      eexists _, pre, mid, post; (split; [ | split; [exact Hs | exact Hmid]]).
    + apply list_elem_of_here.
    + apply list_elem_of_further, list_elem_of_here.
    + apply list_elem_of_further, list_elem_of_further, list_elem_of_here.
  - intros (signature & pre & mid & post & Hin & Hs & Hmid).
    apply elem_of_cons in Hin as [-> | Hin];
      [left; left; exists pre, mid, post; auto | ].
    apply elem_of_cons in Hin as [-> | Hin];
      [left; right; exists pre, mid, post; auto | ].
    apply elem_of_cons in Hin as [-> | Hin];
      [right; exists pre, mid, post; auto | ].
    inversion Hin.
Qed.

(** C2.  When the primary fetch fails, the [try] statement of
    [downloadToMp3] starts the fallback fetch exactly once if the message
    of the error holds one of the three signatures, which are the texts
    Status code: 403, Could not parse and decipher, at any place and in any
    mix of upper and lower case, and not at all otherwise.  In the latter
    case the error leaves at once, as an [Error] with the same message,
    with the world as the primary fetch left it.  The primary fetch is not
    started a second time.  Over a whole call of [downloadToMp3] each
    strategy is started at most once. *)
Theorem fallback_once_iff_signature {L} (E : Env) (url targetPath tempPath : list N)
  (onProgress : jsnum -> jsnum -> jsnum -> Js L unit)
  (l l1 : L) (w w1 : World) (e : thrown) :
  (forall p d t, quiet E (onProgress p d t)) ->
  exec E (downloadWithCore url targetPath tempPath onProgress l) w
    = ((Err e, l1), w1) ->
  (exists r l2 w2,
     exec E (downloadToMp3_try url targetPath tempPath onProgress l) w
       = ((r, l2), w2)
     /\ count_ops is_primary_fetch w2 = S (count_ops is_primary_fetch w)
     /\ (count_ops is_fallback_fetch w2 = S (count_ops is_fallback_fetch w)
         <-> has_signature (error_message e))
     /\ (count_ops is_fallback_fetch w2 = count_ops is_fallback_fetch w
         <-> ~ has_signature (error_message e))
     /\ (~ has_signature (error_message e) ->
         r = Err (as_Error e) /\ l2 = l1 /\ w2 = w1
         /\ error_message (as_Error e) = error_message e))
  /\ (forall (title outputDir : list N) l0 w0,
        let w' := (exec E (downloadToMp3 E
                     {| url := url; title := title; outputDir := outputDir;
                        onProgress := onProgress |} l0) w0).2 in
        (count_ops is_fallback_fetch w' <= count_ops is_fallback_fetch w0 + 1)%nat
        /\ (count_ops is_primary_fetch w' <= count_ops is_primary_fetch w0 + 1)%nat).
Proof.
  intros Hq Hcore.
  split.
  - destruct (downloadToMp3_try_exec E url targetPath tempPath onProgress l w Hq)
      as (rc & lc & wc & r & l2 & w2 & Hexc & Hex & Hp & Hcase).
    rewrite Hcore in Hexc. injection Hexc as <- <- <-.
    exists r, l2, w2. split; [exact Hex | ]. split; [exact Hp | ].
    pose proof (shouldFallback_signature e) as Hsig.
    destruct (shouldFallback e).
    + assert (Hyes : has_signature (error_message e)) by (apply Hsig; reflexivity).
      split; [split; [intros _; exact Hyes | intros _; lia] | ].
      split; [split; [lia | intros Hno; contradiction] | ].
      intros Hno. contradiction.
    + assert (Hno : ~ has_signature (error_message e)).
      { intros Hyes. apply Hsig in Hyes. discriminate. }
      destruct Hcase as (-> & -> & -> & Hf).
      split; [split; [lia | intros Hyes; contradiction] | ].
      split; [split; [intros _; exact Hno | intros _; lia] | ].
      intros _. repeat split. destruct e; reflexivity.
  - intros title outputDir l0 w0. unfold downloadToMp3.
    cbn [Download.url Download.title Download.outputDir Download.onProgress].
    destruct (validateURL E url); cbn [negb]; [ | rewrite exec_throw; simpl; lia].
    rewrite exec_bind, exec_settle. exec_await.
    set (wd := record_op (EnsureDir outputDir) (handle E (EnsureDir outputDir) w0).2).
    assert (Hwd : count_ops is_fallback_fetch wd = count_ops is_fallback_fetch w0
                  /\ count_ops is_primary_fetch wd = count_ops is_primary_fetch w0).
    { unfold wd. rewrite !count_ops_perform. simpl. lia. }
    destruct ((handle E (EnsureDir outputDir) w0).1) as [[] | e0];
      cbv beta iota; [ | simpl; lia].
    rewrite exec_bind.
    assert (Hsb : exists safeBase ws,
              exec E (downloadToMp3_safeBase title l0) wd = ((Ok safeBase, l0), ws)
              /\ count_ops is_fallback_fetch ws = count_ops is_fallback_fetch wd
              /\ count_ops is_primary_fetch ws = count_ops is_primary_fetch wd).
    { unfold downloadToMp3_safeBase. rewrite exec_bind.
      destruct title as [|c t].
      - unfold timestamp_name at 1. rewrite exec_bind. exec_await.
        rewrite exec_ret.
        destruct (sanitizeFileName _).
        + unfold timestamp_name. rewrite exec_bind. exec_await. rewrite exec_ret.
          eexists _, _. split; [reflexivity | ].
          rewrite !count_ops_perform. simpl. lia.
        + rewrite exec_ret. eexists _, _. split; [reflexivity | ].
          rewrite !count_ops_perform. simpl. lia.
      - rewrite exec_ret. destruct (sanitizeFileName _).
        + unfold timestamp_name. rewrite exec_bind. exec_await. rewrite exec_ret.
          eexists _, _. split; [reflexivity | ].
          rewrite !count_ops_perform. simpl. lia.
        + rewrite exec_ret. eexists _, _. split; [reflexivity | lia]. }
    destruct Hsb as (safeBase & ws & -> & Hfs & Hps).
    rewrite exec_bind, exec_settle. exec_await.
    set (target := path_resolve E outputDir (safeBase ++ js ".mp3")).
    set (wr := record_op (Remove (target ++ js ".part"))
                 (handle E (Remove (target ++ js ".part")) ws).2).
    assert (Hwr : count_ops is_fallback_fetch wr = count_ops is_fallback_fetch ws
                  /\ count_ops is_primary_fetch wr = count_ops is_primary_fetch ws).
    { unfold wr. rewrite !count_ops_perform. simpl. lia. }
    destruct ((handle E (Remove (target ++ js ".part")) ws).1) as [[] | e0];
      cbv beta iota; [ | simpl; lia].
    destruct (downloadToMp3_try_exec E url target (target ++ js ".part")
                onProgress l0 wr Hq)
      as (rc & lc & wc & r & l2 & w2 & _ & -> & Hp & Hcase).
    simpl. split; [ | lia].
    destruct rc as [path | e']; [destruct Hcase as (_ & _ & _ & Hf); lia | ].
    destruct (shouldFallback e'); [lia | ].
    destruct Hcase as (_ & _ & _ & Hf). lia.
Qed.

Lemma fallback_once_iff_signature_witness :
  let url := js "https://youtu.be/abc" in
  let targetPath := js "/d/Song.mp3" in
  let tempPath := js "/d/Song.mp3.part" in
  let onProgress := fun _ _ _ : jsnum => ret (L := unit) tt in
  let run := fun core : CoreEnd =>
    exec (Samples.env None core (YtClose (Some 0%Z)))
      (downloadToMp3_try url targetPath tempPath onProgress tt)
      (Samples.world []) in
  (has_signature (error_message Samples.blocked)
   /\ count_ops is_fallback_fetch (run (StreamError Samples.blocked)).2 = 1%nat
   /\ count_ops is_primary_fetch (run (StreamError Samples.blocked)).2 = 1%nat)
  /\ (~ has_signature (error_message Samples.reset)
      /\ count_ops is_fallback_fetch (run (StreamError Samples.reset)).2 = 0%nat
      /\ (run (StreamError Samples.reset)).1.1 = Err Samples.reset).
Proof.
  intros url targetPath tempPath onProgress run.
  assert (Hcore : forall e,
    exec (Samples.env None (StreamError e) (YtClose (Some 0%Z)))
      (downloadWithCore url targetPath tempPath onProgress tt) (Samples.world [])
    = ((Err e, tt),
       (exec (Samples.env None (StreamError e) (YtClose (Some 0%Z)))
          (downloadWithCore url targetPath tempPath onProgress tt)
          (Samples.world [])).2)).
  { intros e. reflexivity. }
  assert (Hyes : has_signature (error_message Samples.blocked)).
  { apply shouldFallback_signature. vm_compute. reflexivity. }
  assert (Hno : ~ has_signature (error_message Samples.reset)).
  { intros H. apply shouldFallback_signature in H. vm_compute in H.
    discriminate. }
  split.
  - destruct (fallback_once_iff_signature
                (Samples.env None (StreamError Samples.blocked) (YtClose (Some 0%Z)))
                url targetPath tempPath onProgress
                tt tt (Samples.world []) _ Samples.blocked
                (fun _ _ _ => quiet_ret _) (Hcore Samples.blocked))
      as [(r & l2 & w2 & Hex & Hp & Hf & _) _].
    split; [exact Hyes | ]. unfold run. rewrite Hex. cbn [snd].
    split; [apply Hf, Hyes | exact Hp].
  - destruct (fallback_once_iff_signature
                (Samples.env None (StreamError Samples.reset) (YtClose (Some 0%Z)))
                url targetPath tempPath onProgress
                tt tt (Samples.world []) _ Samples.reset
                (fun _ _ _ => quiet_ret _) (Hcore Samples.reset))
      as [(r & l2 & w2 & Hex & _ & _ & Hf & Hr) _].
    split; [exact Hno | ]. unfold run. rewrite Hex. cbn [fst snd].
    split; [apply Hf, Hno | apply (Hr Hno)].
Defined.

(** ** The task runner *)

(** Step through a program whose next operations are known. *)
Ltac exec_simp :=
  repeat (first
    [ progress (rewrite ?exec_bind, ?exec_ret, ?exec_throw, ?exec_get,
                  ?exec_modify, ?exec_settle, ?exec_try_catch,
                  ?exec_try_finally)
    | exec_await
    | progress (cbv beta iota) ]).


Lemma runTask_fetch_skips (E : Env) (task : SongTask.t) (l : Locals) (w : World) :
  is_Some (files w !! outputPath E task (displayTitle l)) ->
  exec E (runTask_fetch E task l) w
  = ((Ok (TaskResult.mk (SongTask.id task) (SongTask.query task) (videoUrl l)
            skipped (Some (js "Already downloaded"))
            (Some (outputPath E task (displayTitle l)))), l),
     record_op (PathExists (outputPath E task (displayTitle l))) w).
Proof.
  intros Hex. unfold runTask_fetch, isAlreadyDownloaded.
  rewrite exec_bind, exec_get. cbv beta iota zeta.
  rewrite exec_bind. exec_await.
  cbn [handle fst snd]. rewrite bool_decide_eq_true_2 by exact Hex.
  reflexivity.
Qed.

(** C1, as the code has it.  When the resolution of a task gives a media
    URL and a display title, and the output path computed from that title
    already holds a file, [runTask] settles with the status skipped, the
    reason Already downloaded (with a capital A), the resolved URL and that
    path as [filePath]; neither fetch strategy is started and the files
    are left as they were.  Resolution does not touch the files, so the
    path exists at the time of the check when it exists at the start. *)
Theorem existing_output_is_skipped (E : Env) (task : SongTask.t)
  (videoUrl displayTitle : list N) (w : World) :
  Resolved E task videoUrl displayTitle ->
  is_Some (files w !! outputPath E task displayTitle) ->
  exists l w',
    exec E (runTask E task) w
    = ((Ok (TaskResult.mk (SongTask.id task) (SongTask.query task) videoUrl
              skipped (Some (js "Already downloaded"))
              (Some (outputPath E task displayTitle))), l), w')
    /\ count_ops is_primary_fetch w' = count_ops is_primary_fetch w
    /\ count_ops is_fallback_fetch w' = count_ops is_fallback_fetch w
    /\ files w' = files w.
Proof.
  intros Hres Hex. unfold runTask.
  rewrite exec_try_finally, exec_try_catch.
  destruct Hres as [first others Hmode Hsearch | u c t Hmode Hu Hne Htitle
                   | u info Hmode Hu Hne Htitle Hinfo].
  - unfold runTask_try. rewrite Hmode. unfold findFirstVideo.
    exec_simp. cbn [handle fst snd]. rewrite Hsearch.
    unfold set_videoUrl, set_displayTitle. exec_simp.
    rewrite runTask_fetch_skips by exact Hex.
    unfold runTask_finally. exec_simp. cbn [bar]. exec_simp.
    eexists _, _. split; [reflexivity | ].
    rewrite !count_ops_record. simpl. repeat split; lia.
  - assert (Htry : exec E (runTask_try E task (runTask_locals task)) w
                   = exec E (runTask_fetch E task
                       {| bar := None; displayTitle := c :: t; videoUrl := u |}) w).
    { unfold runTask_try, runTask_locals, set_videoUrl.
      rewrite Htitle, <- Hu. cbn [default].
      destruct u as [|c0 u']; [congruence | ].
      destruct (SongTask.mode task); [congruence | | ]; exec_simp;
        cbn [videoUrl truthy bar displayTitle]; exec_simp; reflexivity. }
    rewrite Htry, runTask_fetch_skips by exact Hex.
    unfold runTask_finally. exec_simp. cbn [bar]. exec_simp.
    eexists _, _. split; [reflexivity | ].
    rewrite !count_ops_record. simpl. repeat split; lia.
  - assert (Htry : exec E (runTask_try E task (runTask_locals task)) w
                   = exec E (runTask_fetch E task
                       {| bar := None;
                          displayTitle := default (SongTask.query task) info;
                          videoUrl := u |})
                       (record_op (GetBasicInfo u) w)).
    { unfold runTask_try, runTask_locals, set_videoUrl, set_displayTitle.
      rewrite Htitle, <- Hu.
      destruct u as [|c0 u']; [congruence | ].
      destruct (SongTask.mode task); [congruence | | ]; exec_simp;
        cbn [videoUrl bar displayTitle]; exec_simp;
        cbn [handle fst snd videoUrl bar displayTitle]; rewrite Hinfo;
        exec_simp; reflexivity. }
    rewrite Htry, runTask_fetch_skips by exact Hex.
    unfold runTask_finally. exec_simp. cbn [bar]. exec_simp.
    eexists _, _. split; [reflexivity | ].
    rewrite !count_ops_record. simpl. repeat split; lia.
Qed.

Lemma existing_output_is_skipped_witness :
  let E := Samples.env (Some [Samples.hit]) EncodeEnd (YtClose (Some 0%Z)) in
  let task := Samples.search_task 1 "some song" in
  let w := Samples.world [js "/home/user/downloads/Some Song.mp3"] in
  exists l w',
    exec E (runTask E task) w
    = ((Ok (TaskResult.mk 1 (js "some song") (js "https://youtu.be/abc")
              skipped (Some (js "Already downloaded"))
              (Some (js "/home/user/downloads/Some Song.mp3"))), l), w')
    /\ count_ops is_primary_fetch w' = 0%nat
    /\ count_ops is_fallback_fetch w' = 0%nat.
Proof.
  intros E task w.
  destruct (existing_output_is_skipped E task (js "https://youtu.be/abc")
              (js "Some Song") w) as (l & w' & Hex & Hp & Hf & _).
  - apply (resolved_search E task Samples.hit []); reflexivity.
  - exists (Audio (js "earlier")). vm_compute. reflexivity.
  - exists l, w'. split; [exact Hex | ]. split; [exact Hp | exact Hf].
Defined.

(** C1, as stated, fails on the text of the reason: a task whose output
    exists is skipped with the reason written with a capital A. *)
Lemma skipped_reason_is_capitalised :
  let E := Samples.env (Some [Samples.hit]) EncodeEnd (YtClose (Some 0%Z)) in
  let task := Samples.search_task 1 "some song" in
  let w := Samples.world [js "/home/user/downloads/Some Song.mp3"] in
  exists r,
    (exec E (runTask E task) w).1.1 = Ok r
    /\ is_Some (files w !! outputPath E task (js "Some Song"))
    /\ TaskResult.status r = skipped
    /\ TaskResult.reason r = Some (js "Already downloaded")
    /\ TaskResult.reason r <> Some (js "already downloaded").
Proof.
  vm_compute. eexists. split; [reflexivity | ].
  split; [eexists; reflexivity | ].
  split; [reflexivity | ]. split; [reflexivity | discriminate].
Qed.




(** ** The leaves of a program *)


Lemma leaves_pbind {A B} (P : B -> Prop) (p : Prog A) (f : A -> Prog B) :
  leaves (fun a => leaves P (f a)) p -> leaves P (pbind p f).
Proof. induction p as [a | op k IH]; simpl; auto. Qed.

Lemma leaves_any {A} (p : Prog A) : leaves (fun _ => True) p.
Proof. induction p as [a | op k IH]; simpl; auto. Qed.

Lemma leaves_mono {A} (P Q : A -> Prop) (p : Prog A) :
  (forall a, P a -> Q a) -> leaves P p -> leaves Q p.
Proof. intros HPQ. induction p as [a | op k IH]; simpl; auto. Qed.


Lemma leaves_bind_tolerant {L A B} (P : outcome B * L -> Prop)
  (m : Js L A) (f : A -> Js L B) (l : L) :
  (forall e l', P (Err e, l')) ->
  (forall a l', leaves P (f a l')) ->
  leaves P (bind m f l).
Proof.
  intros Herr Hf. unfold bind. apply leaves_pbind.
  eapply leaves_mono; [ | apply leaves_any].
  intros [[a | e] l'] _; simpl; auto.
Qed.

Lemma runTask_fetch_keeps_id (E : Env) (task : SongTask.t) (l : Locals) :
  leaves (keeps_id task) (runTask_fetch E task l).
Proof.
  unfold runTask_fetch.
  apply leaves_bind_tolerant; [intros; exact I | ]. intros l0 l1.
  apply leaves_bind_tolerant; [intros; exact I | ]. intros [ | ] l2.
  - reflexivity.
  - repeat (apply leaves_bind_tolerant; [intros; exact I | ]; intros ? ?).
    reflexivity.
Qed.

Lemma runTask_try_keeps_id (E : Env) (task : SongTask.t) (l : Locals) :
  leaves (keeps_id task) (runTask_try E task l).
Proof.
  assert (Hdirect : forall l,
    leaves (keeps_id task)
      ((set_videoUrl (default (SongTask.query task) (SongTask.url task)) ;;
        l <- get ;;
        match videoUrl l with
        | [] => throw (ErrorObj (js "Missing video URL"))
        | _ =>
            (if truthy (SongTask.displayTitle task) then ret tt
             else
               info <- settle (await (GetBasicInfo (videoUrl l))) ;;
               set_displayTitle (default (SongTask.query task) info)) ;;
            runTask_fetch E task
        end)%js l)).
  { intros l0.
    apply leaves_bind_tolerant; [intros; exact I | ]. intros _ l1.
    apply leaves_bind_tolerant; [intros; exact I | ]. intros l2 l3.
    destruct (videoUrl l2) as [|c u]; [exact I | ].
    apply leaves_bind_tolerant; [intros; exact I | ]. intros _ l4.
    apply runTask_fetch_keeps_id. }
  unfold runTask_try. destruct (SongTask.mode task); try apply Hdirect.
  apply leaves_bind_tolerant; [intros; exact I | ]. intros [v | ] l1.
  - apply leaves_bind_tolerant; [intros; exact I | ]. intros _ l2.
    apply leaves_bind_tolerant; [intros; exact I | ]. intros _ l3.
    apply runTask_fetch_keeps_id.
  - apply leaves_bind_tolerant; [intros; exact I | ]. intros _ l2.
    reflexivity.
Qed.

Lemma answers_pbind {A B} (E : Env) (P : B -> Prop) (p : Prog A)
  (f : A -> Prog B) :
  answers E (fun a => answers E P (f a)) p -> answers E P (pbind p f).
Proof. induction p as [a | op k IH]; simpl; auto. Qed.

Lemma leaves_answers {A} (E : Env) (P : A -> Prop) (p : Prog A) :
  leaves P p -> answers E P p.
Proof. induction p as [a | op k IH]; simpl; auto. Qed.

(** The [finally] block of [runTask] keeps the outcome of what it
    follows. *)
Lemma runTask_finally_answers (E : Env) (P : outcome TaskResult.t -> Prop)
  (r : outcome TaskResult.t) (l : Locals) :
  P r ->
  answers E (fun o => P o.1)
    (pbind (runTask_finally l) (fun '(rf, l'') =>
       match rf with
       | Ok _ => Ret (r, l'')
       | Err e => Ret (Err e, l'')
       end)).
Proof.
  intros Hr. unfold runTask_finally, bind, get. simpl.
  destruct (bar l); simpl; intros; exact Hr.
Qed.

(** [runTask] is rejected only when a write to the failure log is, and a
    result it settles with has every property that the results of the
    [try] block and the failed results of the [catch] block have. *)
Lemma runTask_settles (E : Env) (Q : TaskResult.t -> Prop) (task : SongTask.t) :
  (forall l,
     leaves (fun o => match o.1 with Ok r => Q r | Err _ => True end)
       (runTask_try E task l)) ->
  (forall url message,
     Q (TaskResult.mk (SongTask.id task) (SongTask.query task) url
          failed (Some message) None)) ->
  answers E (fun o => settles_as E Q o.1) (runTask E task).
Proof.
  intros Htry Hfailed. unfold runTask, try_finally, try_catch.
  apply answers_pbind, answers_pbind, leaves_answers.
  eapply leaves_mono; [ | apply Htry].
  intros [[res | e] l] HQ; simpl in HQ.
  - simpl. apply (runTask_finally_answers E (settles_as E Q)). exact HQ.
  - unfold runTask_catch.
    set (message := SongTask.query task ++ js " :: " ++ error_message e).
    unfold logFailure, settle, bind, await, get, ret, throw.
    cbn [pbind answers]. intros w. unfold perform. cbn [handle fst snd].
    unfold fs_result.
    destruct (fs_fault E (AppendErrorsLog message)) as [e' | ] eqn:Hlog;
      cbn [fst snd pbind answers].
    + apply (runTask_finally_answers E (settles_as E Q)).
      exists message. exact Hlog.
    + apply (runTask_finally_answers E (settles_as E Q)). apply Hfailed.
Qed.

Lemma runTask_settles_with_id (E : Env) (task : SongTask.t) :
  answers E (fun o => settles_as E (same_id task) o.1) (runTask E task).
Proof.
  apply runTask_settles; [ | reflexivity].
  intros l. apply runTask_try_keeps_id.
Qed.

(** ** The dispatch *)

Section Dispatch.
Context (E : Env) (Q : SongTask.t -> TaskResult.t -> Prop).
Hypothesis runTask_Q :
  forall task, answers E (fun o => settles_as E (Q task) o.1) (runTask E task).


Lemma count_slots_insert (f : Slot -> bool) (ss : list Slot) (i : nat)
  (old new : Slot) :
  ss !! i = Some old ->
  (count_slots f (<[i := new]> ss) + (if f old then 1 else 0)
   = count_slots f ss + (if f new then 1 else 0))%nat.
Proof.
  unfold count_slots. revert i.
  induction ss as [|s ss IH]; intros [|i] Hi; simpl in *; try discriminate.
  - injection Hi as ->. rewrite !filter_cons.
    destruct (f old), (f new); repeat case_decide; simpl;
      congruence || lia.
  - specialize (IH i Hi). rewrite !filter_cons.
    case_decide; simpl; lia.
Qed.

Lemma count_slots_le (f g : Slot -> bool) (ss : list Slot) :
  (forall s, f s = true -> g s = true) ->
  (count_slots f ss <= count_slots g ss)%nat.
Proof.
  intros Hfg. unfold count_slots.
  induction ss as [|s ss IH]; simpl; [lia | ].
  rewrite !filter_cons. specialize (Hfg s).
  repeat case_decide; simpl; try lia. tauto.
Qed.

Lemma is_fetching_running (s : Slot) : is_fetching s = true -> is_running s = true.
Proof. destruct s as [t | p | r]; simpl; [discriminate | reflexivity | discriminate]. Qed.

Lemma count_slots_queued (f : Slot -> bool) (tasks : list SongTask.t) :
  (forall t, f (Queued t) = false) -> count_slots f (map Queued tasks) = 0%nat.
Proof.
  intros Hf. unfold count_slots. induction tasks as [|t ts IH]; simpl.
  - reflexivity.
  - rewrite filter_cons. rewrite decide_False; [exact IH | ].
    rewrite Hf. discriminate.
Qed.


Lemma slots_insert_ok (tasks : list SongTask.t) (ss : list Slot) (i : nat)
  (task : SongTask.t) (new : Slot) :
  Forall2 (slot_ok E Q) tasks ss ->
  tasks !! i = Some task -> slot_ok E Q task new ->
  Forall2 (slot_ok E Q) tasks (<[i := new]> ss).
Proof.
  intros Hall Hi Hnew.
  rewrite <- (list_insert_id tasks i task Hi).
  apply Forall2_insert; assumption.
Qed.

Lemma slot_task (tasks : list SongTask.t) (ss : list Slot) (i : nat) (s : Slot) :
  Forall2 (slot_ok E Q) tasks ss -> ss !! i = Some s ->
  exists task, tasks !! i = Some task /\ slot_ok E Q task s.
Proof.
  intros Hall Hi.
  destruct (Forall2_lookup_r _ _ _ _ _ Hall Hi) as (task & Ht & Hok).
  exists task. auto.
Qed.

Lemma start_ok (concurrency : nat) (tasks : list SongTask.t) (w : World) :
  session_ok E Q concurrency tasks (start tasks w).
Proof.
  split; simpl.
  - induction tasks; constructor; [reflexivity | assumption].
  - unfold activeCount. simpl. rewrite count_slots_queued; [lia | reflexivity].
Qed.

Lemma step_ok (concurrency : nat) (tasks : list SongTask.t) (s s' : Session) :
  session_ok E Q concurrency tasks s -> step E concurrency s s' ->
  session_ok E Q concurrency tasks s'.
Proof.
  intros [Hall Hact] Hstep. unfold session_ok, activeCount in *.
  destruct Hstep as [s i task Hi Hfifo Hfree | s i op k Hi | s i r l Hi
                    | s before path after Hd]; simpl.
  - destruct (slot_task _ _ _ _ Hall Hi) as (t & Ht & Hok). simpl in Hok.
    subst t. split.
    + eapply slots_insert_ok; eauto. simpl. apply runTask_Q.
    + pose proof (count_slots_insert is_running _ _ _
                    (Running (runTask E task)) Hi) as Hc.
      simpl in Hc. unfold activeCount in Hfree. lia.
  - destruct (slot_task _ _ _ _ Hall Hi) as (t & Ht & Hok). simpl in Hok.
    split.
    + eapply slots_insert_ok; eauto. simpl. apply Hok.
    + pose proof (count_slots_insert is_running _ _ _
                    (Running (k (perform E op (world s)).1)) Hi) as Hc.
      simpl in Hc. lia.
  - destruct (slot_task _ _ _ _ Hall Hi) as (t & Ht & Hok). simpl in Hok.
    split.
    + eapply slots_insert_ok; eauto.
    + pose proof (count_slots_insert is_running _ _ _ (Settled r) Hi) as Hc.
      simpl in Hc. lia.
  - split; assumption.
Qed.

Lemma reachable_ok (concurrency : nat) (tasks : list SongTask.t)
  (w : World) (s : Session) :
  rtc (step E concurrency) (start tasks w) s ->
  session_ok E Q concurrency tasks s.
Proof.
  intros Hrun. pose proof (start_ok concurrency tasks w) as Hstart.
  induction Hrun as [s | s s' s'' Hstep Hrun IH]; [exact Hstart | ].
  apply IH. eapply step_ok; eassumption.
Qed.
End Dispatch.

(** C4.  In every state a session can reach, the tasks that wait for one
    of their fetch strategies are among the active tasks, and at most
    [concurrency] tasks are active; a step that makes one more task active
    starts from a state with fewer than [concurrency] active tasks. *)
Theorem active_fetches_bounded (E : Env) (concurrency : nat)
  (tasks : list SongTask.t) (w : World) (s : Session) :
  rtc (step E concurrency) (start tasks w) s ->
  (fetchingCount s <= activeCount s)%nat
  /\ (activeCount s <= concurrency)%nat
  /\ (forall s', step E concurrency s s' ->
        (activeCount s < activeCount s')%nat ->
        (activeCount s < concurrency)%nat).
Proof.
  intros Hrun. split; [ | split].
  - apply count_slots_le, is_fetching_running.
  - apply (reachable_ok E same_id (runTask_settles_with_id E)
             concurrency tasks w s Hrun).
  - intros s' Hstep Hmore. unfold activeCount in *.
    destruct Hstep as [s i task Hi Hfifo Hfree | s i op k Hi | s i r l Hi
                      | s before path after Hd]; simpl in Hmore.
    + exact Hfree.
    + pose proof (count_slots_insert is_running _ _ _
                    (Running (k (perform E op (world s)).1)) Hi) as Hc.
      simpl in Hc. lia.
    + pose proof (count_slots_insert is_running _ _ _ (Settled r) Hi) as Hc.
      simpl in Hc. lia.
    + lia.
Qed.

(** ** Every session ends *)







(** ** A session that cannot step has settled every task *)


Lemma first_queued (ss : list Slot) :
  Forall (fun s => is_running s = false) ss ->
  Forall (fun s => is_settled s = true) ss
  \/ exists i task,
       ss !! i = Some (Queued task)
       /\ forall j t, (j < i)%nat -> ss !! j <> Some (Queued t).
Proof.
  induction 1 as [|s ss Hs Hss IH]; [left; constructor | ].
  destruct s as [task | p | r]; simpl in Hs; [ | discriminate | ].
  - right. exists 0%nat, task. split; [reflexivity | ]. intros j t Hj. lia.
  - destruct IH as [Hall | (i & task & Hi & Hfifo)].
    + left. constructor; [reflexivity | exact Hall].
    + right. exists (S i), task. split; [exact Hi | ].
      intros [|j] t Hj; simpl; [discriminate | ]. apply Hfifo. lia.
Qed.

Lemma count_slots_none (f : Slot -> bool) (ss : list Slot) :
  Forall (fun s => f s = false) ss -> count_slots f ss = 0%nat.
Proof.
  unfold count_slots. induction 1 as [|s ss Hs Hss IH]; [reflexivity | ].
  rewrite filter_cons, decide_False; [exact IH | ]. rewrite Hs. discriminate.
Qed.

Lemma stuck_settled (E : Env) (concurrency : nat) (s : Session) :
  (0 < concurrency)%nat ->
  nf (step E concurrency) s ->
  Forall (fun s => is_settled s = true) (slots s).
Proof.
  intros Hc Hnf.
  assert (Hnorun : Forall (fun s => is_running s = false) (slots s)).
  { apply Forall_lookup. intros i [task | p | r] Hi; try reflexivity.
    exfalso. apply Hnf. destruct p as [[r l] | op k].
    - eexists. eapply step_settle, Hi.
    - eexists. eapply step_await, Hi. }
  destruct (first_queued _ Hnorun) as [Hall | (i & task & Hi & Hfifo)];
    [exact Hall | ].
  exfalso. apply Hnf. eexists. eapply step_admit; [exact Hi | exact Hfifo | ].
  unfold activeCount. rewrite count_slots_none; [exact Hc | exact Hnorun].
Qed.

(** What [Promise.all] gives once every slot is settled: the values in
    the order of the tasks, or nothing because a slot is rejected. *)
Lemma collect_settled (E : Env) (Q : SongTask.t -> TaskResult.t -> Prop)
  (tasks : list SongTask.t) (ss : list Slot) :
  Forall2 (slot_ok E Q) tasks ss ->
  Forall (fun s => is_settled s = true) ss ->
  match collect ss with
  | Some rs => Forall2 Q tasks rs
  | None => exists i e, ss !! i = Some (Settled (Err e)) /\ log_rejection E e
  end.
Proof.
  induction 1 as [|task s tasks ss Hok Hall IH]; intros Hset.
  - constructor.
  - apply Forall_cons in Hset as [Hs Hset]. specialize (IH Hset).
    destruct s as [t | p | [res | e]]; simpl in Hs; try discriminate.
    + simpl in Hok. cbn [collect]. destruct (collect ss) as [rs | ].
      * constructor; assumption.
      * destruct IH as (i & e & Hi & He). exists (S i), e. auto.
    + simpl in Hok. exists 0%nat, e. auto.
Qed.


(** With a failure log that takes every line, no slot is rejected. *)
Lemma no_rejection (E : Env) (Q : SongTask.t -> TaskResult.t -> Prop)
  (tasks : list SongTask.t) (ss : list Slot) :
  (forall message, fs_fault E (AppendErrorsLog message) = None) ->
  Forall2 (slot_ok E Q) tasks ss ->
  Forall (fun slot => is_rejected slot = false) ss.
Proof.
  intros Hlog. induction 1 as [|task slot ts ss Hok _ IH]; constructor;
    [ | exact IH].
  destruct slot as [t | p | [res | e]]; try reflexivity.
  destruct Hok as [message Hm]. rewrite Hlog in Hm. discriminate.
Qed.

Lemma collect_fulfilled (ss : list Slot) :
  Forall (fun s => is_settled s = true) ss ->
  Forall (fun slot => is_rejected slot = false) ss ->
  is_Some (collect ss).
Proof.
  induction 1 as [|s ss Hs _ IH]; intros Hrej; [eexists; reflexivity | ].
  apply Forall_cons in Hrej as [Hr Hrej]. destruct (IH Hrej) as [rs Hrs].
  destruct s as [t | p | [res | e]]; simpl in *; try discriminate.
  rewrite Hrs. eexists. reflexivity.
Qed.


Lemma active_fetches_bounded_witness :
  let E := Samples.env (Some [Samples.hit]) EncodeEnd (YtClose (Some 0%Z)) in
  let tasks := [Samples.search_task 1 "first song";
                Samples.search_task 2 "second song"] in
  let w := Samples.world [] in
  let s := {| slots := [Running (runTask E (Samples.search_task 1 "first song"));
                        Queued (Samples.search_task 2 "second song")];
              world := w |} in
  rtc (step E 1) (start tasks w) s
  /\ activeCount s = 1%nat
  /\ (fetchingCount s <= activeCount s)%nat
  /\ (activeCount s <= 1)%nat.
Proof.
  intros E tasks w s.
  assert (Hrun : rtc (step E 1) (start tasks w) s).
  { apply rtc_once.
    apply (step_admit E 1 (start tasks w) 0 (Samples.search_task 1 "first song")).
    - reflexivity.
    - intros j t Hj. lia.
    - vm_compute. lia. }
  split; [exact Hrun | ]. split; [reflexivity | ].
  destruct (active_fetches_bounded E 1 tasks w s Hrun) as (Hf & Ha & _).
  split; [exact Hf | exact Ha].
Defined.

(** Running the first slot from start to end, with nothing in between,
    is one of the runs of the dispatch. *)
Lemma run_first_slot (E : Env) (concurrency : nat)
  (p : Prog (outcome TaskResult.t * Locals)) (rest : list Slot) (w : World) :
  rtc (step E concurrency)
    {| slots := Running p :: rest; world := w |}
    {| slots := Settled (exec E p w).1.1 :: rest; world := (exec E p w).2 |}.
Proof.
  revert w. induction p as [[r l] | op k IH]; intros w.
  - apply rtc_once.
    apply (step_settle E concurrency
             {| slots := Running (Ret (r, l)) :: rest; world := w |} 0 r l).
    reflexivity.
  - eapply rtc_l; [ | apply IH].
    apply (step_await E concurrency
             {| slots := Running (Await op k) :: rest; world := w |} 0 op k).
    reflexivity.
Qed.

(** The same for a slot anywhere in the list. *)
Lemma run_slot (E : Env) (concurrency : nat) (before : list Slot)
  (p : Prog (outcome TaskResult.t * Locals)) (rest : list Slot) (w : World) :
  rtc (step E concurrency)
    {| slots := before ++ Running p :: rest; world := w |}
    {| slots := before ++ Settled (exec E p w).1.1 :: rest;
       world := (exec E p w).2 |}.
Proof.
  revert w. induction p as [[r l] | op k IH]; intros w.
  - apply rtc_once.
    pose proof (step_settle E concurrency
                  {| slots := before ++ Running (Ret (r, l)) :: rest; world := w |}
                  (length before) r l) as Hstep.
    cbn [slots world] in Hstep.
    rewrite insert_app_r_alt, Nat.sub_diag in Hstep by lia.
    apply Hstep, list_lookup_middle. reflexivity.
  - eapply rtc_l; [ | apply IH].
    pose proof (step_await E concurrency
                  {| slots := before ++ Running (Await op k) :: rest; world := w |}
                  (length before) op k) as Hstep.
    cbn [slots world] in Hstep.
    rewrite insert_app_r_alt, Nat.sub_diag in Hstep by lia.
    apply Hstep, list_lookup_middle. reflexivity.
Qed.

(** A session whose slots are all settled and that has no removal left
    can make no step. *)
Lemma settled_nf (E : Env) (concurrency : nat) (s : Session) :
  Forall (fun slot => is_settled slot = true) (slots s) ->
  detached (world s) = [] ->
  nf (step E concurrency) s.
Proof.
  intros Hset Hdet [s' Hstep].
  destruct Hstep as [s i task Hi Hfifo Hfree | s i op k Hi | s i r l Hi
                    | s before path after Hd].
  - apply (proj1 (Forall_lookup _ _) Hset) in Hi. discriminate.
  - apply (proj1 (Forall_lookup _ _) Hset) in Hi. discriminate.
  - apply (proj1 (Forall_lookup _ _) Hset) in Hi. discriminate.
  - rewrite Hdet in Hd. destruct before; discriminate.
Qed.



(* ====================================================================== *)
(** * Further properties of the code *)
(* ====================================================================== *)

(** ** Titles of the progress bars *)

(** X1.  A truncated title has the length of the title or 42, whichever
    is smaller, and it starts with the same 39 code units as the title. *)
Theorem truncateTitle_bounded (value : list N) :
  length (truncateTitle value) = Nat.min (length value) 42
  /\ take 39 (truncateTitle value) = take 39 value.
Proof.
  unfold truncateTitle, truncate.
  destruct (Nat.leb_spec (length value) 42) as [Hle | Hgt].
  - split; [lia | reflexivity].
  - change (42 - 3)%nat with 39%nat. split.
    + rewrite length_app, length_take.
      change (length (js "...")) with 3%nat. lia.
    + rewrite take_app_le by (rewrite length_take; lia).
      rewrite take_take. f_equal.
Qed.

(** ** The classification of a primary error *)

(** X2.  [shouldFallback] accepts an error exactly when its message holds,
    at any place and in any mix of upper and lower case, one of the three
    texts Status code: 403, Could not parse and decipher. *)
Theorem shouldFallback_iff_signature (error : thrown) :
  shouldFallback error = true
  <-> exists signature pre mid post,
        signature ∈ [js "Status code: 403"; js "Could not parse"; js "decipher"]
        /\ error_message error = pre ++ mid ++ post
        /\ map canon mid = map canon signature.
Proof. apply shouldFallback_signature. Qed.

(** ** The value shown by a progress bar *)

Lemma clamp_percent_range (percent : jsnum) :
  js_isNaN percent = false ->
  exists z : Z,
    (0 <= z <= 100)%Z
    /\ js_min (JFin 100) (js_max (JFin 0) (js_floor (js_mul percent (JFin 100))))
       = js_of_Z z.
Proof.
  intros Hnan. destruct percent as [q | | | ]; try discriminate.
  - cbn [js_mul js_floor]. set (f := Qfloor (q * 100)).
    unfold js_of_Z.
    change (JFin 0) with (JFin (inject_Z 0)).
    change (JFin 100) with (JFin (inject_Z 100)).
    cbn [js_max js_lt]. rewrite Qltb_inject_Z.
    destruct (Z.ltb_spec 0 f) as [Hpos | Hneg].
    + cbn [js_min js_lt]. rewrite Qltb_inject_Z.
      destruct (Z.ltb_spec f 100) as [Hlt | Hge].
      * exists f. split; [lia | reflexivity].
      * exists 100%Z. split; [lia | reflexivity].
    + exists 0%Z. split; [lia | reflexivity].
  - exists 100%Z. split; [lia | reflexivity].
  - exists 0%Z. split; [lia | reflexivity].
Qed.

(** X3.  The progress callback of [runTask] updates the bar of the task,
    and nothing else, with a whole number between 0 and 100, whatever
    fraction that is not NaN it is called with. *)
Theorem runTask_onProgress_range (E : Env) (title : list N)
  (percent downloaded total : jsnum) (l : Locals) (w : World) (b : nat) :
  bar l = Some b ->
  js_isNaN percent = false ->
  exists z : Z,
    (0 <= z <= 100)%Z
    /\ (exec E (runTask_onProgress title percent downloaded total l) w).1
       = (Ok tt, l)
    /\ trace (exec E (runTask_onProgress title percent downloaded total l) w).2
       = trace w ++ [BarUpdate b (js_of_Z z) (truncateTitle title)].
Proof.
  intros Hbar Hnan.
  destruct (clamp_percent_range percent Hnan) as (z & Hz & Hclamp).
  exists z. split; [exact Hz | ].
  unfold runTask_onProgress. rewrite exec_bind, exec_get. cbv beta iota.
  rewrite Hbar, Hclamp. exec_await. split; reflexivity.
Qed.

Lemma runTask_onProgress_range_witness :
  exists z : Z,
    (0 <= z <= 100)%Z
    /\ trace (exec (Samples.env None EncodeEnd (YtClose (Some 0%Z)))
                (runTask_onProgress
                   (js "Some Song") (JFin (7 # 2)) (JFin 0) (JFin 0)
                   {| bar := Some 0%nat; displayTitle := []; videoUrl := [] |})
                (Samples.world [])).2
       = [BarUpdate 0 (js_of_Z z) (truncateTitle (js "Some Song"))].
Proof.
  destruct (runTask_onProgress_range
              (Samples.env None EncodeEnd (YtClose (Some 0%Z)))
              (js "Some Song") (JFin (7 # 2)) (JFin 0) (JFin 0)
              {| bar := Some 0%nat; displayTitle := []; videoUrl := [] |}
              (Samples.world []) 0%nat eq_refl eq_refl)
    as (z & Hz & _ & Htrace).
  exists z. split; [exact Hz | exact Htrace].
Defined.

(** ** Numbered file names *)

Lemma pretty_N_go_length (x : N) (s : string) :
  (String.length s <= String.length (pretty_N_go x s))%nat.
Proof.
  revert s. induction (N.lt_wf_0 x) as [x _ IH]. intros s.
  destruct (decide (x = 0)) as [-> | Hx].
  - rewrite pretty_N_go_0. lia.
  - rewrite pretty_N_go_step by lia.
    etrans; [ | apply IH, N.div_lt; lia]. simpl. lia.
Qed.

Lemma num_to_js_nonempty (n : N) : num_to_js n <> [].
Proof.
  unfold num_to_js, pretty, pretty_N. case_decide; [discriminate | ].
  rewrite pretty_N_go_step by lia.
  pose proof (pretty_N_go_length (n `div` 10)
                (String (pretty_N_char (n `mod` 10)) "")) as Hlen.
  destruct (pretty_N_go _ _); simpl in *; [lia | discriminate].
Qed.

Lemma drop_trailing_app_keep (cls : N -> bool) (a b : list N) :
  a <> [] -> (forall c, last a = Some c -> cls c = false) ->
  drop_trailing cls (a ++ b) = a ++ drop_trailing cls b.
Proof.
  induction a as [|x a IH]; intros Hne Hlast; [congruence | ].
  destruct a as [|y a].
  - simpl. destruct (drop_trailing cls b); [ | reflexivity].
    rewrite (Hlast x); reflexivity.
  - change ((x :: y :: a) ++ b) with (x :: ((y :: a) ++ b)).
    cbn [drop_trailing]. rewrite IH; [reflexivity | discriminate | ].
    intros c Hc. apply Hlast. exact Hc.
Qed.

Lemma replace_runs_app_keep (cls : N -> bool) (b : bool) (a rest : list N) :
  a <> [] -> Forall (fun c => cls c = false) a ->
  replace_runs cls b (a ++ rest) = a ++ replace_runs cls false rest.
Proof.
  intros Hne Ha. revert b. induction Ha as [|x a Hx Ha IH]; [congruence | ].
  intros b. simpl. rewrite Hx. f_equal.
  destruct a as [|y a]; [reflexivity | ]. apply IH. discriminate.
Qed.

Lemma replace_each_app (cls : N -> bool) (a b : list N) :
  replace_each cls (a ++ b) = replace_each cls a ++ replace_each cls b.
Proof. apply map_app. Qed.

(** A sanitized name keeps a leading block of digits. *)
Lemma sanitizeFileName_digits_prefix (digits rest : list N) :
  digits <> [] -> Forall is_digit digits ->
  exists rest', sanitizeFileName (digits ++ rest) = digits ++ rest'.
Proof.
  intros Hne Hd.
  assert (Hspace : Forall (fun c => is_space c = false) digits).
  { eapply Forall_impl; [exact Hd | ].
    intros c Hc. apply is_dot_or_space_space, digit_not_dot_or_space, Hc. }
  assert (Hlast : forall cls : N -> bool,
            (forall c, is_digit c -> cls c = false) ->
            forall c, last digits = Some c -> cls c = false).
  { intros cls Hcls c Hc. apply Hcls.
    apply last_Some_elem_of in Hc. revert c Hc. apply Forall_forall, Hd. }
  unfold sanitizeFileName, trim.
  rewrite replace_each_app, replace_each_fixed
    by (eapply Forall_impl; [exact Hd | apply digit_not_hostile]).
  rewrite replace_runs_app_keep by assumption.
  rewrite drop_leading_fixed.
  2:{ intros c Hc. destruct digits as [|x ds]; [congruence | ].
      simpl in Hc. injection Hc as <-. apply Forall_cons in Hspace. tauto. }
  rewrite drop_trailing_app_keep;
    [ | exact Hne
      | apply Hlast; intros c Hc;
        apply is_dot_or_space_space, digit_not_dot_or_space, Hc].
  rewrite drop_trailing_app_keep;
    [ | exact Hne | apply Hlast, digit_not_dot_or_space].
  eexists. reflexivity.
Qed.

(** X4.  In a play-list session with a start number, where the start
    number plus the number of tasks is at most 2^53, so that the code
    counts and prints the numbers exactly, the task at position [i] gets
    the directory of the play list, the start number plus [i] as sequence
    number, which is below 2^53, and a base name that starts with the
    decimal digits of that number, whatever its title is. *)
Theorem numbered_base_name (tasks : list SongTask.t) (playlistDir : list N)
  (first : N) (i : nat) (task : SongTask.t) (displayTitle : list N) :
  first + N.of_nat (length tasks) <= 2 ^ 53 ->
  playlistSessionTasks tasks playlistDir (Some first) !! i = Some task ->
  SongTask.sequenceNumber task = Some (first + N.of_nat i)
  /\ first + N.of_nat i < 2 ^ 53
  /\ SongTask.outputDir task = Some playlistDir
  /\ exists rest,
       safeTitle task displayTitle = num_to_js (first + N.of_nat i) ++ rest.
Proof.
  intros Hbound.
  unfold playlistSessionTasks. rewrite list_lookup_imap.
  destruct (tasks !! i) as [t | ] eqn:Hi; [ | discriminate].
  apply lookup_lt_Some in Hi.
  simpl. intros [= <-]. split; [reflexivity | ]. split; [lia | ].
  split; [reflexivity | ].
  unfold safeTitle, titledDisplay, numberPrefix. cbn [SongTask.sequenceNumber].
  set (digits := num_to_js (first + N.of_nat i)).
  assert (Hne : digits <> []) by apply num_to_js_nonempty.
  assert (Hd : Forall is_digit digits) by apply num_to_js_digits.
  assert (Htrim : exists tail, trim ((digits ++ js ". ") ++ displayTitle)
                               = digits ++ tail).
  { unfold trim. rewrite <- !app_assoc.
    rewrite drop_leading_fixed.
    2:{ intros c Hc. destruct digits as [|x ds]; [congruence | ].
        simpl in Hc. injection Hc as <-. apply Forall_cons in Hd as [Hx _].
        apply is_dot_or_space_space, digit_not_dot_or_space, Hx. }
    rewrite drop_trailing_app_keep; [eexists; reflexivity | exact Hne | ].
    intros c Hc. apply is_dot_or_space_space, digit_not_dot_or_space.
    apply last_Some_elem_of in Hc. revert c Hc. apply Forall_forall, Hd. }
  destruct Htrim as [tail ->].
  destruct (sanitizeFileName_digits_prefix digits tail Hne Hd) as [rest ->].
  exists rest. destruct digits; [congruence | reflexivity].
Qed.

Lemma numbered_base_name_witness :
  let tasks := [Samples.direct_task 1 "https://youtu.be/a";
                Samples.direct_task 2 "https://youtu.be/b"] in
  10 + N.of_nat (length tasks) <= 2 ^ 53
  /\ exists task,
       playlistSessionTasks tasks (js "/d/list") (Some 10) !! 1%nat = Some task
       /\ SongTask.sequenceNumber task = Some 11
       /\ exists rest, safeTitle task (js "Second: song?") = js "11" ++ rest.
Proof.
  intros tasks.
  assert (Hbound : 10 + N.of_nat (length tasks) <= 2 ^ 53)
    by (vm_compute; discriminate).
  split; [exact Hbound | ].
  eexists. split; [reflexivity | ].
  destruct (numbered_base_name tasks (js "/d/list") 10 1 _ (js "Second: song?")
              Hbound eq_refl) as (Hseq & _ & _ & rest & Hrest).
  split; [exact Hseq | ]. exists rest. exact Hrest.
Defined.

(** ** The summary *)

Lemma fold_count_result (results : list TaskResult.t) (acc : Counts) :
  let c := fold_left count_result results acc in
  n_total c = (n_total acc + length results)%nat
  /\ n_completed c
     = (n_completed acc + length (List.filter (has_status completed) results))%nat
  /\ n_skipped c
     = (n_skipped acc + length (List.filter (has_status skipped) results))%nat
  /\ n_failed c
     = (n_failed acc + length (List.filter (has_status failed) results))%nat.
Proof.
  revert acc. induction results as [|r rs IH]; intros acc; simpl.
  - repeat split; lia.
  - destruct (IH (count_result acc r)) as (Ht & Hc & Hs & Hf).
    rewrite Ht, Hc, Hs, Hf. unfold count_result, has_status.
    destruct (TaskResult.status r); simpl; repeat split; lia.
Qed.

(** X5.  The counters of the summary: the total is the number of results,
    each of the three other counters is the number of results with that
    status, and the three add up to the total. *)
Theorem summaryCounts_partition (results : list TaskResult.t) :
  let c := summaryCounts results in
  n_total c = length results
  /\ n_completed c = length (List.filter (has_status completed) results)
  /\ n_skipped c = length (List.filter (has_status skipped) results)
  /\ n_failed c = length (List.filter (has_status failed) results)
  /\ (n_completed c + n_skipped c + n_failed c = n_total c)%nat.
Proof.
  unfold summaryCounts.
  set (zero := {| n_total := 0; n_completed := 0; n_skipped := 0; n_failed := 0 |}).
  assert (Hsum : forall rs acc,
            (n_completed acc + n_skipped acc + n_failed acc = n_total acc)%nat ->
            let c := fold_left count_result rs acc in
            (n_completed c + n_skipped c + n_failed c = n_total c)%nat).
  { induction rs as [|r rs IH]; intros acc Hacc; simpl; [exact Hacc | ].
    apply IH. unfold count_result. destruct (TaskResult.status r); simpl; lia. }
  destruct (fold_count_result results zero) as (Ht & Hc & Hs & Hf).
  simpl in *. repeat split; try assumption.
  apply Hsum. reflexivity.
Qed.

(** ** The builders of the task lists *)

(** X6.  [buildSongTasks] makes one task per entry, in order: the task at
    position [i] has the id [i + 1] and the entry as its query; it is a
    direct task with the entry as URL when the entry is a YouTube URL and
    a search task without URL otherwise.  The ids are pairwise
    different. *)
Theorem buildSongTasks_ids (parseURL : list N -> option Url)
  (entries : list (list N)) :
  length (buildSongTasks parseURL entries) = length entries
  /\ (forall i task,
        buildSongTasks parseURL entries !! i = Some task ->
        exists entry,
          entries !! i = Some entry
          /\ SongTask.id task = N.of_nat i + 1
          /\ SongTask.query task = entry
          /\ (if isYoutubeUrl parseURL entry
              then SongTask.mode task = direct
                   /\ SongTask.url task = Some entry
              else SongTask.mode task = search
                   /\ SongTask.url task = None))
  /\ NoDup (map SongTask.id (buildSongTasks parseURL entries)).
Proof.
  assert (Hlookup : forall i task,
    buildSongTasks parseURL entries !! i = Some task ->
    exists entry,
      entries !! i = Some entry
      /\ SongTask.id task = N.of_nat i + 1
      /\ SongTask.query task = entry
      /\ (if isYoutubeUrl parseURL entry
          then SongTask.mode task = direct /\ SongTask.url task = Some entry
          else SongTask.mode task = search /\ SongTask.url task = None)).
  { intros i task. unfold buildSongTasks. rewrite list_lookup_imap.
    destruct (entries !! i) as [entry | ]; [ | discriminate].
    simpl. intros [= <-]. exists entry. split; [reflexivity | ].
    destruct (isYoutubeUrl parseURL entry); simpl; auto. }
  split; [apply length_imap | ]. split; [exact Hlookup | ].
  apply NoDup_alt. intros i j x Hi Hj.
  rewrite list_lookup_fmap in Hi, Hj.
  destruct (buildSongTasks parseURL entries !! i) as [ti | ] eqn:Hti;
    [ | discriminate].
  destruct (buildSongTasks parseURL entries !! j) as [tj | ] eqn:Htj;
    [ | discriminate].
  simpl in Hi, Hj.
  destruct (Hlookup i ti Hti) as (_ & _ & Hidi & _).
  destruct (Hlookup j tj Htj) as (_ & _ & Hidj & _).
  injection Hi as Hi. injection Hj as Hj. lia.
Qed.

Lemma truthy_some (o : option (list N)) :
  truthy o = true -> exists c s, o = Some (c :: s).
Proof. destruct o as [[|c s] | ]; simpl; try discriminate. eauto. Qed.

(** X7.  [buildPlaylistTasks] passes the failure of the play-list lookup
    on; otherwise it makes one task per item that has a URL, in order:
    the task at position [i] has the id [i + 1], the mode play list, a
    URL, a display title and the title of the play list, and neither an
    output directory nor a sequence number. *)
Theorem buildPlaylistTasks_shape (ytpl : list N -> outcome Playlist)
  (playlistUrl : list N) :
  match ytpl playlistUrl with
  | Err e => buildPlaylistTasks ytpl playlistUrl = Err e
  | Ok found =>
      exists tasks,
        buildPlaylistTasks ytpl playlistUrl = Ok tasks
        /\ length tasks
           = length (List.filter (fun item => truthy (item_url item))
                       (playlist_items found))
        /\ (length tasks <= length (playlist_items found))%nat
        /\ forall i task,
             tasks !! i = Some task ->
             SongTask.id task = N.of_nat i + 1
             /\ SongTask.mode task = playlist
             /\ is_Some (SongTask.url task)
             /\ is_Some (SongTask.displayTitle task)
             /\ SongTask.playlistTitle task = Some (playlist_title found)
             /\ SongTask.outputDir task = None
             /\ SongTask.sequenceNumber task = None
  end.
Proof.
  unfold buildPlaylistTasks. destruct (ytpl playlistUrl) as [found | e];
    [ | reflexivity].
  eexists. split; [reflexivity | ]. split; [apply length_imap | ].
  split.
  { rewrite length_imap.
    pose proof (filter_length (fun item => truthy (item_url item))
                  (playlist_items found)) as Hsum.
    rewrite <- Hsum. apply Nat.le_add_r. }
  intros i task. rewrite list_lookup_imap.
  destruct (List.filter _ _ !! i) as [item | ] eqn:Hitem; [ | discriminate].
  simpl. intros [= <-]. unfold playlistTask. simpl.
  repeat split; try (eexists; reflexivity).
  apply list_elem_of_lookup_2, list_elem_of_In, filter_In in Hitem
    as [_ Hurl].
  destruct (item_shortUrl item) as [short | ]; [eexists; reflexivity | ].
  apply truthy_some in Hurl as (c & s & ->). eexists; reflexivity.
Qed.

(** ** The command line *)

Lemma usable_concurrency_positive (parsed : option Z) (z : Z) :
  usable_concurrency parsed = Some z -> (0 < z)%Z.
Proof.
  unfold usable_concurrency. destruct parsed as [p | ]; [ | discriminate].
  destruct (Z.ltb_spec 0 p); [ | discriminate]. intros [= <-]. assumption.
Qed.

Lemma with_concurrency_positive (text : list N) (st : ParseState) :
  (0 < st_concurrency st)%Z -> (0 < st_concurrency (with_concurrency text st))%Z.
Proof.
  intros Hst. unfold with_concurrency.
  destruct (usable_concurrency (parseInt10 text)) as [z | ] eqn:Hz;
    [ | exact Hst].
  simpl. eapply usable_concurrency_positive, Hz.
Qed.

Lemma parseArgs_loop_positive (E : Env) (parseURL : list N -> option Url)
  (cwd : list N) (n : nat) :
  forall args st st',
    (length args <= n)%nat ->
    parseArgs_loop E parseURL cwd args st = Some st' ->
    (0 < st_concurrency st)%Z -> (0 < st_concurrency st')%Z.
Proof.
  induction n as [|n IH]; intros args st st' Hlen Hloop Hst;
    destruct args as [|arg rest]; simpl in Hlen; try lia;
    cbn [parseArgs_loop] in Hloop.
  - injection Hloop as <-. exact Hst.
  - injection Hloop as <-. exact Hst.
  - repeat match type of Hloop with
           | (if ?c then _ else _) = _ => destruct c
           | match ?r with _ => _ end = _ =>
               match r with
               | rest => destruct rest as [|[|c next] rest']
               end
           end;
      try discriminate;
      (eapply IH; [ | exact Hloop | ]);
      simpl in *; try lia; try assumption;
      repeat (first [ apply with_concurrency_positive | assumption
                    | match goal with
                      | |- context [if ?c then _ else _] => destruct c; simpl
                      end ]).
Qed.

(** X8.  Whatever the arguments and the environment variable are, a
    configuration that [parseArgs] returns has a concurrency above zero;
    it names a play list in play-list mode, a URL and no play list in
    direct mode, and neither in search mode. *)
Theorem parseArgs_concurrency_positive (E : Env)
  (parseURL : list N -> option Url) (cwd : list N)
  (envConcurrency : option (list N)) (argv : list (list N))
  (config : CliConfig.t) :
  parseArgs E parseURL cwd envConcurrency argv = Parsed config ->
  (0 < CliConfig.concurrency config)%Z
  /\ match CliConfig.mode config with
     | playlist => truthy (CliConfig.playlistUrl config) = true
     | direct =>
         truthy (CliConfig.url config) = true
         /\ CliConfig.playlistUrl config = None
     | search =>
         CliConfig.url config = None /\ CliConfig.playlistUrl config = None
     end.
Proof.
  unfold parseArgs.
  set (start := {| st_concurrency := _; st_songsFile := None;
                   st_url := None; st_playlistUrl := None |}).
  assert (Hstart : (0 < st_concurrency start)%Z).
  { simpl. destruct (usable_concurrency _) as [z | ] eqn:Hz; simpl.
    - eapply usable_concurrency_positive, Hz.
    - reflexivity. }
  destruct (parseArgs_loop E parseURL cwd argv start) as [st | ] eqn:Hloop;
    [ | discriminate].
  pose proof (parseArgs_loop_positive E parseURL cwd (length argv) argv start st
                (Nat.le_refl _) Hloop Hstart) as Hpos.
  destruct (truthy (st_playlistUrl st)) eqn:Hp.
  - intros [= <-]. simpl. split; assumption.
  - destruct (truthy (st_url st)) eqn:Hu; intros [= <-]; simpl; auto.
Qed.

Lemma parseArgs_concurrency_positive_witness :
  let E := Samples.env None EncodeEnd (YtClose (Some 0%Z)) in
  let argv := [js "--file"; js "list.txt"; js "-c"; js "0";
               js "--concurrency=8x"; js "-c"; js "many"] in
  exists config,
    parseArgs E (fun _ => None) (js "/home/user") (Some (js "-2")) argv
      = Parsed config
    /\ CliConfig.concurrency config = 8%Z
    /\ CliConfig.mode config = search
    /\ (0 < CliConfig.concurrency config)%Z.
Proof.
  intros E argv. eexists. split; [vm_compute; reflexivity | ].
  split; [reflexivity | ]. split; [reflexivity | ].
  eapply (parseArgs_concurrency_positive E (fun _ => None) (js "/home/user")
            (Some (js "-2")) argv).
  vm_compute. reflexivity.
Defined.

(** ** The song list *)

Lemma trim_trim (s : list N) : trim (trim s) = trim s.
Proof.
  unfold trim.
  rewrite (drop_leading_fixed is_space (drop_trailing is_space _)).
  - apply drop_trailing_fixed. intros c Hc. eapply drop_trailing_last, Hc.
  - intros c Hc. apply drop_trailing_head in Hc. eapply drop_leading_head, Hc.
Qed.

Lemma split_lines_no_line_feed (s : list N) :
  Forall (Forall (fun c => c <> 10)) (split_lines s).
Proof.
  induction s as [|c r IH]; cbn [split_lines]; [repeat constructor | ].
  destruct (split_lines r) as [|line lines]; [repeat constructor | ].
  apply Forall_cons in IH as [Hline Hlines].
  destruct (N.eqb_spec c 10) as [-> | Hc].
  - repeat constructor; assumption.
  - destruct ((c =? 13) && starts_with [10] r); repeat constructor; assumption.
Qed.

Lemma songEntries_Forall (raw : list N) :
  Forall (fun entry =>
            entry <> [] /\ trim entry = entry
            /\ starts_with (js "#") entry = false
            /\ Forall (fun c => c <> 10) entry)
         (songEntries raw).
Proof.
  apply Forall_forall. intros entry Hin.
  apply list_elem_of_In, List.filter_In in Hin as [Hin Hkeep].
  apply andb_true_iff in Hkeep as [Hne Hhash].
  apply negb_true_iff in Hne, Hhash.
  apply List.in_map_iff in Hin as (line & <- & Hline).
  split; [ | split; [ | split]].
  - intros Hnil. rewrite bool_decide_eq_true_2 in Hne by exact Hnil.
    discriminate.
  - apply trim_trim.
  - exact Hhash.
  - unfold trim. apply drop_trailing_Forall, drop_leading_Forall.
    pose proof (split_lines_no_line_feed raw) as Hall.
    rewrite Forall_forall in Hall. apply Hall, list_elem_of_In, Hline.
Qed.

(** X9.  Every entry [readSongList] returns is a non-empty line of the
    file without white space around it, does not start with the comment
    sign and holds no line feed.  When the file does not exist the list is
    empty, and reading the list changes no file. *)
Theorem readSongList_entries {L} (E : Env)
  (readFile : list N -> outcome (list N)) (filePath : list N)
  (l : L) (w : World) (entries : list (list N)) :
  (exec E (readSongList readFile filePath l) w).1.1 = Ok entries ->
  Forall (fun entry =>
            entry <> [] /\ trim entry = entry
            /\ starts_with (js "#") entry = false
            /\ Forall (fun c => c <> 10) entry)
         entries
  /\ (files w !! filePath = None -> entries = [])
  /\ files (exec E (readSongList readFile filePath l) w).2 = files w.
Proof.
  unfold readSongList. rewrite exec_bind. exec_await. cbn [handle fst snd].
  destruct (files w !! filePath) as [node | ] eqn:Hfile.
  - rewrite bool_decide_eq_true_2 by (eexists; reflexivity). cbn [negb].
    rewrite exec_bind, exec_settle, exec_ret.
    destruct (readFile filePath) as [raw | e]; [ | discriminate].
    rewrite exec_ret. cbn [fst snd]. intros [= <-].
    split; [apply songEntries_Forall | ]. split; [discriminate | reflexivity].
  - rewrite bool_decide_eq_false_2 by (intros [x Hx]; discriminate).
    cbn [negb]. rewrite exec_ret. cbn [fst snd]. intros [= <-].
    split; [constructor | ]. split; reflexivity.
Qed.

Lemma readSongList_entries_witness :
  let E := Samples.env None EncodeEnd (YtClose (Some 0%Z)) in
  let w := Samples.world [js "/home/user/songs.txt"] in
  let text := [32; 65; 100; 101; 108; 101; 32; 45; 32; 72; 101; 108; 108; 111;
               9; 13; 10; 35; 32; 108; 97; 116; 101; 114; 10; 10; 13; 10;
               81; 117; 101; 101; 110; 32; 32] in
  let run := exec E (readSongList (fun _ => Ok text) (js "/home/user/songs.txt") tt) w in
  run.1.1 = Ok [js "Adele - Hello"; js "Queen"]
  /\ Forall (fun entry => entry <> [] /\ trim entry = entry)
       [js "Adele - Hello"; js "Queen"]
  /\ files run.2 = files w.
Proof.
  intros E w text run.
  assert (Hrun : run.1.1 = Ok [js "Adele - Hello"; js "Queen"])
    by (vm_compute; reflexivity).
  destruct (readSongList_entries E (fun _ => Ok text) (js "/home/user/songs.txt")
              tt w _ Hrun) as (Hall & _ & Hfiles).
  split; [exact Hrun | ]. split; [ | exact Hfiles].
  eapply Forall_impl; [exact Hall | ]. intros entry (Hne & Htrim & _). auto.
Defined.

(** ** The folder of a play list *)


Lemma ensureDir_exec {L} (E : Env) (dir : list N) (l : L) (w : World) :
  exec E (settle (await (EnsureDir dir)) l) w
  = match fs_fault E (EnsureDir dir) with
    | Some e => ((Err e, l), record_op (EnsureDir dir) w)
    | None =>
        ((Ok tt, l),
         record_op (EnsureDir dir)
           (set_files (fun fs => match fs !! dir with
                                 | Some _ => fs
                                 | None => <[dir := Directory]> fs
                                 end) w))
    end.
Proof.
  rewrite exec_settle. exec_await. cbn [handle]. unfold fs_result.
  destruct (fs_fault E (EnsureDir dir)) as [e | ]; reflexivity.
Qed.



Example createPlaylistDirectory_sample :
  let E := Samples.env None EncodeEnd (YtClose (Some 0%Z)) in
  let run := exec E (createPlaylistDirectory (L := unit) E (js "Road: trip?") tt)
               (Samples.world []) in
  run.1.1 = Ok (js "/home/user/downloads/Road trip")
  /\ trace run.2 = [EnsureDir (js "/home/user/downloads/Road trip")].
Proof. vm_compute. split; reflexivity. Qed.

(** ** The highest number a file name starts with *)

Lemma maxNumber_fold (names : list (list N)) (start : N) :
  let step := fun maxNumber file =>
                match numberPrefixOf file with
                | Some ds =>
                    let num := digits_value ds in
                    if maxNumber <? num then num else maxNumber
                | None => maxNumber
                end in
  let n := fold_left step names start in
  start <= n
  /\ (forall name ds, name ∈ names -> numberPrefixOf name = Some ds ->
        digits_value ds <= n)
  /\ (n = start
      \/ exists name ds,
           name ∈ names /\ numberPrefixOf name = Some ds /\ digits_value ds = n).
Proof.
  cbv zeta. revert start.
  induction names as [|name names IH]; intros start; cbn [fold_left].
  - split; [lia | ]. split; [ | left; reflexivity].
    intros name ds Hin. inversion Hin.
  - match goal with |- context [fold_left ?f names ?a] =>
      destruct (IH a) as (Hle & Hub & Hatt); set (n := fold_left f names a) in *
    end.
    assert (Hstart : start <= n).
    { destruct (numberPrefixOf name) as [ds | ]; [ | exact Hle].
      cbv zeta in Hle. destruct (N.ltb_spec start (digits_value ds)); lia. }
    split; [exact Hstart | ]. split.
    + intros name' ds' Hin Hpre.
      apply elem_of_cons in Hin as [-> | Hin]; [ | eapply Hub; eassumption].
      rewrite Hpre in Hle. cbv zeta in Hle.
      destruct (N.ltb_spec start (digits_value ds')); lia.
    + destruct Hatt as [Heq | (name' & ds' & Hin & Hpre & Hval)].
      * destruct (numberPrefixOf name) as [ds | ] eqn:Hpre; [ | left; exact Heq].
        cbv zeta in Heq.
        destruct (N.ltb_spec start (digits_value ds)); [ | left; exact Heq].
        right. exists name, ds. split; [left | ]. split; [exact Hpre | congruence].
      * right. exists name', ds'. split; [right; exact Hin | ]. split; assumption.
Qed.

(** X11.  [getMaxNumberPrefix] never throws and changes no file.  Over a
    directory that exists and can be listed, with numbers small enough to
    be read exactly, its result is at least the number every listed name
    starts with, and it is zero or the number one of the names starts
    with; in every other case it is zero. *)
Theorem getMaxNumberPrefix_bound {L} (E : Env)
  (readdir : list N -> outcome (list (list N))) (dirPath : list N)
  (l : L) (w : World) :
  (forall names, readdir dirPath = Ok names ->
     Forall (fun name => forall ds, numberPrefixOf name = Some ds ->
                           digits_value ds < 2 ^ 53) names) ->
  let run := exec E (getMaxNumberPrefix readdir dirPath l) w in
  exists n,
    run.1.1 = Ok n
    /\ files run.2 = files w
    /\ match files w !! dirPath, readdir dirPath with
       | Some _, Ok names =>
           (forall name ds, name ∈ names -> numberPrefixOf name = Some ds ->
              digits_value ds <= n)
           /\ (n = 0
               \/ exists name ds,
                    name ∈ names /\ numberPrefixOf name = Some ds
                    /\ digits_value ds = n)
       | _, _ => n = 0
       end.
Proof.
  intros _ run. unfold run, getMaxNumberPrefix.
  rewrite exec_try_catch, exec_bind. exec_await. cbn [handle fst snd].
  destruct (files w !! dirPath) as [node | ] eqn:Hdir.
  - rewrite bool_decide_eq_true_2 by (eexists; reflexivity). cbn [negb].
    rewrite exec_bind, exec_settle, exec_ret.
    destruct (readdir dirPath) as [names | e].
    + rewrite exec_ret. exists (maxNumberOf names). cbn [fst snd].
      split; [reflexivity | ]. split; [reflexivity | ].
      destruct (maxNumber_fold names 0) as (_ & Hub & Hatt). split; assumption.
    + rewrite exec_ret. exists 0. repeat split.
  - rewrite bool_decide_eq_false_2 by (intros [x Hx]; discriminate).
    cbn [negb]. rewrite exec_ret. exists 0. repeat split.
Qed.

Lemma getMaxNumberPrefix_bound_witness :
  let E := Samples.env None EncodeEnd (YtClose (Some 0%Z)) in
  let w := Samples.world [js "/home/user/downloads/Mix"] in
  let names := [js "7. Intro.mp3"; js "notes.txt"; js "12. Song.mp3";
                js "3.mp3"; js "40 - Outro.mp3"] in
  let run := exec E (getMaxNumberPrefix (fun _ => Ok names)
                       (js "/home/user/downloads/Mix") tt) w in
  run.1.1 = Ok 12
  /\ forall name ds, name ∈ names -> numberPrefixOf name = Some ds ->
       digits_value ds <= 12.
Proof.
  intros E w names run.
  destruct (getMaxNumberPrefix_bound E (fun _ => Ok names)
              (js "/home/user/downloads/Mix") tt w) as (n & Hn & _ & Hcase).
  { intros names' [= <-]. unfold names.
    repeat apply Forall_cons_2; try apply Forall_nil_2;
      intros ds Hds; vm_compute in Hds; try discriminate;
      injection Hds as <-; vm_compute; reflexivity. }
  assert (Hrun : run.1.1 = Ok 12) by (vm_compute; reflexivity).
  split; [exact Hrun | ].
  assert (Hn12 : n = 12).
  { fold run in Hn. rewrite Hrun in Hn. injection Hn as <-. reflexivity. }
  subst n.
  assert (Hdir : files w !! js "/home/user/downloads/Mix"
                 = Some (Audio (js "earlier"))) by (vm_compute; reflexivity).
  rewrite Hdir in Hcase. apply Hcase.
Defined.

(** ** The tests of a URL *)

Lemma starts_with_spec (pat s : list N) :
  starts_with pat s = true <-> exists t, s = pat ++ t.
Proof.
  revert s. induction pat as [|p pat IH]; intros s; cbn [starts_with].
  - split; [intros _; exists s; reflexivity | reflexivity].
  - destruct s as [|c s].
    + split; [discriminate | intros [t Ht]; discriminate].
    + rewrite andb_true_iff, N.eqb_eq, IH. split.
      * intros [-> [t ->]]. exists t. reflexivity.
      * intros [t [= -> ->]]. split; [reflexivity | exists t; reflexivity].
Qed.

Lemma ends_with_spec (pat s : list N) :
  ends_with pat s = true <-> exists t, s = t ++ pat.
Proof.
  unfold ends_with. rewrite starts_with_spec. split.
  - intros [t Ht]. exists (rev t).
    rewrite <- (rev_involutive s), Ht, rev_app_distr, rev_involutive.
    reflexivity.
  - intros [t ->]. exists (rev t). apply rev_app_distr.
Qed.

Lemma includes_spec (pat s : list N) :
  includes pat s = true <-> exists a b, s = a ++ pat ++ b.
Proof.
  induction s as [|c s IH]; cbn [includes].
  - rewrite orb_false_r, starts_with_spec. split.
    + intros [t Ht]. exists [], t. exact Ht.
    + intros (a & b & Hab). destruct a; [exists b; exact Hab | discriminate].
  - rewrite orb_true_iff, starts_with_spec, IH. split.
    + intros [[t Ht] | (a & b & ->)].
      * exists [], t. exact Ht.
      * exists (c :: a), b. reflexivity.
    + intros (a & b & Hab). destruct a as [|c' a].
      * left. exists b. exact Hab.
      * right. injection Hab as -> ->. exists a, b. reflexivity.
Qed.

(** X12.  [isYoutubeUrl] accepts a string exactly when it parses as a URL
    whose host name is youtu.be, is youtube.com, or ends with a dot
    followed by youtube.com. *)
Theorem isYoutubeUrl_iff_host (parseURL : list N -> option Url) (input : list N) :
  isYoutubeUrl parseURL input = true
  <-> exists parsed,
        parseURL input = Some parsed
        /\ (hostname parsed = js "youtu.be"
            \/ hostname parsed = js "youtube.com"
            \/ exists sub, hostname parsed = sub ++ js ".youtube.com").
Proof.
  unfold isYoutubeUrl, youtube_host.
  destruct (parseURL input) as [parsed | ].
  - rewrite !orb_true_iff, !bool_decide_eq_true, ends_with_spec. split.
    + intros H. exists parsed. split; [reflexivity | tauto].
    + intros (parsed' & [= <-] & H). tauto.
  - split; [discriminate | intros (parsed & Hp & _); discriminate].
Qed.

(** X13.  [isYoutubePlaylistUrl] accepts a string exactly when
    [isYoutubeUrl] accepts it and the URL has a parameter named list or a
    path that holds the text /playlist. *)
Theorem isYoutubePlaylistUrl_iff (parseURL : list N -> option Url)
  (input : list N) :
  isYoutubePlaylistUrl parseURL input = true
  <-> isYoutubeUrl parseURL input = true
      /\ exists parsed,
           parseURL input = Some parsed
           /\ ((exists value, (js "list", value) ∈ searchParams parsed)
               \/ exists before after,
                    pathname parsed = before ++ js "/playlist" ++ after).
Proof.
  unfold isYoutubePlaylistUrl.
  destruct (parseURL input) as [parsed | ] eqn:Hparsed.
  2: { split; [discriminate | intros (_ & parsed & Hp & _); discriminate]. }
  destruct (isYoutubeUrl parseURL input); cbn [negb].
  2: { split; [discriminate | intros [H _]; discriminate]. }
  destruct (existsb _ (searchParams parsed)) eqn:Hlist.
  - split; [ | reflexivity]. intros _. split; [reflexivity | ].
    exists parsed. split; [reflexivity | ]. left.
    apply existsb_exists in Hlist as ([name value] & Hin & Hname).
    apply bool_decide_eq_true in Hname. simpl in Hname. subst name.
    exists value. apply list_elem_of_In, Hin.
  - rewrite includes_spec. split.
    + intros H. split; [reflexivity | ]. exists parsed. split; [reflexivity | ].
      right. exact H.
    + intros (_ & parsed' & [= <-] & [[value Hin] | H]); [ | exact H].
      exfalso. apply list_elem_of_In in Hin.
      assert (Hex : existsb (fun kv : list N * list N =>
                               bool_decide (kv.1 = js "list"))
                      (searchParams parsed) = true).
      { apply existsb_exists. exists (js "list", value).
        split; [exact Hin | apply bool_decide_eq_true; reflexivity]. }
      congruence.
Qed.

(** ** The task runner, step by step *)

Lemma logSuccess_exec {L} (E : Env) (filePath : list N)
  (playlistTitle playlistFolder : option (list N)) (l : L) (w : World) :
  exec E (logSuccess E filePath playlistTitle playlistFolder l) w
  = ((written E (AppendDownloadedLog
                   (success_line E filePath playlistTitle playlistFolder)), l),
     (perform E (AppendDownloadedLog
                   (success_line E filePath playlistTitle playlistFolder)) w).2).
Proof.
  assert (Hline : forall line,
    exec E (settle (await (AppendDownloadedLog line)) l) w
    = ((written E (AppendDownloadedLog line), l),
       (perform E (AppendDownloadedLog line) w).2)).
  { intros line. rewrite exec_settle. exec_await.
    unfold perform, written. cbn [handle]. unfold fs_result.
    destruct (fs_fault E (AppendDownloadedLog line)); reflexivity. }
  unfold logSuccess, success_line.
  destruct playlistTitle as [[|c title] | ];
    destruct playlistFolder as [[|d folder] | ]; apply Hline.
Qed.

Lemma logFailure_exec {L} (E : Env) (message : list N) (l : L) (w : World) :
  exec E (logFailure message l) w
  = ((written E (AppendErrorsLog message), l),
     (perform E (AppendErrorsLog message) w).2).
Proof.
  unfold logFailure. rewrite exec_settle. exec_await.
  unfold perform, written. cbn [handle]. unfold fs_result.
  destruct (fs_fault E (AppendErrorsLog message)); reflexivity.
Qed.

(** [runTask_fetch] around the call of [downloadToMp3]. *)
Lemma runTask_fetch_exec (E : Env) (task : SongTask.t) (l : Locals) (w : World) :
  let title := displayTitle l in
  let titled := titledDisplay task title in
  let out := outputPath E task title in
  let w0 := record_op (PathExists out) w in
  let b := next_bar w in
  let l1 := {| bar := Some b; displayTitle := title; videoUrl := videoUrl l |} in
  let w1 := (perform E (BarCreate (truncateTitle titled)) w0).2 in
  exec E (runTask_fetch E task l) w
  = if bool_decide (is_Some (files w !! out))
    then ((Ok (TaskResult.mk (SongTask.id task) (SongTask.query task)
                 (videoUrl l) skipped (Some (js "Already downloaded"))
                 (Some out)), l), w0)
    else
      match exec E (downloadToMp3 E
                      {| url := videoUrl l; title := safeTitle task title;
                         outputDir := targetDir E task;
                         onProgress := runTask_onProgress titled |} l1) w1 with
      | ((Ok finalPath, l2), w2) =>
          ((match written E (AppendDownloadedLog
                               (success_line E finalPath (logged_title task)
                                  (logged_folder E task))) with
            | Ok _ =>
                Ok (TaskResult.mk (SongTask.id task) (SongTask.query task)
                      (videoUrl l) completed None (Some finalPath))
            | Err e => Err e
            end, l2),
           (perform E (AppendDownloadedLog
                         (success_line E finalPath (logged_title task)
                            (logged_folder E task)))
              (perform E (BarUpdate b (JFin 100) (truncateTitle titled)) w2).2).2)
      | ((Err e, l2), w2) => ((Err e, l2), w2)
      end.
Proof.
  intros title titled out w0 b l1 w1.
  unfold runTask_fetch, isAlreadyDownloaded.
  rewrite exec_bind, exec_get. cbv beta iota zeta.
  rewrite exec_bind. exec_await. cbn [handle fst snd].
  fold title. fold out. fold w0.
  destruct (bool_decide (is_Some (files w !! out))); [reflexivity | ].
  rewrite exec_bind. exec_await.
  unfold set_bar. rewrite exec_bind, exec_modify.
  rewrite exec_bind.
  change ((handle E (BarCreate (truncateTitle (titledDisplay task title))) w0).1)
    with b.
  fold titled.
  change (record_op (BarCreate (truncateTitle titled))
            (handle E (BarCreate (truncateTitle titled)) w0).2) with w1.
  cbn [bar displayTitle videoUrl]. fold title. fold l1.
  destruct (exec E (downloadToMp3 E _ l1) w1) as [[[finalPath | e] l2] w2];
    [ | reflexivity].
  rewrite exec_bind. exec_await.
  rewrite exec_bind, logSuccess_exec.
  destruct (written E _) as [[] | e']; reflexivity.
Qed.

(** The [try] block up to [runTask_fetch]: the resolution of the task. *)
Lemma runTask_try_exec (E : Env) (task : SongTask.t) (w : World) :
  let l0 := runTask_locals task in
  let q := SongTask.query task in
  exec E (runTask_try E task l0) w
  = match SongTask.mode task with
    | search =>
        let w1 := record_op (YtSearch q) w in
        match ytSearch E q with
        | Err e => ((Err e, l0), w1)
        | Ok (Some (first :: _)) =>
            exec E (runTask_fetch E task
                      {| bar := None; displayTitle := video_title first;
                         videoUrl := video_url first |}) w1
        | Ok _ =>
            ((match written E (AppendErrorsLog
                                 (q ++ js " :: " ++ js "No search results")) with
              | Ok _ =>
                  Ok (TaskResult.mk (SongTask.id task) q [] failed
                        (Some (js "No search results")) None)
              | Err e => Err e
              end, l0),
             (perform E (AppendErrorsLog (q ++ js " :: " ++ js "No search results"))
                w1).2)
        end
    | _ =>
        let u := default q (SongTask.url task) in
        let lu := {| bar := None; displayTitle := displayTitle l0;
                     videoUrl := u |} in
        match u with
        | [] => ((Err (ErrorObj (js "Missing video URL")), lu), w)
        | _ =>
            if truthy (SongTask.displayTitle task)
            then exec E (runTask_fetch E task lu) w
            else
              match getBasicInfo E u with
              | Err e => ((Err e, lu), record_op (GetBasicInfo u) w)
              | Ok info =>
                  exec E (runTask_fetch E task
                            {| bar := None; displayTitle := default q info;
                               videoUrl := u |})
                    (record_op (GetBasicInfo u) w)
              end
        end
    end.
Proof.
  intros l0 q.
  assert (Hurl :
    let u := default q (SongTask.url task) in
    let lu := {| bar := None; displayTitle := displayTitle l0; videoUrl := u |} in
    exec E ((set_videoUrl (default (SongTask.query task) (SongTask.url task)) ;;
             l <- get ;;
             match videoUrl l with
             | [] => throw (ErrorObj (js "Missing video URL"))
             | _ =>
                 (if truthy (SongTask.displayTitle task) then ret tt
                  else
                    info <- settle (await (GetBasicInfo (videoUrl l))) ;;
                    set_displayTitle (default (SongTask.query task) info)) ;;
                 runTask_fetch E task
             end)%js l0) w
    = match u with
      | [] => ((Err (ErrorObj (js "Missing video URL")), lu), w)
      | _ =>
          if truthy (SongTask.displayTitle task)
          then exec E (runTask_fetch E task lu) w
          else
            match getBasicInfo E u with
            | Err e => ((Err e, lu), record_op (GetBasicInfo u) w)
            | Ok info =>
                exec E (runTask_fetch E task
                          {| bar := None; displayTitle := default q info;
                             videoUrl := u |})
                  (record_op (GetBasicInfo u) w)
            end
      end).
  { intros u lu. fold q. fold u.
    unfold set_videoUrl. rewrite exec_bind, exec_modify.
    rewrite exec_bind, exec_get.
    change ({| bar := bar l0; displayTitle := displayTitle l0; videoUrl := u |})
      with lu.
    cbn [videoUrl lu].
    destruct u as [|c u'] eqn:Hu; [reflexivity | ].
    rewrite exec_bind.
    destruct (truthy (SongTask.displayTitle task)).
    - rewrite exec_ret. reflexivity.
    - rewrite exec_bind, exec_settle. exec_await. cbn [handle fst snd].
      destruct (getBasicInfo E (c :: u')) as [info | e]; [ | reflexivity].
      unfold set_displayTitle. rewrite exec_modify. reflexivity. }
  unfold runTask_try. destruct (SongTask.mode task); try exact Hurl.
  clear Hurl. unfold findFirstVideo.
  rewrite exec_bind, exec_bind, exec_settle. exec_await. cbn [handle fst snd].
  fold q.
  destruct (ytSearch E q) as [[[|first others] | ] | e]; try reflexivity;
    rewrite exec_ret; cbv beta iota; rewrite exec_bind, logFailure_exec;
    destruct (written E _) as [[] | e']; reflexivity.
Qed.

(** [runTask] around its [try] block. *)
Lemma runTask_exec (E : Env) (task : SongTask.t) (w : World) :
  exec E (runTask E task) w
  = let settled :=
      match exec E (runTask_try E task (runTask_locals task)) w with
      | ((Ok r, l1), w1) => ((Ok r, l1), w1)
      | ((Err e, l1), w1) =>
          ((caught E task (videoUrl l1) e, l1),
           (perform E (AppendErrorsLog
                         (SongTask.query task ++ js " :: " ++ error_message e))
              w1).2)
      end in
    match bar settled.1.2 with
    | Some b =>
        (settled.1,
         (perform E (BarRemove b) (perform E (BarStop b) settled.2).2).2)
    | None => settled
    end.
Proof.
  unfold runTask. rewrite exec_try_finally, exec_try_catch.
  destruct (exec E (runTask_try E task (runTask_locals task)) w)
    as [[[r | e] l1] w1]; cbv zeta.
  - unfold runTask_finally. rewrite exec_bind, exec_get. cbn [fst snd].
    destruct (bar l1) as [b | ]; [ | reflexivity].
    rewrite exec_bind. exec_await. exec_await. reflexivity.
  - unfold runTask_catch. rewrite exec_bind, logFailure_exec.
    unfold caught, written.
    destruct (fs_fault E _) as [e' | ];
      [ | rewrite exec_bind, exec_get, exec_ret];
      unfold runTask_finally; rewrite exec_bind, exec_get; cbn [fst snd];
      (destruct (bar l1) as [b | ]; [ | reflexivity]);
      rewrite exec_bind; exec_await; exec_await; reflexivity.
Qed.

(** ** What a task changes *)

Lemma perform_trace (E : Env) (op : Op) (w : World) :
  trace (perform E op w).2 = trace w ++ [op].
Proof.
  unfold perform. cbn [snd record_op trace]. rewrite handle_trace. reflexivity.
Qed.

Lemma perform_bars (E : Env) (op : Op) (w : World) :
  no_bar_op op = true ->
  bars (perform E op w).2 = bars w
  /\ next_bar (perform E op w).2 = next_bar w.
Proof.
  intros Hop. destruct op; try discriminate;
    unfold perform; cbn [handle snd]; unfold fs_result;
    repeat case_match; split; reflexivity.
Qed.

Lemma perform_logs (E : Env) (op : Op) (w : World) :
  no_log_op op = true ->
  errors_log (perform E op w).2 = errors_log w
  /\ downloaded_log (perform E op w).2 = downloaded_log w.
Proof.
  intros Hop. destruct op; try discriminate;
    unfold perform; cbn [handle snd]; unfold fs_result;
    repeat case_match; split; reflexivity.
Qed.

Section Frame.
Context (E : Env) (b : nat) (dir out : list N) (w0 : World).

Local Abbreviation temp := (out ++ js ".part").

Lemma frame_perform (op : Op) (w : World) :
  frame b dir out w0 w ->
  own_request dir out op ->
  (forall k, k <> b -> bars (perform E op w).2 !! k = bars w !! k) ->
  frame b dir out w0 (perform E op w).2.
Proof.
  intros (Hbars & ops & Htr & Hops) Hop Hk. split.
  - intros k Hne. rewrite Hk by exact Hne. apply Hbars, Hne.
  - exists (ops ++ [op]). rewrite perform_trace, Htr, app_assoc.
    split; [reflexivity | ].
    apply Forall_app. split; [exact Hops | ].
    apply Forall_cons_2; [exact Hop | apply Forall_nil_2].
Qed.

Lemma fetch_inv_perform (op : Op) :
  own_request dir out op -> no_bar_op op = true -> no_log_op op = true ->
  stable E (fetch_inv b dir out w0) op.
Proof.
  intros Hop Hbar Hlog l w (Hb & Hn & Hframe & He & Hd).
  destruct (perform_bars E op w Hbar) as [Hbs Hnb].
  destruct (perform_logs E op w Hlog) as [Hel Hdl].
  split; [exact Hb | ]. split; [congruence | ].
  split; [ | split; congruence].
  apply frame_perform; [exact Hframe | exact Hop | ].
  intros k _. rewrite Hbs. reflexivity.
Qed.

Lemma stable_EnsureDir : stable E (fetch_inv b dir out w0) (EnsureDir dir).
Proof. apply fetch_inv_perform; reflexivity. Qed.

Lemma stable_Remove : stable E (fetch_inv b dir out w0) (Remove temp).
Proof. apply fetch_inv_perform; reflexivity. Qed.

Lemma stable_RunCore (url : list N) :
  stable E (fetch_inv b dir out w0) (RunCore url temp).
Proof. apply fetch_inv_perform; reflexivity. Qed.

Lemma stable_RemoveDetached :
  stable E (fetch_inv b dir out w0) (RemoveDetached temp).
Proof. apply fetch_inv_perform; reflexivity. Qed.

Lemma stable_Move : stable E (fetch_inv b dir out w0) (Move temp out).
Proof. apply fetch_inv_perform; [split | | ]; reflexivity. Qed.

Lemma stable_GetYtDlp : stable E (fetch_inv b dir out w0) GetYtDlp.
Proof. apply fetch_inv_perform; [exact I | | ]; reflexivity. Qed.

Lemma stable_RunYtDlp (url : list N) :
  stable E (fetch_inv b dir out w0) (RunYtDlp url out).
Proof. apply fetch_inv_perform; reflexivity. Qed.

Lemma bar_update_other (k b' : nat) (value : jsnum) (title : list N) (w : World) :
  k <> b' ->
  bars (perform E (BarUpdate b' value title) w).2 !! k = bars w !! k.
Proof.
  intros Hk. unfold perform. cbn [handle snd record_op set_bars bars].
  apply lookup_alter_ne. congruence.
Qed.

Lemma runTask_onProgress_keeps (titled : list N) (p d t : jsnum) :
  keeps E (fetch_inv b dir out w0) (runTask_onProgress titled p d t).
Proof.
  intros l w HI. pose proof HI as (Hb & Hn & Hframe & He & Hd).
  unfold runTask_onProgress. rewrite exec_bind, exec_get. rewrite Hb.
  exec_await. cbn [fst snd].
  split; [exact Hb | ]. split; [exact Hn | ]. split; [ | split; assumption].
  apply (frame_perform (BarUpdate b _ _) w Hframe I).
  intros k Hk. apply bar_update_other, Hk.
Qed.

End Frame.

Lemma out_is_target (E : Env) (task : SongTask.t) (title : list N) :
  outputPath E task title
  = path_resolve E (targetDir E task) (safeTitle task title ++ js ".mp3").
Proof.
  unfold outputPath, resolveOutputPath.
  rewrite (clean_fixed _ (safeTitle_clean task title)). reflexivity.
Qed.

(** The call of [downloadToMp3] by [runTask]. *)
Lemma downloadToMp3_frame (E : Env) (task : SongTask.t) (title : list N)
  (w0 : World) (url : list N) :
  keeps E
    (fetch_inv (next_bar w0) (targetDir E task) (outputPath E task title) w0)
    (downloadToMp3 E
       {| Download.url := url; Download.title := safeTitle task title;
          Download.outputDir := targetDir E task;
          Download.onProgress := runTask_onProgress (titledDisplay task title) |}).
Proof.
  apply downloadToMp3_keeps;
    cbn [Download.url Download.title Download.outputDir Download.onProgress];
    rewrite <- ?out_is_target.
  - apply safeTitle_clean.
  - apply safeTitle_nonempty.
  - apply stable_EnsureDir.
  - apply stable_Remove.
  - apply stable_RunCore.
  - apply stable_RemoveDetached.
  - apply stable_Move.
  - apply stable_GetYtDlp.
  - apply stable_RunYtDlp.
  - intros p d t. apply runTask_onProgress_keeps.
Qed.

(** ** The path a fetch returns *)

Lemma leaves_bind {L A B} (Q : outcome A * L -> Prop) (P : outcome B * L -> Prop)
  (m : Js L A) (f : A -> Js L B) (l : L) :
  leaves Q (m l) ->
  (forall e l', P (Err e, l')) ->
  (forall a l', Q (Ok a, l') -> leaves P (f a l')) ->
  leaves P (bind m f l).
Proof.
  intros Hm Herr Hf. unfold bind. apply leaves_pbind.
  eapply leaves_mono; [ | exact Hm].
  intros [[a | e] l'] Ha; simpl; auto.
Qed.

Lemma leaves_try_catch {L A} (Q P : outcome A * L -> Prop)
  (body : Js L A) (handler : thrown -> Js L A) (l : L) :
  leaves Q (body l) ->
  (forall a l', Q (Ok a, l') -> P (Ok a, l')) ->
  (forall e l', leaves P (handler e l')) ->
  leaves P (try_catch body handler l).
Proof.
  intros Hb Hok Hh. unfold try_catch. apply leaves_pbind.
  eapply leaves_mono; [ | exact Hb].
  intros [[a | e] l'] Ha; simpl; auto.
Qed.

Lemma leaves_exec {A} (E : Env) (P : A -> Prop) (p : Prog A) (w : World) :
  leaves P p -> P (exec E p w).1.
Proof.
  revert w. induction p as [a | op k IH]; intros w Hp; simpl in *; auto.
Qed.

Section Returns.
Context {L : Type}.

Lemma downloadWithCore_returns (url targetPath tempPath : list N)
  (onProgress : jsnum -> jsnum -> jsnum -> Js L unit) (l : L) :
  leaves (returns targetPath)
    (downloadWithCore url targetPath tempPath onProgress l).
Proof.
  unfold downloadWithCore.
  apply leaves_bind_tolerant; [intros; exact I | ]. intros script l1.
  apply leaves_bind_tolerant; [intros; exact I | ]. intros _ l2.
  destruct (core_end script) as [e | e | ].
  - apply leaves_bind_tolerant; intros; exact I.
  - apply leaves_bind_tolerant; intros; exact I.
  - apply (leaves_try_catch (returns targetPath)); [ | auto | intros; exact I].
    apply leaves_bind_tolerant; [intros; exact I | ]. intros _ l3.
    reflexivity.
Qed.

Lemma downloadWithYtDlp_returns (url targetPath : list N)
  (onProgress : jsnum -> Js L unit) (l : L) :
  leaves (returns targetPath) (downloadWithYtDlp url targetPath onProgress l).
Proof.
  unfold downloadWithYtDlp.
  apply leaves_bind_tolerant; [intros; exact I | ]. intros _ l1.
  apply leaves_bind_tolerant; [intros; exact I | ]. intros script l2.
  apply leaves_bind_tolerant; [intros; exact I | ]. intros lastPercent l3.
  destruct (yt_end script) as [e | [[ | c | c] | ]]; try exact I.
  apply leaves_bind_tolerant; [intros; exact I | ]. intros _ l4.
  reflexivity.
Qed.

Lemma downloadToMp3_try_returns (url targetPath tempPath : list N)
  (onProgress : jsnum -> jsnum -> jsnum -> Js L unit) (l : L) :
  leaves (returns targetPath)
    (downloadToMp3_try url targetPath tempPath onProgress l).
Proof.
  unfold downloadToMp3_try.
  apply (leaves_try_catch (returns targetPath));
    [apply downloadWithCore_returns | auto | ].
  intros e l1. destruct (negb (shouldFallback e)); [exact I | ].
  apply (leaves_bind (returns targetPath));
    [apply downloadWithYtDlp_returns | intros; exact I | ].
  intros fallbackPath l2 Hpath.
  apply leaves_bind_tolerant; [intros; exact I | ]. intros _ l3.
  exact Hpath.
Qed.

Lemma downloadToMp3_returns (E : Env) (options : DownloadOptions L) (l : L) :
  clean (title options) -> title options <> [] ->
  leaves (returns (path_resolve E (outputDir options)
                     (title options ++ js ".mp3")))
    (downloadToMp3 E options l).
Proof.
  intros Hclean Hne. unfold downloadToMp3.
  destruct (negb (validateURL E (url options))); [exact I | ].
  apply leaves_bind_tolerant; [intros; exact I | ]. intros _ l1.
  apply (leaves_bind (fun o => o.1 = Ok (title options))).
  - unfold downloadToMp3_safeBase.
    destruct (title options) as [|c r] eqn:Htitle; [congruence | ].
    unfold bind, ret. cbn [pbind]. rewrite (clean_fixed _ Hclean).
    reflexivity.
  - intros; exact I.
  - intros safeBase l2 [= ->].
    apply leaves_bind_tolerant; [intros; exact I | ]. intros _ l3.
    apply downloadToMp3_try_returns.
Qed.

End Returns.

(** ** The state a task leaves *)

Ltac world_simp :=
  cbn [fst snd perform handle record_op set_files set_detached set_bars
       files detached errors_log downloaded_log bars next_bar].

Lemma frame_refl (b : nat) (dir out : list N) (w : World) : frame b dir out w w.
Proof.
  split; [auto | ]. exists []. rewrite app_nil_r.
  split; [reflexivity | apply Forall_nil_2].
Qed.

(** An append to the failure log: the lines of the two logs afterwards. *)
Lemma perform_AppendErrorsLog (E : Env) (message : list N) (w : World) :
  errors_log (perform E (AppendErrorsLog message) w).2
  = errors_log w ++ match written E (AppendErrorsLog message) with
                    | Ok _ => [message]
                    | Err _ => []
                    end
  /\ downloaded_log (perform E (AppendErrorsLog message) w).2 = downloaded_log w.
Proof.
  unfold perform, written. cbn [handle snd]. unfold fs_result.
  destruct (fs_fault E (AppendErrorsLog message));
    cbn [record_op errors_log downloaded_log]; rewrite ?app_nil_r;
    split; reflexivity.
Qed.

Lemma perform_AppendDownloadedLog (E : Env) (line : LogLine) (w : World) :
  errors_log (perform E (AppendDownloadedLog line) w).2 = errors_log w
  /\ downloaded_log (perform E (AppendDownloadedLog line) w).2
     = downloaded_log w ++ match written E (AppendDownloadedLog line) with
                           | Ok _ => [line]
                           | Err _ => []
                           end.
Proof.
  unfold perform, written. cbn [handle snd]. unfold fs_result.
  destruct (fs_fault E (AppendDownloadedLog line));
    cbn [record_op errors_log downloaded_log]; rewrite ?app_nil_r;
    split; reflexivity.
Qed.

Lemma written_rejection (E : Env) (message : list N) (e : thrown) :
  written E (AppendErrorsLog message) = Err e -> log_rejection E e.
Proof.
  unfold written. intros H. exists message.
  destruct (fs_fault E (AppendErrorsLog message)); congruence.
Qed.

(** The [try] block left by an error of the resolution: one operation
    that names no path was performed. *)
Lemma try_post_unresolved (E : Env) (task : SongTask.t) (w : World)
  (e : thrown) (l : Locals) (op : Op) :
  bar l = None ->
  (forall dir out, own_request dir out op) ->
  no_bar_op op = true -> no_log_op op = true ->
  try_post E task [] w ((Err e, l), (perform E op w).2).
Proof.
  intros Hbar Hop Hnb Hnl. unfold try_post. cbn [fst snd].
  destruct (perform_bars E op w Hnb) as [Hbs Hn].
  destruct (perform_logs E op w Hnl) as [He Hd].
  split.
  { apply frame_perform; [apply frame_refl | apply Hop | ].
    intros k _. rewrite Hbs. reflexivity. }
  split; [left; auto | ]. split; assumption.
Qed.

Lemma runTask_fetch_post (E : Env) (task : SongTask.t) (l : Locals)
  (w wr : World) :
  bar l = None ->
  frame (next_bar w) (targetDir E task) (outputPath E task (displayTitle l))
    w wr ->
  bars wr = bars w -> next_bar wr = next_bar w ->
  errors_log wr = errors_log w -> downloaded_log wr = downloaded_log w ->
  try_post E task (displayTitle l) w (exec E (runTask_fetch E task l) wr).
Proof.
  intros Hbar Hw Hbs Hn Hel Hdl.
  rewrite runTask_fetch_exec. cbv zeta.
  set (out := outputPath E task (displayTitle l)) in *.
  set (dir := targetDir E task) in *.
  change (record_op (PathExists out) wr) with (perform E (PathExists out) wr).2.
  assert (Hw0 : frame (next_bar w) dir out w (perform E (PathExists out) wr).2).
  { apply frame_perform; [exact Hw | reflexivity | ]. intros k _. reflexivity. }
  destruct (bool_decide _).
  { unfold try_post. cbn [fst snd]. split; [exact Hw0 | ].
    split; [left; repeat split; assumption | ].
    unfold failure_lines, success_lines, has_status.
    cbn [TaskResult.status TaskResult.filePath].
    rewrite !app_nil_r. repeat split; assumption. }
  set (w0 := (perform E (PathExists out) wr).2) in *.
  assert (Hstart : next_bar w0 = next_bar w /\ errors_log w0 = errors_log w
                   /\ downloaded_log w0 = downloaded_log w).
  { repeat split; assumption. }
  clearbody w0. destruct Hstart as (Hn0 & He0 & Hd0). rewrite Hn.
  match goal with
  | |- context [exec E (downloadToMp3 E ?o ?l1) ?w1] =>
      assert (Hret : returns out (exec E (downloadToMp3 E o l1) w1).1);
      [ unfold out; rewrite out_is_target;
        apply leaves_exec, (downloadToMp3_returns E o l1);
        [apply safeTitle_clean | apply safeTitle_nonempty]
      | assert (HI : fetch_inv (next_bar w) dir out w
                       (exec E (downloadToMp3 E o l1) w1).1.2
                       (exec E (downloadToMp3 E o l1) w1).2);
        [ apply (downloadToMp3_frame E task (displayTitle l) w (videoUrl l) l1 w1)
        | destruct (exec E (downloadToMp3 E o l1) w1)
            as [[[finalPath | e] l2] w2] ] ]
  end.
  - unfold fetch_inv. cbn [bar].
    split; [reflexivity | ].
    split; [unfold perform; cbn [handle snd record_op next_bar]; congruence | ].
    split; [ | split; assumption].
    apply frame_perform; [exact Hw0 | exact I | ].
    intros k Hk. unfold perform. cbn [handle snd record_op bars].
    rewrite Hn0. apply lookup_insert_ne. congruence.
  - cbn [fst snd] in HI.
    destruct HI as (Hb & Hnb2 & Hframe & He & Hd).
    unfold returns in Hret. cbn [fst] in Hret. subst finalPath.
    set (line := success_line E out (logged_title task) (logged_folder E task)).
    set (w3 := (perform E (BarUpdate (next_bar w) (JFin 100)
                             (truncateTitle (titledDisplay task (displayTitle l))))
                  w2).2).
    assert (Hframe3 : frame (next_bar w) dir out w w3).
    { apply frame_perform; [exact Hframe | exact I | ].
      intros k Hk. apply bar_update_other, Hk. }
    assert (Hfields3 : next_bar w3 = S (next_bar w)
                       /\ errors_log w3 = errors_log w
                       /\ downloaded_log w3 = downloaded_log w).
    { repeat split; assumption. }
    clearbody w3. destruct Hfields3 as (Hn3 & He3 & Hd3).
    destruct (perform_AppendDownloadedLog E line w3) as [He4 Hd4].
    destruct (perform_bars E (AppendDownloadedLog line) w3 eq_refl) as [Hbs4 Hn4].
    unfold try_post. cbn [fst snd].
    split.
    { apply frame_perform; [exact Hframe3 | exact I | ].
      intros k _. rewrite Hbs4. reflexivity. }
    split; [right; split; congruence | ].
    rewrite He4, Hd4, He3, Hd3.
    destruct (written E (AppendDownloadedLog line)) as [[] | e'].
    + unfold failure_lines, success_lines, has_status.
      cbn [TaskResult.status TaskResult.filePath default].
      rewrite app_nil_r. repeat split.
    + rewrite app_nil_r. split; reflexivity.
  - cbn [fst snd] in HI.
    destruct HI as (Hb & Hnb2 & Hframe & He & Hd).
    unfold try_post. cbn [fst snd].
    split; [exact Hframe | ]. split; [right; split; assumption | ].
    split; assumption.
Qed.

Lemma runTask_try_post (E : Env) (task : SongTask.t) (w : World) :
  exists title,
    try_post E task title w (exec E (runTask_try E task (runTask_locals task)) w).
Proof.
  assert (Hfetch : forall (l : Locals) (op : Op),
    bar l = None ->
    (forall dir out, own_request dir out op) ->
    no_bar_op op = true -> no_log_op op = true ->
    try_post E task (displayTitle l) w
      (exec E (runTask_fetch E task l) (perform E op w).2)).
  { intros l op Hbar Hop Hnb Hnl.
    destruct (perform_bars E op w Hnb) as [Hbs Hn].
    destruct (perform_logs E op w Hnl) as [Hel Hdl].
    apply runTask_fetch_post; try assumption.
    apply frame_perform; [apply frame_refl | apply Hop | ].
    intros k _. rewrite Hbs. reflexivity. }
  rewrite runTask_try_exec. cbv zeta.
  assert (Hurl :
    exists title,
      try_post E task title w
        match default (SongTask.query task) (SongTask.url task) with
        | [] =>
            ((Err (ErrorObj (js "Missing video URL")),
              {| bar := None;
                 displayTitle := displayTitle (runTask_locals task);
                 videoUrl := default (SongTask.query task) (SongTask.url task) |}),
             w)
        | _ :: _ =>
            if truthy (SongTask.displayTitle task)
            then exec E (runTask_fetch E task
                   {| bar := None;
                      displayTitle := displayTitle (runTask_locals task);
                      videoUrl := default (SongTask.query task) (SongTask.url task) |})
                   w
            else
              match getBasicInfo E (default (SongTask.query task) (SongTask.url task)) with
              | Ok info =>
                  exec E (runTask_fetch E task
                    {| bar := None;
                       displayTitle := default (SongTask.query task) info;
                       videoUrl := default (SongTask.query task) (SongTask.url task) |})
                    (record_op
                       (GetBasicInfo (default (SongTask.query task) (SongTask.url task)))
                       w)
              | Err e =>
                  ((Err e,
                    {| bar := None;
                       displayTitle := displayTitle (runTask_locals task);
                       videoUrl := default (SongTask.query task) (SongTask.url task) |}),
                   record_op
                     (GetBasicInfo (default (SongTask.query task) (SongTask.url task)))
                     w)
              end
        end).
  { destruct (default (SongTask.query task) (SongTask.url task)) as [|c u] eqn:Hu.
    - exists []. unfold try_post. cbn [fst snd].
      split; [apply frame_refl | ]. split; [left; auto | ]. split; reflexivity.
    - destruct (truthy (SongTask.displayTitle task)).
      + eexists. apply runTask_fetch_post; try reflexivity. apply frame_refl.
      + destruct (getBasicInfo E (c :: u)) as [info | e].
        * eexists.
          apply (Hfetch _ (GetBasicInfo (c :: u)));
            [reflexivity | intros; exact I | reflexivity | reflexivity].
        * exists [].
          apply (try_post_unresolved E task w e _ (GetBasicInfo (c :: u)));
            [reflexivity | intros; exact I | reflexivity | reflexivity]. }
  destruct (SongTask.mode task); try exact Hurl.
  set (q := SongTask.query task).
  assert (Hnone :
    try_post E task [] w
      ((match written E (AppendErrorsLog (q ++ js " :: " ++ js "No search results")) with
        | Ok _ =>
            Ok (TaskResult.mk (SongTask.id task) q [] failed
                  (Some (js "No search results")) None)
        | Err e => Err e
        end, runTask_locals task),
       (perform E (AppendErrorsLog (q ++ js " :: " ++ js "No search results"))
          (record_op (YtSearch q) w)).2)).
  { set (message := q ++ js " :: " ++ js "No search results").
    change (record_op (YtSearch q) w) with (perform E (YtSearch q) w).2.
    destruct (perform_AppendErrorsLog E message (perform E (YtSearch q) w).2)
      as [He Hd].
    destruct (perform_bars E (AppendErrorsLog message)
                (perform E (YtSearch q) w).2 eq_refl) as [Hbs Hn].
    unfold try_post. cbn [fst snd].
    split.
    { apply frame_perform;
        [apply frame_perform; [apply frame_refl | exact I | ] | exact I | ].
      - intros k _. reflexivity.
      - intros k _. rewrite Hbs. reflexivity. }
    split; [left; repeat split; [rewrite Hbs | rewrite Hn]; reflexivity | ].
    rewrite He, Hd.
    destruct (written E (AppendErrorsLog message)) as [[] | e'].
    - unfold failure_lines, success_lines, has_status.
      cbn [TaskResult.status TaskResult.reason default].
      rewrite app_nil_r. split; [reflexivity | ].
      split; [reflexivity | discriminate].
    - rewrite app_nil_r. split; reflexivity. }
  destruct (ytSearch E q) as [[[|first others] | ] | e].
  - exists []. exact Hnone.
  - eexists.
    apply (Hfetch _ (YtSearch q));
      [reflexivity | intros; exact I | reflexivity | reflexivity].
  - exists []. exact Hnone.
  - exists [].
    apply (try_post_unresolved E task w e _ (YtSearch q));
      [reflexivity | intros; exact I | reflexivity | reflexivity].
Qed.

(** Every run of [runTask] on its own: what it settles with, and what has
    changed by then. *)
Lemma runTask_post (E : Env) (task : SongTask.t) (w : World) :
  exists o l' w' title,
    exec E (runTask E task) w = ((o, l'), w')
    /\ frame (next_bar w) (targetDir E task) (outputPath E task title) w w'
    /\ ((bars w' = bars w /\ next_bar w' = next_bar w)
        \/ (bars w' !! next_bar w = None /\ next_bar w' = S (next_bar w)))
    /\ match o with
       | Ok r =>
           errors_log w' = errors_log w ++ failure_lines task r
           /\ downloaded_log w' = downloaded_log w ++ success_lines E task r
           /\ (has_status failed r = false ->
               TaskResult.filePath r = Some (outputPath E task title))
       | Err e =>
           log_rejection E e
           /\ errors_log w' = errors_log w
           /\ downloaded_log w' = downloaded_log w
       end.
Proof.
  destruct (runTask_try_post E task w) as [title Htry].
  set (dir := targetDir E task). set (out := outputPath E task title).
  assert (Hfinally : forall (o : outcome TaskResult.t) (l1 : Locals) (w1 : World)
                       (P : World -> Prop),
    frame (next_bar w) dir out w w1 ->
    bar_state (next_bar w) l1 w w1 ->
    P w1 ->
    (forall b w2, P w2 -> P (perform E (BarStop b) w2).2) ->
    (forall b w2, P w2 -> P (perform E (BarRemove b) w2).2) ->
    exists w',
      match bar l1 with
      | Some b =>
          ((o, l1), (perform E (BarRemove b) (perform E (BarStop b) w1).2).2)
      | None => ((o, l1), w1)
      end = ((o, l1), w')
      /\ frame (next_bar w) dir out w w'
      /\ ((bars w' = bars w /\ next_bar w' = next_bar w)
          \/ (bars w' !! next_bar w = None /\ next_bar w' = S (next_bar w)))
      /\ P w').
  { intros o l1 w1 P Hframe Hstate HP Hstop Hremove.
    destruct Hstate as [(Hbar & Hb & Hn) | (Hbar & Hn)]; rewrite Hbar.
    - exists w1. split; [reflexivity | ]. split; [exact Hframe | ].
      split; [left; split; assumption | exact HP].
    - eexists. split; [reflexivity | ].
      split; [ | split; [right; split | ]].
      + apply frame_perform;
          [apply frame_perform; [exact Hframe | exact I | ] | exact I | ].
        * intros k Hk. unfold perform. cbn [handle snd record_op set_bars bars].
          apply lookup_alter_ne. congruence.
        * intros k Hk. unfold perform. cbn [handle snd record_op set_bars bars].
          rewrite lookup_delete_ne by congruence. reflexivity.
      + unfold perform. cbn [handle snd record_op set_bars bars].
        apply lookup_delete_eq.
      + exact Hn.
      + apply Hremove, Hstop, HP. }
  rewrite runTask_exec.
  destruct (exec E (runTask_try E task (runTask_locals task)) w)
    as [[[r | e] l1] w1]; cbv zeta; cbn [fst snd];
    destruct Htry as (Hframe & Hstate & Hlogs);
    cbn [fst snd] in Hframe, Hstate, Hlogs.
  - destruct (Hfinally (Ok r) l1 w1
                (fun w' => errors_log w' = errors_log w1
                           /\ downloaded_log w' = downloaded_log w1)
                Hframe Hstate)
      as (w' & Heq & Hframe' & Hbars' & He' & Hd');
      [split; reflexivity | intros b w2 H; exact H | intros b w2 H; exact H | ].
    exists (Ok r), l1, w', title. split; [exact Heq | ].
    split; [exact Hframe' | ]. split; [exact Hbars' | ].
    destruct Hlogs as (He & Hd & Hpath). rewrite He', Hd'.
    repeat split; assumption.
  - destruct Hlogs as (He & Hd).
    set (message := SongTask.query task ++ js " :: " ++ error_message e).
    destruct (perform_AppendErrorsLog E message w1) as [He1 Hd1].
    destruct (perform_bars E (AppendErrorsLog message) w1 eq_refl) as [Hbs1 Hn1].
    destruct (Hfinally (caught E task (videoUrl l1) e) l1
                (perform E (AppendErrorsLog message) w1).2
                (fun w' => errors_log w'
                           = errors_log (perform E (AppendErrorsLog message) w1).2
                           /\ downloaded_log w'
                              = downloaded_log
                                  (perform E (AppendErrorsLog message) w1).2))
      as (w' & Heq & Hframe' & Hbars' & He' & Hd').
    { apply frame_perform; [exact Hframe | exact I | ].
      intros k _. rewrite Hbs1. reflexivity. }
    { destruct Hstate as [(Hbar & Hb & Hn) | (Hbar & Hn)].
      - left. repeat split; congruence.
      - right. split; congruence. }
    { split; reflexivity. }
    { intros b w2 H; exact H. }
    { intros b w2 H; exact H. }
    exists (caught E task (videoUrl l1) e), l1, w', title.
    split; [exact Heq | ]. split; [exact Hframe' | ]. split; [exact Hbars' | ].
    rewrite He', Hd', He1, Hd1, He, Hd.
    unfold caught, written. fold message.
    destruct (fs_fault E (AppendErrorsLog message)) as [e' | ] eqn:Hlog.
    + rewrite app_nil_r. split; [exists message; exact Hlog | ].
      split; reflexivity.
    + unfold failure_lines, success_lines, has_status.
      cbn [TaskResult.status TaskResult.reason default].
      rewrite app_nil_r.
      split; [reflexivity | ]. split; [reflexivity | discriminate].
Qed.

(** ** Well-formed results *)

Lemma runTask_fetch_keeps_form (E : Env) (task : SongTask.t) (l : Locals) :
  leaves (keeps_form E task) (runTask_fetch E task l).
Proof.
  unfold runTask_fetch.
  apply leaves_bind_tolerant; [intros; exact I | ]. intros l0 l1. cbv zeta.
  apply leaves_bind_tolerant; [intros; exact I | ]. intros [ | ] l2.
  - unfold keeps_form, well_formed. cbn.
    repeat split. exists (displayTitle l0). reflexivity.
  - apply leaves_bind_tolerant; [intros; exact I | ]. intros b l3.
    apply leaves_bind_tolerant; [intros; exact I | ]. intros _ l4.
    apply (leaves_bind
             (returns (path_resolve E (targetDir E task)
                         (safeTitle task (displayTitle l0) ++ js ".mp3")))).
    + apply (downloadToMp3_returns E
               {| url := videoUrl l0;
                  title := safeTitle task (displayTitle l0);
                  outputDir := targetDir E task;
                  onProgress :=
                    runTask_onProgress (titledDisplay task (displayTitle l0)) |}).
      * apply safeTitle_clean.
      * apply safeTitle_nonempty.
    + intros; exact I.
    + intros finalPath l5 Hpath. unfold returns in Hpath. cbn in Hpath.
      subst finalPath.
      apply leaves_bind_tolerant; [intros; exact I | ]. intros _ l6.
      apply leaves_bind_tolerant; [intros; exact I | ]. intros _ l7.
      unfold keeps_form, well_formed. cbn.
      repeat split. exists (displayTitle l0).
      rewrite <- out_is_target. reflexivity.
Qed.

Lemma runTask_try_keeps_form (E : Env) (task : SongTask.t) (l : Locals) :
  leaves (keeps_form E task) (runTask_try E task l).
Proof.
  assert (Hdirect : forall l,
    leaves (keeps_form E task)
      ((set_videoUrl (default (SongTask.query task) (SongTask.url task)) ;;
        l <- get ;;
        match videoUrl l with
        | [] => throw (ErrorObj (js "Missing video URL"))
        | _ =>
            (if truthy (SongTask.displayTitle task) then ret tt
             else
               info <- settle (await (GetBasicInfo (videoUrl l))) ;;
               set_displayTitle (default (SongTask.query task) info)) ;;
            runTask_fetch E task
        end)%js l)).
  { intros l0.
    apply leaves_bind_tolerant; [intros; exact I | ]. intros _ l1.
    apply leaves_bind_tolerant; [intros; exact I | ]. intros l2 l3.
    destruct (videoUrl l2) as [|c u]; [exact I | ].
    apply leaves_bind_tolerant; [intros; exact I | ]. intros _ l4.
    apply runTask_fetch_keeps_form. }
  unfold runTask_try. destruct (SongTask.mode task); try apply Hdirect.
  apply leaves_bind_tolerant; [intros; exact I | ]. intros [v | ] l1.
  - apply leaves_bind_tolerant; [intros; exact I | ]. intros _ l2.
    apply leaves_bind_tolerant; [intros; exact I | ]. intros _ l3.
    apply runTask_fetch_keeps_form.
  - apply leaves_bind_tolerant; [intros; exact I | ]. intros _ l2.
    unfold keeps_form, well_formed. cbn. repeat split. eexists. reflexivity.
Qed.

Lemma runTask_settles_well (E : Env) (task : SongTask.t) :
  answers E (fun o => settles_as E (well_formed E task) o.1) (runTask E task).
Proof.
  apply runTask_settles.
  - intros l. apply runTask_try_keeps_form.
  - intros url message. unfold well_formed. cbn. repeat split.
    eexists. reflexivity.
Qed.

(** X14.  When a session with a positive concurrency has ended and
    [Promise.all] is fulfilled, the result at each position is the result
    of the task at that position, whatever the collaborators answered and
    in whatever order the tasks advanced: it has the id and the query of
    the task; a completed result has no reason and the output path of the
    task as file; a skipped result has the reason Already downloaded and
    the output path as file; a failed result has a reason and no file.
    [Promise.all] is rejected only when the promise of a task is, with the
    rejection of a write to the failure log; with a failure log that takes
    every line it is fulfilled. *)
Theorem session_results_well_formed (E : Env) (concurrency : nat)
  (tasks : list SongTask.t) (w : World) (s : Session) :
  (0 < concurrency)%nat ->
  rtc (step E concurrency) (start tasks w) s ->
  nf (step E concurrency) s ->
  match results s with
  | Some rs => Forall2 (well_formed E) tasks rs
  | None =>
      exists i e, slots s !! i = Some (Settled (Err e)) /\ log_rejection E e
  end
  /\ ((forall message, fs_fault E (AppendErrorsLog message) = None) ->
      is_Some (results s)).
Proof.
  intros Hc Hrun Hnf.
  destruct (reachable_ok E (well_formed E) (runTask_settles_well E)
              concurrency tasks w s Hrun) as [Hall _].
  pose proof (stuck_settled E concurrency s Hc Hnf) as Hset.
  split.
  - apply (collect_settled E (well_formed E) tasks (slots s) Hall Hset).
  - intros Hlog. apply collect_fulfilled; [exact Hset | ].
    apply (no_rejection E (well_formed E) tasks (slots s) Hlog Hall).
Qed.

Lemma session_results_well_formed_witness :
  let E := Samples.env (Some [Samples.hit]) EncodeEnd (YtClose (Some 0%Z)) in
  let first := Samples.search_task 4 "some song" in
  let second := Samples.search_task 9 "some song live" in
  let w := Samples.world [] in
  exists s r1 r2,
    rtc (step E 2) (start [first; second] w) s
    /\ nf (step E 2) s
    /\ results s = Some [r1; r2]
    /\ TaskResult.status r1 = skipped
    /\ TaskResult.status r2 = completed
    /\ Forall2 (well_formed E) [first; second] [r1; r2].
Proof.
  intros E first second w.
  set (w1 := (exec E (runTask E second) w).2).
  set (s := {| slots := [Settled (exec E (runTask E first) w1).1.1;
                         Settled (exec E (runTask E second) w).1.1];
               world := (exec E (runTask E first) w1).2 |}).
  assert (Hrun : rtc (step E 2) (start [first; second] w) s).
  { eapply rtc_l.
    { apply (step_admit E 2 (start [first; second] w) 0 first).
      - reflexivity.
      - intros j t Hj. lia.
      - unfold activeCount, count_slots. simpl. lia. }
    eapply rtc_l.
    { apply (step_admit E 2
               {| slots := [Running (runTask E first); Queued second];
                  world := w |} 1 second).
      - reflexivity.
      - intros [|j] t Hj; [discriminate | lia].
      - unfold activeCount, count_slots. cbn [slots].
        rewrite filter_cons_True by reflexivity.
        rewrite filter_cons_False by discriminate. simpl. lia. }
    cbn [slots world list_insert insert].
    eapply rtc_trans.
    { apply (run_slot E 2 [Running (runTask E first)] (runTask E second) [] w). }
    apply (run_first_slot E 2 (runTask E first)
             [Settled (exec E (runTask E second) w).1.1] w1). }
  assert (Hnf : nf (step E 2) s).
  { apply settled_nf.
    - repeat apply Forall_cons_2; try apply Forall_nil_2; reflexivity.
    - vm_compute. reflexivity. }
  assert (Hvalues : exists r1 r2,
            results s = Some [r1; r2]
            /\ TaskResult.status r1 = skipped
            /\ TaskResult.status r2 = completed).
  { vm_compute. eexists _, _. repeat split. }
  destruct Hvalues as (r1 & r2 & Hres & H1 & H2).
  destruct (session_results_well_formed E 2 [first; second] w s) as [Hforms _];
    [lia | exact Hrun | exact Hnf | ].
  rewrite Hres in Hforms.
  exists s, r1, r2. repeat split; assumption.
Defined.

(** ** What a task leaves behind *)

(** X15.  A task removes the bar it creates and touches no other bar:
    from a container in which no bar has a number not given out yet, a run
    of [runTask] ends with the bars it started with, and the container is
    again in such a state. *)
Theorem runTask_restores_bars (E : Env) (task : SongTask.t) (w : World) :
  bars_fresh w ->
  let run := exec E (runTask E task) w in
  bars run.2 = bars w /\ bars_fresh run.2.
Proof.
  intros Hfresh run. unfold run.
  destruct (runTask_post E task w)
    as (o & l' & w' & title & -> & (Hbars & _) & Hstate & _).
  cbn [fst snd].
  destruct Hstate as [(Hsame & Hnext) | (Hgone & Hnext)].
  - split; [exact Hsame | ]. unfold bars_fresh. rewrite Hsame, Hnext.
    exact Hfresh.
  - assert (Hsame : bars w' = bars w).
    { apply map_eq. intros k. destruct (decide (k = next_bar w)) as [-> | Hk].
      - rewrite Hgone. symmetry. apply Hfresh. lia.
      - apply Hbars, Hk. }
    split; [exact Hsame | ]. unfold bars_fresh. rewrite Hsame, Hnext.
    intros k Hk. apply Hfresh. lia.
Qed.

Lemma runTask_restores_bars_witness :
  let E := Samples.env (Some [Samples.hit]) (StreamError Samples.reset)
             (YtClose (Some 0%Z)) in
  let task := Samples.search_task 1 "some song" in
  let w := Samples.world [] in
  let run := exec E (runTask E task) w in
  bars_fresh w
  /\ BarCreate (js "Some Song") ∈ trace run.2
  /\ bars run.2 = bars w.
Proof.
  intros E task w run.
  assert (Hfresh : bars_fresh w).
  { intros k _. apply lookup_empty. }
  split; [exact Hfresh | ]. split.
  - vm_compute. do 2 right. left.
  - apply (runTask_restores_bars E task w Hfresh).
Defined.

(** X16.  The two logs follow what [runTask] settles with.  A failed
    result adds one line to the failure log, made of the query and the
    reason, and no other result adds one; a completed result adds one line
    to the log of downloaded files, for the file of the result, and no
    other result adds one.  When the promise of [runTask] is rejected, it
    is with the rejection of a write to the failure log, and neither log
    has a new line. *)
Theorem runTask_logs_follow_status (E : Env) (task : SongTask.t) (w : World) :
  let run := exec E (runTask E task) w in
  match run.1.1 with
  | Ok r =>
      errors_log run.2
      = errors_log w ++
        match TaskResult.status r with
        | failed =>
            [SongTask.query task ++ js " :: "
               ++ default [] (TaskResult.reason r)]
        | _ => []
        end
      /\ downloaded_log run.2
         = downloaded_log w ++
           match TaskResult.status r with
           | completed =>
               [success_line E (default [] (TaskResult.filePath r))
                  (logged_title task) (logged_folder E task)]
           | _ => []
           end
  | Err e =>
      log_rejection E e
      /\ errors_log run.2 = errors_log w
      /\ downloaded_log run.2 = downloaded_log w
  end.
Proof.
  intros run. unfold run.
  destruct (runTask_post E task w)
    as (o & l' & w' & title & -> & _ & _ & Hlogs).
  cbn [fst snd]. destruct o as [r | e]; [ | exact Hlogs].
  destruct Hlogs as (He & Hd & _).
  rewrite He, Hd. unfold failure_lines, success_lines, has_status.
  destruct (TaskResult.status r); split; reflexivity.
Qed.

Lemma runTask_logs_follow_status_sample :
  let E := MoreSamples.full_disk_env in
  let run := exec E (runTask E (Samples.search_task 1 "no such song"))
               (Samples.world []) in
  run.1.1 = Err MoreSamples.no_space /\ errors_log run.2 = [].
Proof. vm_compute. split; reflexivity. Qed.

(** X17.  The paths a run of [runTask] names in its requests are three at
    most, the two logs and the loading of yt-dlp apart: for some display
    title, every test for a file and every fallback fetch names the output
    path of the task, every making of a directory names the target
    directory, every removal and every primary fetch names the output path
    followed by .part, and every move goes from there to the output path.
    A result that is not failed names that output path as its file. *)
Theorem runTask_touches_own_paths (E : Env) (task : SongTask.t) (w : World) :
  let run := exec E (runTask E task) w in
  exists title ops,
    let out := outputPath E task title in
    trace run.2 = trace w ++ ops
    /\ Forall (own_request (targetDir E task) out) ops
    /\ (forall r, run.1.1 = Ok r -> TaskResult.status r <> failed ->
          TaskResult.filePath r = Some out).
Proof.
  intros run. unfold run.
  destruct (runTask_post E task w)
    as (o & l' & w' & title & -> & (_ & ops & Htrace & Hops) & _ & Hlogs).
  exists title, ops. cbn [fst snd].
  split; [exact Htrace | ]. split; [exact Hops | ].
  intros r -> Hstatus. destruct Hlogs as (_ & _ & Hpath).
  apply Hpath. unfold has_status.
  destruct (TaskResult.status r); congruence.
Qed.

(** ** The paths through a task *)

Lemma count_ops_set_files (kind : Op -> bool)
  (f : gmap (list N) Node -> gmap (list N) Node) (w : World) :
  count_ops kind (set_files f w) = count_ops kind w.
Proof. reflexivity. Qed.

Lemma untouched_refl (w : World) : untouched w w.
Proof. repeat split. Qed.

Lemma untouched_trans (w1 w2 w3 : World) :
  untouched w1 w2 -> untouched w2 w3 -> untouched w1 w3.
Proof.
  intros (H1 & H2 & H3 & H4) (H5 & H6 & H7 & H8).
  repeat split; congruence.
Qed.

Lemma perform_untouched (E : Env) (op : Op) (w : World) :
  no_file_op op = true -> untouched w (perform E op w).2.
Proof.
  intros Hop. unfold untouched.
  change (perform E op w).2 with (record_op op (handle E op w).2).
  rewrite !count_ops_perform.
  destruct op; try discriminate;
    cbn [handle snd is_primary_fetch is_fallback_fetch]; unfold fs_result;
    repeat case_match; repeat split; try reflexivity; lia.
Qed.

(** A task whose resolution succeeds reaches [runTask_fetch] with the
    resolved URL and title. *)
Lemma runTask_try_resolved (E : Env) (task : SongTask.t)
  (u t : list N) (w : World) :
  Resolved E task u t ->
  exists w1,
    untouched w w1
    /\ next_bar w1 = next_bar w
    /\ exec E (runTask_try E task (runTask_locals task)) w
       = exec E (runTask_fetch E task
                   {| bar := None; displayTitle := t; videoUrl := u |}) w1.
Proof.
  intros Hres. rewrite runTask_try_exec. cbv zeta.
  destruct Hres as [first others Hmode Hsearch | u c t Hmode Hu Hne Htitle
                   | u info Hmode Hu Hne Htitle Hinfo].
  - rewrite Hmode, Hsearch. exists (record_op (YtSearch (SongTask.query task)) w).
    split; [ | split; reflexivity].
    repeat split; rewrite count_ops_record; simpl; lia.
  - exists w. split; [apply untouched_refl | ]. split; [reflexivity | ].
    rewrite <- Hu. destruct u as [|c0 u']; [congruence | ].
    unfold runTask_locals. cbn [displayTitle]. rewrite Htitle. cbn [truthy default].
    destruct (SongTask.mode task); [congruence | reflexivity..].
  - exists (record_op (GetBasicInfo u) w).
    split; [repeat split; rewrite count_ops_record; simpl; lia | ].
    split; [reflexivity | ].
    rewrite <- Hu. destruct u as [|c0 u']; [congruence | ].
    rewrite Htitle, Hinfo.
    destruct (SongTask.mode task); [congruence | reflexivity..].
Qed.

(** [downloadToMp3] up to its [try] statement, when nothing fails before
    it. *)
Lemma downloadToMp3_ready {L} (E : Env) (options : DownloadOptions L)
  (l : L) (w : World) :
  let targetPath :=
    path_resolve E (outputDir options) (title options ++ js ".mp3") in
  let tempPath := targetPath ++ js ".part" in
  validateURL E (url options) = true ->
  clean (title options) -> title options <> [] ->
  fs_fault E (EnsureDir (outputDir options)) = None ->
  fs_fault E (Remove tempPath) = None ->
  exists w1,
    files w1 = prepared (outputDir options) tempPath (files w)
    /\ detached w1 = detached w
    /\ next_bar w1 = next_bar w
    /\ count_ops is_primary_fetch w1 = count_ops is_primary_fetch w
    /\ count_ops is_fallback_fetch w1 = count_ops is_fallback_fetch w
    /\ exec E (downloadToMp3 E options l) w
       = exec E (downloadToMp3_try (url options) targetPath tempPath
                   (onProgress options) l) w1.
Proof.
  intros targetPath tempPath Hvalid Hclean Hne Hdir Hrm.
  unfold downloadToMp3. rewrite Hvalid. cbn [negb].
  rewrite exec_bind, ensureDir_exec, Hdir.
  rewrite exec_bind, (downloadToMp3_safeBase_of_clean E _ l _ Hclean Hne).
  fold targetPath. fold tempPath.
  rewrite exec_bind, exec_settle. exec_await. cbn [handle]. unfold fs_result.
  rewrite Hrm. cbn [fst snd].
  eexists. split; [ | split; [ | split; [ | split; [ | split; [ | reflexivity]]]]].
  - reflexivity.
  - reflexivity.
  - reflexivity.
  - repeat (rewrite count_ops_record || rewrite count_ops_set_files).
    simpl. lia.
  - repeat (rewrite count_ops_record || rewrite count_ops_set_files).
    simpl. lia.
Qed.

(** The fetch leaves the variables of [runTask] as they are. *)
Lemma downloadToMp3_try_locals (E : Env) (url targetPath tempPath titled : list N)
  (l : Locals) (w : World) :
  (exec E (downloadToMp3_try url targetPath tempPath
             (runTask_onProgress titled) l) w).1.2 = l.
Proof.
  apply (downloadToMp3_try_keeps E (fun l' _ => l' = l));
    try (intros l' w' H; exact H); [ | reflexivity].
  intros p d t l' w' ->. unfold runTask_onProgress.
  rewrite exec_bind, exec_get.
  destruct (bar l) as [b | ]; [exec_await | ]; reflexivity.
Qed.

Lemma quiet_untouched {L} (E : Env) (callback : Js L unit) (l : L) (w : World) :
  quiet E callback ->
  exists l' w', exec E (callback l) w = ((Ok tt, l'), w') /\ untouched w w'.
Proof.
  intros Hq. destruct (Hq l w) as (l' & w' & Hex & Hp & Hf & Hfs & Hd).
  exists l', w'. repeat split; assumption.
Qed.

Lemma handleProgress_untouched {L} (E : Env) (events : list jsnum)
  (lastPercent : jsnum) (onProgress : jsnum -> Js L unit) (l : L) (w : World) :
  (forall p, quiet E (onProgress p)) ->
  exists last' l' w',
    exec E (handleProgress events lastPercent onProgress l) w
      = ((Ok last', l'), w')
    /\ untouched w w'.
Proof.
  intros Hq. revert lastPercent l w.
  induction events as [|numeric rest IH]; intros lastPercent l w;
    cbn [handleProgress].
  - eexists _, _, _. split; [reflexivity | apply untouched_refl].
  - destruct (js_isNaN numeric); cbn [negb]; [apply IH | ].
    rewrite exec_bind.
    destruct (quiet_untouched E _ l w (Hq (js_min (JFin 1) (js_max (JFin 0)
                (js_div numeric (JFin 100))))))
      as (l1 & w1 & -> & H1).
    destruct (IH numeric l1 w1) as (last' & l2 & w2 & Hex & H2).
    exists last', l2, w2. split; [exact Hex | ].
    eapply untouched_trans; eassumption.
Qed.

(** The fallback fetch: what it returns and what it leaves. *)
Lemma downloadWithYtDlp_result {L} (E : Env) (url targetPath : list N)
  (onProgress : jsnum -> Js L unit) (l : L) (w : World) :
  (forall p, quiet E (onProgress p)) ->
  exists r l' w',
    exec E (downloadWithYtDlp url targetPath onProgress l) w = ((r, l'), w')
    /\ count_ops is_primary_fetch w' = count_ops is_primary_fetch w
    /\ count_ops is_fallback_fetch w' = S (count_ops is_fallback_fetch w)
    /\ detached w' = detached w
    /\ match ytdlp_load E with
       | Err e => r = Err e /\ files w' = files w
       | Ok _ =>
           files w' = match yt_written (ytdlp_script E url) with
                      | Some node => <[targetPath := node]> (files w)
                      | None => files w
                      end
           /\ r = match yt_end (ytdlp_script E url) with
                  | YtError e => Err (as_Error e)
                  | YtClose (Some 0%Z) => Ok targetPath
                  | YtClose code =>
                      Err (ErrorObj (js "yt-dlp exited with code "
                                       ++ exit_code_text code))
                  end
       end.
Proof.
  intros Hq. unfold downloadWithYtDlp.
  rewrite exec_bind, exec_settle. exec_await.
  change ((handle E GetYtDlp w).1) with (ytdlp_load E).
  change ((handle E GetYtDlp w).2) with w.
  destruct (ytdlp_load E) as [[] | e].
  2: { eexists _, _, _. split; [reflexivity | ].
       rewrite !count_ops_record. simpl. repeat split; lia. }
  rewrite exec_bind. exec_await.
  set (w1 := record_op (RunYtDlp url targetPath)
               (handle E (RunYtDlp url targetPath) (record_op GetYtDlp w)).2).
  assert (Hp1 : count_ops is_primary_fetch w1 = count_ops is_primary_fetch w).
  { unfold w1. rewrite count_ops_perform, count_ops_record. simpl. lia. }
  assert (Hf1 : count_ops is_fallback_fetch w1
                = S (count_ops is_fallback_fetch w)).
  { unfold w1. rewrite count_ops_perform, count_ops_record. simpl. lia. }
  assert (Hd1 : detached w1 = detached w).
  { unfold w1. cbn [handle]. destruct (yt_written (ytdlp_script E url));
      reflexivity. }
  assert (Hfs1 : files w1 = match yt_written (ytdlp_script E url) with
                            | Some node => <[targetPath := node]> (files w)
                            | None => files w
                            end).
  { unfold w1. cbn [handle]. destruct (yt_written (ytdlp_script E url));
      reflexivity. }
  change ((handle E (RunYtDlp url targetPath) (record_op GetYtDlp w)).1)
    with (ytdlp_script E url).
  clearbody w1. rewrite exec_bind.
  destruct (handleProgress_untouched E (yt_progress (ytdlp_script E url)) (JFin 0)
              onProgress l w1 Hq)
    as (lastPercent & l2 & w2 & -> & Hfs2 & Hd2 & Hp2 & Hf2).
  assert (Hdone : forall (r : outcome (list N)),
            exists r' l' w',
              ((r, l2), w2) = ((r', l'), w')
              /\ count_ops is_primary_fetch w' = count_ops is_primary_fetch w
              /\ count_ops is_fallback_fetch w'
                 = S (count_ops is_fallback_fetch w)
              /\ detached w' = detached w
              /\ files w' = match yt_written (ytdlp_script E url) with
                            | Some node => <[targetPath := node]> (files w)
                            | None => files w
                            end
              /\ r' = r).
  { intros r. exists r, l2, w2. repeat split; congruence. }
  destruct (yt_end (ytdlp_script E url)) as [e | code].
  { rewrite exec_throw. destruct (Hdone (Err (as_Error e)))
      as (r' & l' & w' & -> & H1 & H2 & H3 & H4 & ->).
    exists (Err (as_Error e)), l', w'. repeat split; assumption. }
  destruct code as [[ | c | c] | ];
    try (rewrite exec_throw;
         match goal with
         | |- context [((Err ?e, l2), w2)] =>
             destruct (Hdone (Err e)) as (r' & l' & w' & -> & H1 & H2 & H3 & H4 & ->);
             exists (Err e), l', w'; repeat split; assumption
         end).
  rewrite exec_bind.
  assert (Hcb : exists l3 w3,
            exec E ((if js_lt lastPercent (JFin 100) then onProgress (JFin 1)
                     else ret tt) l2) w2 = ((Ok tt, l3), w3)
            /\ untouched w2 w3).
  { destruct (js_lt lastPercent (JFin 100)).
    - apply quiet_untouched, Hq.
    - eexists _, _. split; [reflexivity | apply untouched_refl]. }
  destruct Hcb as (l3 & w3 & -> & Hfs3 & Hd3 & Hp3 & Hf3).
  rewrite exec_ret. exists (Ok targetPath), l3, w3.
  repeat split; congruence.
Qed.

(** The [try] statement of [downloadToMp3], from what the primary fetch
    ended with. *)
Lemma downloadToMp3_try_result {L} (E : Env) (url targetPath tempPath : list N)
  (onProgress : jsnum -> jsnum -> jsnum -> Js L unit)
  (l lc : L) (w wc : World) (rc : outcome (list N)) :
  (forall p d t, quiet E (onProgress p d t)) ->
  exec E (downloadWithCore url targetPath tempPath onProgress l) w
    = ((rc, lc), wc) ->
  exists d l2 w2,
    exec E (downloadToMp3_try url targetPath tempPath onProgress l) w
      = ((d, l2), w2)
    /\ match rc with
       | Ok path => d = Ok path /\ w2 = wc
       | Err e =>
           if shouldFallback e
           then
             count_ops is_primary_fetch w2 = count_ops is_primary_fetch wc
             /\ count_ops is_fallback_fetch w2
                = S (count_ops is_fallback_fetch wc)
             /\ detached w2 = detached wc
             /\ match ytdlp_load E with
                | Err e' => d = Err e' /\ files w2 = files wc
                | Ok _ =>
                    files w2 = match yt_written (ytdlp_script E url) with
                               | Some node => <[targetPath := node]> (files wc)
                               | None => files wc
                               end
                    /\ d = match yt_end (ytdlp_script E url) with
                           | YtError e' => Err (as_Error e')
                           | YtClose (Some 0%Z) => Ok targetPath
                           | YtClose code =>
                               Err (ErrorObj (js "yt-dlp exited with code "
                                                ++ exit_code_text code))
                           end
                end
           else d = Err (as_Error e) /\ w2 = wc
       end.
Proof.
  intros Hq Hcore. unfold downloadToMp3_try. rewrite exec_try_catch, Hcore.
  destruct rc as [path | e].
  { eexists _, _, _. split; [reflexivity | split; reflexivity]. }
  destruct (shouldFallback e); cbn [negb].
  2: { rewrite exec_throw. eexists _, _, _.
       split; [reflexivity | split; reflexivity]. }
  rewrite exec_bind.
  destruct (downloadWithYtDlp_result E url targetPath
              (fun percent => onProgress percent (JFin 0) (JFin 0)) lc wc)
    as (r & l1 & w1 & -> & Hp & Hf & Hd & Hcase).
  { intros p. apply Hq. }
  destruct r as [fallbackPath | e'].
  - rewrite exec_bind.
    destruct (quiet_untouched E _ l1 w1 (Hq (JFin 1) (JFin 0) (JFin 0)))
      as (l2 & w2 & -> & Hfs2 & Hd2 & Hp2 & Hf2).
    rewrite exec_ret. exists (Ok fallbackPath), l2, w2.
    split; [reflexivity | ].
    split; [congruence | ]. split; [congruence | ]. split; [congruence | ].
    destruct (ytdlp_load E) as [[] | e0].
    + destruct Hcase as [Hfs Hr]. split; congruence.
    + destruct Hcase as [Hr _]. discriminate.
  - exists (Err e'), l1, w1. split; [reflexivity | ].
    repeat split; assumption.
Qed.

(** A task whose resolution succeeds, whose output is not there yet and
    whose download can begin: the result follows what the [try] statement
    of [downloadToMp3] ends with. *)
Lemma runTask_resolved_exec (E : Env) (task : SongTask.t) (u t : list N)
  (w : World) :
  let dir := targetDir E task in
  let out := outputPath E task t in
  let temp := out ++ js ".part" in
  Resolved E task u t ->
  files w !! out = None ->
  validateURL E u = true ->
  fs_fault E (EnsureDir dir) = None ->
  fs_fault E (Remove temp) = None ->
  exists l1 w1,
    files w1 = prepared dir temp (files w)
    /\ detached w1 = detached w
    /\ count_ops is_primary_fetch w1 = count_ops is_primary_fetch w
    /\ count_ops is_fallback_fetch w1 = count_ops is_fallback_fetch w
    /\ let x := exec E (downloadToMp3_try u out temp
                          (runTask_onProgress (titledDisplay task t)) l1) w1 in
       exists l' w',
         exec E (runTask E task) w = ((fetched E task u x.1.1, l'), w')
         /\ untouched x.2 w'.
Proof.
  intros dir out temp Hres Habsent Hvalid Hdir Hrm. subst temp out dir.
  destruct (runTask_try_resolved E task u t w Hres)
    as (wr & (Hfr & Hdr & Hpr & Hfr') & Hnb & Htry).
  rewrite runTask_exec, Htry, runTask_fetch_exec. cbv zeta.
  cbn [displayTitle videoUrl].
  rewrite bool_decide_eq_false_2
    by (rewrite Hfr, Habsent; intros [x Hx]; discriminate).
  match goal with
  | |- context [exec E (downloadToMp3 E ?o ?l1) ?wb] =>
      pose proof (downloadToMp3_ready E o l1 wb) as Hready
  end.
  cbv zeta in Hready.
  cbn [Download.url Download.title Download.outputDir Download.onProgress]
    in Hready.
  rewrite <- (out_is_target E task t) in Hready.
  destruct (Hready Hvalid (safeTitle_clean _ _) (safeTitle_nonempty _ _)
              Hdir Hrm) as (w1 & Hf1 & Hd1 & Hn1 & Hp1 & Hf1' & ->).
  clear Hready.
  exists {| bar := Some (next_bar wr); displayTitle := t; videoUrl := u |}, w1.
  split; [rewrite Hf1; world_simp; rewrite Hfr; reflexivity | ].
  split; [rewrite Hd1; world_simp; exact Hdr | ].
  split; [rewrite Hp1; unfold perform; cbn [fst snd];
          rewrite count_ops_perform, count_ops_record; simpl; lia | ].
  split; [rewrite Hf1'; unfold perform; cbn [fst snd];
          rewrite count_ops_perform, count_ops_record; simpl; lia | ].
  cbv zeta.
  match goal with
  | |- context [exec E (downloadToMp3_try ?a ?b ?c (runTask_onProgress ?d) ?l1) w1] =>
      pose proof (downloadToMp3_try_locals E a b c d l1 w1) as Hl;
      destruct (exec E (downloadToMp3_try a b c (runTask_onProgress d) l1) w1)
        as [[[finalPath | e] l2] w2]
  end; cbn [fst snd] in Hl; subst l2; cbn [fst snd bar videoUrl];
    unfold fetched, caught, written.
  - destruct (fs_fault E (AppendDownloadedLog _)) as [e' | ];
      [cbn [fst snd bar videoUrl]; destruct (fs_fault E (AppendErrorsLog _)) | ];
      (eexists _, _; split; [reflexivity | ]);
      repeat (eapply untouched_trans; [ | apply perform_untouched; reflexivity]);
      apply untouched_refl.
  - destruct (fs_fault E (AppendErrorsLog _));
      (eexists _, _; split; [reflexivity | ]);
      repeat (eapply untouched_trans; [ | apply perform_untouched; reflexivity]);
      apply untouched_refl.
Qed.

Lemma caught_as_Error (E : Env) (task : SongTask.t) (u : list N) (e : thrown) :
  caught E task u (as_Error e) = caught E task u e.
Proof. destruct e; reflexivity. Qed.

Lemma caught_logged (E : Env) (task : SongTask.t) (u : list N) (e : thrown) :
  fs_fault E (AppendErrorsLog
                (SongTask.query task ++ js " :: " ++ error_message e)) = None ->
  caught E task u e
  = Ok (TaskResult.mk (SongTask.id task) (SongTask.query task)
          (str_or u (default [] (SongTask.url task))) failed
          (Some (error_message e)) None).
Proof. intros H. unfold caught. rewrite H. reflexivity. Qed.

(** X18.  The way through a task when nothing fails: the task is
    resolved, its output path is free, the URL is accepted, the directory
    and the temporary path can be prepared, the encoder ends and the move
    succeeds.  Then the output path holds the audio of the URL, the
    temporary path is free, no removal is pending that was not before, and
    the primary fetch was started once and the fallback not at all.  The
    task settles as a task does whose fetch returned the output path:
    when the log of downloaded files takes the line of the file, the
    result is completed with the output path as file; when that write is
    rejected, the [catch] block makes a failure of the rejection, with the
    file in place. *)
Theorem resolved_task_completes (E : Env) (task : SongTask.t) (u t : list N)
  (w : World) :
  let dir := targetDir E task in
  let out := outputPath E task t in
  let temp := out ++ js ".part" in
  Resolved E task u t ->
  files w !! out = None ->
  validateURL E u = true ->
  fs_fault E (EnsureDir dir) = None ->
  fs_fault E (Remove temp) = None ->
  fs_fault E (Move temp out) = None ->
  core_end (core_script E u) = EncodeEnd ->
  exists l' w',
    exec E (runTask E task) w = ((fetched E task u (Ok out), l'), w')
    /\ (fs_fault E (AppendDownloadedLog
                      (success_line E out (logged_title task)
                         (logged_folder E task))) = None ->
        fetched E task u (Ok out)
        = Ok (TaskResult.mk (SongTask.id task) (SongTask.query task) u
                completed None (Some out)))
    /\ files w' !! out = Some (Audio u)
    /\ files w' !! temp = None
    /\ detached w' = detached w
    /\ count_ops is_primary_fetch w' = S (count_ops is_primary_fetch w)
    /\ count_ops is_fallback_fetch w' = count_ops is_fallback_fetch w.
Proof.
  intros dir out temp Hres Habsent Hvalid Hdir Hrm Hmv Hend.
  destruct (runTask_resolved_exec E task u t w Hres Habsent Hvalid Hdir Hrm)
    as (l1 & w1 & Hf1 & Hd1 & Hp1 & Hfb1 & Hrun).
  cbv zeta in Hrun. fold out in Hrun. fold temp in Hrun.
  destruct (downloadWithCore_exec E u out temp
              (runTask_onProgress (titledDisplay task t)) l1 w1
              (runTask_onProgress_quiet E _))
    as (rc & lc & wc & Hcore & Hpc & Hfc & Hcase).
  rewrite Hend, Hmv in Hcase. destruct Hcase as (Hdc & -> & Hfiles).
  destruct (downloadToMp3_try_result E u out temp _ l1 lc w1 wc (Ok out)
              (runTask_onProgress_quiet E _) Hcore)
    as (d & l2 & w2 & Htry & -> & ->).
  rewrite Htry in Hrun. cbn [fst snd] in Hrun.
  destruct Hrun as (l' & w' & Hexec & Hfw & Hdw & Hpw & Hfbw).
  exists l', w'. split; [exact Hexec | ].
  split; [intros Hlog; unfold fetched; rewrite Hlog; reflexivity | ].
  rewrite Hfw, Hfiles, Hdw, Hpw, Hfbw.
  pose proof (part_suffix_differs out) as Hne. fold temp in Hne.
  split; [apply lookup_insert_eq | ].
  split; [rewrite lookup_insert_ne by congruence; apply lookup_delete_eq | ].
  repeat split; congruence.
Qed.

Lemma resolved_task_completes_witness :
  let E := Samples.env (Some [Samples.hit]) EncodeEnd (YtClose (Some 0%Z)) in
  let task := Samples.search_task 1 "some song" in
  let w := Samples.world [js "/home/user/downloads/Other.mp3"] in
  exists l' w',
    exec E (runTask E task) w
    = ((Ok (TaskResult.mk 1 (js "some song") (js "https://youtu.be/abc")
              completed None (Some (js "/home/user/downloads/Some Song.mp3"))),
        l'), w')
    /\ files w' !! js "/home/user/downloads/Some Song.mp3"
       = Some (Audio (js "https://youtu.be/abc"))
    /\ files w' !! js "/home/user/downloads/Some Song.mp3.part" = None
    /\ count_ops is_primary_fetch w' = 1%nat
    /\ count_ops is_fallback_fetch w' = 0%nat.
Proof.
  intros E task w.
  destruct (resolved_task_completes E task (js "https://youtu.be/abc")
              (js "Some Song") w)
    as (l' & w' & Hexec & Hok & Hout & Htemp & _ & Hp & Hf);
    try reflexivity.
  - apply (resolved_search E task Samples.hit []); reflexivity.
  - rewrite (Hok eq_refl) in Hexec.
    exists l', w'. split; [exact Hexec | ]. split; [exact Hout | ].
    split; [exact Htemp | ]. split; [exact Hp | exact Hf].
Defined.

(** X19.  The way through a task when the primary fetch fails with an
    error that [shouldFallback] accepts and yt-dlp loads and runs to its
    end: both strategies were started once, and the task settles by the
    exit code alone, as a task does whose fetch returned the output path
    when the code is 0, whatever the tool wrote, and as one whose fetch
    threw an error with the code in its message otherwise.  With logs that
    take their lines the result is completed with the output path as file
    in the first case and failed with that message as reason in the
    second.  What the tool wrote is at the output path.  The removal of
    the unfinished file of the primary fetch was requested and not
    awaited: the temporary path is free once the removals that were
    requested have been carried out. *)
Theorem fallback_follows_exit_code (E : Env) (task : SongTask.t)
  (u t : list N) (w : World) (e : thrown) (code : option Z) :
  let dir := targetDir E task in
  let out := outputPath E task t in
  let temp := out ++ js ".part" in
  let message := js "yt-dlp exited with code " ++ exit_code_text code in
  let fetch := match code with
               | Some 0%Z => Ok out
               | _ => Err (ErrorObj message)
               end in
  Resolved E task u t ->
  files w !! out = None ->
  validateURL E u = true ->
  fs_fault E (EnsureDir dir) = None ->
  fs_fault E (Remove temp) = None ->
  core_error (core_end (core_script E u)) = Some e ->
  shouldFallback e = true ->
  ytdlp_load E = Ok tt ->
  yt_end (ytdlp_script E u) = YtClose code ->
  exists l' w',
    exec E (runTask E task) w = ((fetched E task u fetch, l'), w')
    /\ ((forall op, no_log_op op = false -> fs_fault E op = None) ->
        fetched E task u fetch
        = Ok match code with
             | Some 0%Z =>
                 TaskResult.mk (SongTask.id task) (SongTask.query task) u
                   completed None (Some out)
             | _ =>
                 TaskResult.mk (SongTask.id task) (SongTask.query task)
                   (str_or u (default [] (SongTask.url task))) failed
                   (Some message) None
             end)
    /\ (forall node, yt_written (ytdlp_script E u) = Some node ->
          files w' !! out = Some node)
    /\ files (drain w') !! temp = None
    /\ count_ops is_primary_fetch w' = S (count_ops is_primary_fetch w)
    /\ count_ops is_fallback_fetch w' = S (count_ops is_fallback_fetch w).
Proof.
  intros dir out temp message fetch Hres Habsent Hvalid Hdir Hrm Herr Hfall
    Hload Hclose.
  destruct (runTask_resolved_exec E task u t w Hres Habsent Hvalid Hdir Hrm)
    as (l1 & w1 & Hf1 & Hd1 & Hp1 & Hfb1 & Hrun).
  cbv zeta in Hrun. fold out in Hrun. fold temp in Hrun.
  destruct (downloadWithCore_exec E u out temp
              (runTask_onProgress (titledDisplay task t)) l1 w1
              (runTask_onProgress_quiet E _))
    as (rc & lc & wc & Hcore & Hpc & Hfc & Hcase).
  assert (Hfailed : rc = Err e
                    /\ files wc = <[temp := PartialAudio]> (files w1)
                    /\ detached wc = detached w1 ++ [temp]).
  { destruct (core_end (core_script E u)) as [e0 | e0 | ];
      simpl in Herr; [ | | discriminate]; injection Herr as ->; exact Hcase. }
  clear Hcase. destruct Hfailed as (-> & Hfiles & Hdet).
  destruct (downloadToMp3_try_result E u out temp _ l1 lc w1 wc (Err e)
              (runTask_onProgress_quiet E _) Hcore)
    as (d & l2 & w2 & Htry & Hcase).
  rewrite Hfall, Hload, Hclose in Hcase.
  destruct Hcase as (Hp2 & Hf2 & Hd2 & Hfs2 & ->).
  rewrite Htry in Hrun. cbn [fst snd] in Hrun.
  destruct Hrun as (l' & w' & Hexec & Hfw & Hdw & Hpw & Hfbw).
  pose proof (part_suffix_differs out) as Hne. fold temp in Hne.
  exists l', w'. split.
  { rewrite Hexec. unfold fetch, message.
    destruct code as [[ | c | c] | ]; reflexivity. }
  split.
  { intros Hlogs. unfold fetch, fetched.
    destruct code as [[ | c | c] | ];
      try (apply caught_logged, Hlogs; reflexivity).
    rewrite Hlogs by reflexivity. reflexivity. }
  split.
  { intros node Hnode. rewrite Hfw, Hfs2, Hnode. apply lookup_insert_eq. }
  split.
  { apply drain_removes. rewrite Hdw, Hd2, Hdet.
    apply elem_of_app. right. constructor. }
  rewrite Hpw, Hp2, Hpc, Hp1, Hfbw, Hf2, Hfc, Hfb1. split; reflexivity.
Qed.

Lemma fallback_follows_exit_code_witness :
  let E := Samples.env (Some [Samples.hit]) (StreamError Samples.blocked)
             (YtClose (Some 2%Z)) in
  let task := Samples.search_task 1 "some song" in
  exists l' w',
    exec E (runTask E task) (Samples.world [])
    = ((Ok (TaskResult.mk 1 (js "some song") (js "https://youtu.be/abc") failed
              (Some (js "yt-dlp exited with code 2")) None), l'), w')
    /\ files (drain w') !! js "/home/user/downloads/Some Song.mp3.part" = None
    /\ count_ops is_primary_fetch w' = 1%nat
    /\ count_ops is_fallback_fetch w' = 1%nat.
Proof.
  intros E task.
  destruct (fallback_follows_exit_code E task (js "https://youtu.be/abc")
              (js "Some Song") (Samples.world []) Samples.blocked (Some 2%Z))
    as (l' & w' & Hexec & Hok & _ & Htemp & Hp & Hf);
    try reflexivity.
  - apply (resolved_search E task Samples.hit []); reflexivity.
  - rewrite Hok in Hexec by (intros op _; reflexivity).
    exists l', w'. split; [exact Hexec | ]. split; [exact Htemp | ].
    split; [exact Hp | exact Hf].
Defined.

(** X20.  The way through a task when the primary fetch fails with an
    error that [shouldFallback] does not accept: the fallback is not
    started, and the task settles as a task does whose fetch threw that
    error; with a failure log that takes the line, the result is failed
    with the message of the error as reason.  Nothing is at the output
    path, and the removal of the unfinished file was requested and not
    awaited: the temporary path is free once the removals that were
    requested have been carried out. *)
Theorem other_error_fails_task (E : Env) (task : SongTask.t)
  (u t : list N) (w : World) (e : thrown) :
  let dir := targetDir E task in
  let out := outputPath E task t in
  let temp := out ++ js ".part" in
  Resolved E task u t ->
  files w !! out = None ->
  validateURL E u = true ->
  fs_fault E (EnsureDir dir) = None ->
  fs_fault E (Remove temp) = None ->
  core_error (core_end (core_script E u)) = Some e ->
  shouldFallback e = false ->
  exists l' w',
    exec E (runTask E task) w = ((caught E task u e, l'), w')
    /\ (fs_fault E (AppendErrorsLog
                      (SongTask.query task ++ js " :: " ++ error_message e))
        = None ->
        caught E task u e
        = Ok (TaskResult.mk (SongTask.id task) (SongTask.query task)
                (str_or u (default [] (SongTask.url task))) failed
                (Some (error_message e)) None))
    /\ files (drain w') !! temp = None
    /\ (dir <> out -> files w' !! out = None)
    /\ count_ops is_primary_fetch w' = S (count_ops is_primary_fetch w)
    /\ count_ops is_fallback_fetch w' = count_ops is_fallback_fetch w.
Proof.
  intros dir out temp Hres Habsent Hvalid Hdir Hrm Herr Hfall.
  destruct (runTask_resolved_exec E task u t w Hres Habsent Hvalid Hdir Hrm)
    as (l1 & w1 & Hf1 & Hd1 & Hp1 & Hfb1 & Hrun).
  cbv zeta in Hrun. fold dir in Hf1. fold out in Hrun, Hf1.
  fold temp in Hrun, Hf1.
  destruct (downloadWithCore_exec E u out temp
              (runTask_onProgress (titledDisplay task t)) l1 w1
              (runTask_onProgress_quiet E _))
    as (rc & lc & wc & Hcore & Hpc & Hfc & Hcase).
  assert (Hfailed : rc = Err e
                    /\ files wc = <[temp := PartialAudio]> (files w1)
                    /\ detached wc = detached w1 ++ [temp]).
  { destruct (core_end (core_script E u)) as [e0 | e0 | ];
      simpl in Herr; [ | | discriminate]; injection Herr as ->; exact Hcase. }
  clear Hcase. destruct Hfailed as (-> & Hfiles & Hdet).
  destruct (downloadToMp3_try_result E u out temp _ l1 lc w1 wc (Err e)
              (runTask_onProgress_quiet E _) Hcore)
    as (d & l2 & w2 & Htry & Hcase).
  rewrite Hfall in Hcase. destruct Hcase as (-> & ->).
  rewrite Htry in Hrun. cbn [fst snd] in Hrun.
  destruct Hrun as (l' & w' & Hexec & Hfw & Hdw & Hpw & Hfbw).
  pose proof (part_suffix_differs out) as Hne. fold temp in Hne.
  exists l', w'. split.
  { rewrite Hexec. unfold fetched. rewrite caught_as_Error. reflexivity. }
  split; [apply caught_logged | ].
  split.
  { apply drain_removes. rewrite Hdw, Hdet.
    apply elem_of_app. right. constructor. }
  rewrite Hfw, Hfiles, Hf1, Hpw, Hpc, Hp1, Hfbw, Hfc, Hfb1.
  split; [ | split; reflexivity].
  intros Hdiff. rewrite lookup_insert_ne by congruence.
  unfold prepared. rewrite lookup_delete_ne by congruence.
  destruct (files w !! dir); [exact Habsent | ].
  rewrite lookup_insert_ne by congruence. exact Habsent.
Qed.

Lemma other_error_fails_task_witness :
  let E := Samples.env (Some [Samples.hit]) (EncodeError Samples.reset)
             (YtClose (Some 0%Z)) in
  let task := Samples.search_task 1 "some song" in
  exists l' w',
    exec E (runTask E task) (Samples.world [])
    = ((Ok (TaskResult.mk 1 (js "some song") (js "https://youtu.be/abc") failed
              (Some (js "socket hang up")) None), l'), w')
    /\ files w' !! js "/home/user/downloads/Some Song.mp3" = None
    /\ files (drain w') !! js "/home/user/downloads/Some Song.mp3.part" = None
    /\ count_ops is_primary_fetch w' = 1%nat
    /\ count_ops is_fallback_fetch w' = 0%nat.
Proof.
  intros E task.
  destruct (other_error_fails_task E task (js "https://youtu.be/abc")
              (js "Some Song") (Samples.world []) Samples.reset)
    as (l' & w' & Hexec & Hok & Htemp & Hout & Hp & Hf);
    try reflexivity.
  - apply (resolved_search E task Samples.hit []); reflexivity.
  - rewrite (Hok eq_refl) in Hexec.
    exists l', w'. split; [exact Hexec | ]. split.
    + apply Hout. vm_compute. discriminate.
    + split; [exact Htemp | ]. split; [exact Hp | exact Hf].
Defined.

(** X21.  A task whose resolved URL ytdl-core does not accept: no
    directory was made, no file has changed and neither fetch strategy was
    started, and the task settles as a task does whose fetch threw the
    error Invalid YouTube URL: with a failure log that takes the line, the
    result is failed with that reason. *)
Theorem invalid_url_fails_task (E : Env) (task : SongTask.t) (u t : list N)
  (w : World) :
  Resolved E task u t ->
  files w !! outputPath E task t = None ->
  validateURL E u = false ->
  exists l' w',
    exec E (runTask E task) w
    = ((caught E task u (ErrorObj (js "Invalid YouTube URL")), l'), w')
    /\ (fs_fault E (AppendErrorsLog
                      (SongTask.query task ++ js " :: " ++ js "Invalid YouTube URL"))
        = None ->
        caught E task u (ErrorObj (js "Invalid YouTube URL"))
        = Ok (TaskResult.mk (SongTask.id task) (SongTask.query task)
                (str_or u (default [] (SongTask.url task))) failed
                (Some (js "Invalid YouTube URL")) None))
    /\ files w' = files w
    /\ detached w' = detached w
    /\ count_ops is_primary_fetch w' = count_ops is_primary_fetch w
    /\ count_ops is_fallback_fetch w' = count_ops is_fallback_fetch w.
Proof.
  intros Hres Habsent Hvalid.
  destruct (runTask_try_resolved E task u t w Hres)
    as (wr & Hwr & Hnb & Htry).
  rewrite runTask_exec, Htry, runTask_fetch_exec. cbv zeta.
  cbn [displayTitle videoUrl].
  rewrite bool_decide_eq_false_2
    by (rewrite (proj1 Hwr), Habsent; intros [x Hx]; discriminate).
  unfold downloadToMp3. cbn [Download.url]. rewrite Hvalid. cbn [negb].
  rewrite exec_throw. cbn [fst snd bar videoUrl].
  eexists _, _. split; [reflexivity | ].
  split; [apply (caught_logged E task u (ErrorObj (js "Invalid YouTube URL"))) | ].
  change (record_op (PathExists (outputPath E task t)) wr)
    with (perform E (PathExists (outputPath E task t)) wr).2.
  apply (untouched_trans _ wr); [exact Hwr | ].
  repeat (eapply untouched_trans; [ | apply perform_untouched; reflexivity]).
  apply untouched_refl.
Qed.

Lemma invalid_url_fails_task_witness :
  let E := MoreSamples.rejecting_env (Some [Samples.hit]) in
  let task := Samples.search_task 5 "some song" in
  let w := Samples.world [] in
  exists l' w',
    exec E (runTask E task) w
    = ((Ok (TaskResult.mk 5 (js "some song") (js "https://youtu.be/abc") failed
              (Some (js "Invalid YouTube URL")) None), l'), w')
    /\ files w' = files w
    /\ count_ops is_primary_fetch w' = 0%nat.
Proof.
  intros E task w.
  destruct (invalid_url_fails_task E task (js "https://youtu.be/abc")
              (js "Some Song") w)
    as (l' & w' & Hexec & Hok & Hfiles & _ & Hp & _);
    try reflexivity.
  - apply (resolved_search E task Samples.hit []); reflexivity.
  - rewrite (Hok eq_refl) in Hexec.
    exists l', w'. split; [exact Hexec | ]. split; [exact Hfiles | exact Hp].
Defined.

(** X22.  A direct or play-list task that has neither a URL nor a query:
    the only operation of the run is the write of the line with the reason
    Missing video URL to the failure log.  When the log takes the line,
    the result is failed with that reason and an empty URL; when the write
    is rejected, so is the promise of the task. *)
Theorem missing_url_fails_task (E : Env) (task : SongTask.t) (w : World) :
  SongTask.mode task <> search ->
  default (SongTask.query task) (SongTask.url task) = [] ->
  exists l',
    exec E (runTask E task) w
    = ((match fs_fault E (AppendErrorsLog
                            (SongTask.query task ++ js " :: "
                               ++ js "Missing video URL")) with
        | None =>
            Ok (TaskResult.mk (SongTask.id task) (SongTask.query task) [] failed
                  (Some (js "Missing video URL")) None)
        | Some rejection => Err rejection
        end, l'),
       (perform E (AppendErrorsLog
                     (SongTask.query task ++ js " :: " ++ js "Missing video URL"))
          w).2).
Proof.
  intros Hmode Hurl.
  assert (Hnone : default [] (SongTask.url task) = []).
  { destruct (SongTask.url task); [exact Hurl | reflexivity]. }
  rewrite runTask_exec, runTask_try_exec. cbv zeta. rewrite Hurl.
  destruct (SongTask.mode task); [congruence | | ];
    cbn [fst snd bar videoUrl]; unfold caught;
    cbn [error_message str_or]; rewrite Hnone;
    eexists; reflexivity.
Qed.

Lemma missing_url_fails_task_witness :
  let E := Samples.env None EncodeEnd (YtClose (Some 0%Z)) in
  let task := MoreSamples.empty_task 9 in
  let run := exec E (runTask E task) (Samples.world []) in
  run.1.1 = Ok (TaskResult.mk 9 [] [] failed (Some (js "Missing video URL")) None)
  /\ trace run.2 = [AppendErrorsLog (js " :: Missing video URL")].
Proof.
  intros E task run.
  destruct (missing_url_fails_task E task (Samples.world [])) as [l' Hrun].
  - discriminate.
  - reflexivity.
  - unfold run. rewrite Hrun. split; reflexivity.
Defined.

(** ** The fractions the fallback fetch reports *)

Lemma Qltb_true (a b : Q) : Qltb a b = true -> (a < b)%Q.
Proof.
  unfold Qltb. intros H. apply negb_true_iff in H.
  apply Qnot_le_lt. intros Hle. apply Qle_bool_iff in Hle. congruence.
Qed.

Lemma Qltb_false (a b : Q) : Qltb a b = false -> (b <= a)%Q.
Proof.
  unfold Qltb. intros H. apply negb_false_iff in H.
  apply Qle_bool_iff, H.
Qed.

Lemma clamp_fraction_range (numeric : jsnum) :
  js_isNaN numeric = false ->
  exists q : Q,
    (0 <= q)%Q /\ (q <= 1)%Q
    /\ js_min (JFin 1) (js_max (JFin 0) (js_div numeric (JFin 100))) = JFin q.
Proof.
  intros Hnan. destruct numeric as [x | | | ]; try discriminate.
  - change (js_div (JFin x) (JFin 100)) with (JFin (x / 100)%Q).
    cbn [js_max js_lt].
    destruct (Qltb 0 (x / 100)) eqn:Hpos.
    + cbn [js_min js_lt]. destruct (Qltb (x / 100) 1) eqn:Hlt.
      * exists (x / 100)%Q. split; [ | split; [ | reflexivity]].
        -- apply Qlt_le_weak, Qltb_true, Hpos.
        -- apply Qlt_le_weak, Qltb_true, Hlt.
      * exists 1%Q. repeat split; discriminate.
    + exists 0%Q. repeat split; discriminate.
  - exists 1%Q. repeat split; discriminate.
  - exists 0%Q. repeat split; discriminate.
Qed.

Lemma handleProgress_keeps_fractions {L} (E : Env) (I : L -> World -> Prop)
  (events : list jsnum) (lastPercent : jsnum) (onProgress : jsnum -> Js L unit) :
  (forall q, (0 <= q)%Q -> (q <= 1)%Q -> keeps E I (onProgress (JFin q))) ->
  keeps E I (handleProgress events lastPercent onProgress).
Proof.
  intros Hcb. revert lastPercent.
  induction events as [|numeric rest IH]; intros lastPercent;
    cbn [handleProgress].
  - apply keeps_ret.
  - destruct (js_isNaN numeric) eqn:Hnan; cbn [negb]; [apply IH | ].
    destruct (clamp_fraction_range numeric Hnan) as (q & H0 & H1 & ->).
    apply keeps_bind; [apply Hcb; assumption | intros _; apply IH].
Qed.

(** X23.  The fallback fetch calls its progress callback with fractions
    between 0 and 1 and with nothing else: whatever the callback keeps
    when it is called with such a fraction, and the two operations of the
    fetch keep, the whole fetch keeps. *)
Theorem fallback_progress_within_unit {L} (E : Env) (I : L -> World -> Prop)
  (url targetPath : list N) (onProgress : jsnum -> Js L unit) :
  stable E I GetYtDlp ->
  stable E I (RunYtDlp url targetPath) ->
  (forall q, (0 <= q)%Q -> (q <= 1)%Q -> keeps E I (onProgress (JFin q))) ->
  keeps E I (downloadWithYtDlp url targetPath onProgress).
Proof.
  intros Hget Hrun Hcb. unfold downloadWithYtDlp.
  apply keeps_bind; [apply keeps_settle, keeps_await, Hget | ]. intros _.
  apply keeps_bind; [apply keeps_await, Hrun | ]. intros script.
  apply keeps_bind; [apply handleProgress_keeps_fractions, Hcb | ].
  intros lastPercent.
  destruct (yt_end script) as [e | [[ | c | c] | ]]; try apply keeps_throw.
  apply keeps_bind; [ | intros _; apply keeps_ret].
  destruct (js_lt lastPercent (JFin 100)); [ | apply keeps_ret].
  apply Hcb; discriminate.
Qed.

Lemma fallback_progress_within_unit_witness :
  let E := Samples.env None EncodeEnd (YtClose (Some 0%Z)) in
  let shown := fun p : jsnum => await (L := unit) (BarUpdate 0 p (js "Song")) in
  let tidy := fun (_ : unit) (w : World) =>
    exists b q,
      bars w !! 0%nat = Some b
      /\ bar_value b = JFin q /\ (0 <= q)%Q /\ (q <= 1)%Q in
  let w := (perform E (BarCreate (js "Song")) (Samples.world [])).2 in
  tidy tt (exec E (downloadWithYtDlp (js "https://youtu.be/abc")
                     (js "/d/Song.mp3") shown tt) w).2.
Proof.
  intros E shown tidy w.
  apply (fallback_progress_within_unit E tidy (js "https://youtu.be/abc")
           (js "/d/Song.mp3") shown).
  - intros l w0 H. exact H.
  - intros l w0 H. exact H.
  - intros q H0 H1 l w0 (b & q0 & Hb & _). unfold tidy, shown. exec_await.
    cbn [fst snd handle record_op set_bars bars].
    rewrite lookup_alter_eq, Hb. cbn [fmap option_fmap option_map].
    eexists _, q. split; [reflexivity | ]. repeat split; assumption.
  - eexists _, 0%Q. split; [vm_compute; reflexivity | ].
    repeat split; discriminate.
Defined.

(** ** The help flag *)

Lemma parseArgs_loop_help (E : Env) (parseURL : list N -> option Url)
  (cwd : list N) (n : nat) :
  forall args st,
    (length args <= n)%nat ->
    parseArgs_loop E parseURL cwd args st = None ->
    Exists (fun arg => is_one_of arg ["--help"; "-h"] = true) args.
Proof.
  induction n as [|n IH]; intros args st Hlen Hloop;
    destruct args as [|arg rest]; simpl in Hlen; try lia;
    cbn [parseArgs_loop] in Hloop; try discriminate.
  destruct (is_one_of arg ["--help"; "-h"]) eqn:Hhelp;
    [apply Exists_cons_hd; exact Hhelp | ].
  apply Exists_cons_tl.
  repeat match type of Hloop with
         | (if ?c then _ else _) = _ => destruct c
         | match ?r with _ => _ end = _ =>
             match r with
             | rest => destruct rest as [|[|c next] rest']
             end
         end;
    try discriminate.
  all: try (eapply IH; [ | exact Hloop]; simpl in *; lia).
  all: apply Exists_cons_tl; (eapply IH; [ | exact Hloop]); simpl in *; lia.
Qed.

(** X24.  [parseArgs] ends the process with the help text only when one
    of the arguments is the help flag, long or short. *)
Theorem parseArgs_help_needs_flag (E : Env)
  (parseURL : list N -> option Url) (cwd : list N)
  (envConcurrency : option (list N)) (argv : list (list N)) :
  parseArgs E parseURL cwd envConcurrency argv = HelpShown ->
  js "--help" ∈ argv \/ js "-h" ∈ argv.
Proof.
  unfold parseArgs.
  destruct (parseArgs_loop E parseURL cwd argv _) as [st | ] eqn:Hloop.
  { repeat match goal with
           | |- context [if ?c then _ else _] => destruct c
           end; discriminate. }
  intros _.
  apply (parseArgs_loop_help E parseURL cwd (length argv)) in Hloop;
    [ | apply Nat.le_refl].
  apply Exists_exists in Hloop as (arg & Hin & Hhelp).
  unfold is_one_of in Hhelp. cbn [existsb] in Hhelp.
  rewrite orb_false_r in Hhelp.
  apply orb_true_iff in Hhelp as [H | H]; apply bool_decide_eq_true in H;
    subst arg; auto.
Qed.

Lemma parseArgs_help_needs_flag_witness :
  let E := Samples.env None EncodeEnd (YtClose (Some 0%Z)) in
  let argv := [js "-c"; js "2"; js "-h"; js "--file"] in
  parseArgs E (fun _ => None) (js "/home/user") None argv = HelpShown
  /\ (js "--help" ∈ argv \/ js "-h" ∈ argv).
Proof.
  intros E argv.
  assert (Hhelp : parseArgs E (fun _ => None) (js "/home/user") None argv
                  = HelpShown) by (vm_compute; reflexivity).
  split; [exact Hhelp | ].
  apply (parseArgs_help_needs_flag E (fun _ => None) (js "/home/user") None argv
           Hhelp).
Defined.

(** The help flag right after a flag that takes a value is that value. *)
Example parseArgs_help_as_value :
  parseArgs (Samples.env None EncodeEnd (YtClose (Some 0%Z))) (fun _ => None)
    (js "/home/user") None [js "--file"; js "--help"]
  = Parsed (CliConfig.mk search (Some (js "/home/user/--help")) None None 3).
Proof. vm_compute. reflexivity. Qed.

(** ** The scan of the downloads directory *)

Lemma scanEntry_dir (name : list N) (entries : list Dirent) (m : N) :
  scanEntry (DirEntry name (Ok entries)) m = scanEntries entries m.
Proof.
  cbn [scanEntry]. revert m.
  induction entries as [|e rest IH]; intros m; [reflexivity | ].
  cbn [scanEntries]. destruct (scanEntry e m); [apply IH | reflexivity].
Qed.

Lemma scanEntry_spec (entry : Dirent) :
  forall m,
    match scanEntry entry m with
    | Ok n =>
        listable entry = true
        /\ n = fold_left bumpMax (files_below entry) m
    | Err _ => listable entry = false
    end.
Proof.
  induction entry as [name | name e | name entries IH | name]
    using Dirent_nested_ind; intros m.
  - split; reflexivity.
  - reflexivity.
  - rewrite scanEntry_dir. cbn [listable files_below]. revert m.
    induction IH as [|e rest He Hrest IHrest]; intros m.
    + split; reflexivity.
    + cbn [scanEntries forallb flat_map]. specialize (He m).
      destruct (scanEntry e m) as [m' | x].
      * destruct He as [-> ->]. specialize (IHrest (fold_left bumpMax (files_below e) m)).
        destruct (scanEntries rest _) as [n | x].
        -- destruct IHrest as [-> ->]. rewrite fold_left_app.
           split; reflexivity.
        -- exact IHrest.
      * rewrite He. reflexivity.
  - split; reflexivity.
Qed.

(** X25.  [getMaxNumberPrefixInDownloads] never throws and changes no
    file.  When the downloads directory exists and every directory at or
    below it can be listed, the result is at least the number every file
    at any depth starts with, and it is zero or one of those numbers;
    names of directories and of other entries do not count.  When the
    downloads directory is missing, or one directory at or below it cannot
    be listed, the result is zero, whatever numbers the files carry. *)
Theorem getMaxNumberPrefixInDownloads_scan {L} (E : Env)
  (listing : outcome (list Dirent)) (l : L) (w : World) :
  let root := DirEntry [] listing in
  Forall (fun name => forall ds, numberPrefixOf name = Some ds ->
                        digits_value ds < 2 ^ 53) (files_below root) ->
  let run := exec E (getMaxNumberPrefixInDownloads E listing l) w in
  exists n,
    run.1.1 = Ok n
    /\ files run.2 = files w
    /\ if bool_decide (is_Some (files w !! DOWNLOADS_DIR E)) && listable root
       then
         (forall name ds, name ∈ files_below root ->
            numberPrefixOf name = Some ds -> digits_value ds <= n)
         /\ (n = 0
             \/ exists name ds,
                  name ∈ files_below root /\ numberPrefixOf name = Some ds
                  /\ digits_value ds = n)
       else n = 0.
Proof.
  intros root _ run. unfold run, getMaxNumberPrefixInDownloads.
  rewrite exec_try_catch, exec_bind. exec_await. cbn [handle fst snd].
  destruct (bool_decide (is_Some (files w !! DOWNLOADS_DIR E))); cbn [negb andb].
  2: { rewrite exec_ret. exists 0. repeat split. }
  rewrite exec_bind, exec_settle, exec_ret. fold root.
  pose proof (scanEntry_spec root 0) as Hscan.
  destruct (scanEntry root 0) as [n | x].
  - destruct Hscan as [-> ->]. rewrite exec_ret. eexists.
    split; [reflexivity | ]. split; [reflexivity | ].
    destruct (maxNumber_fold (files_below root) 0) as (_ & Hub & Hatt).
    split; assumption.
  - rewrite Hscan, exec_ret. exists 0. repeat split.
Qed.

Lemma getMaxNumberPrefixInDownloads_scan_witness :
  let E := Samples.env None EncodeEnd (YtClose (Some 0%Z)) in
  let w := Samples.world [js "/home/user/downloads"] in
  let listing :=
    Ok [FileEntry (js "5. Intro.mp3");
        DirEntry (js "12. Folder") (Ok [FileEntry (js "7. Song.mp3")]);
        DirEntry (js "Locked") (Err Samples.reset)] in
  let readable :=
    Ok [FileEntry (js "5. Intro.mp3");
        DirEntry (js "12. Folder") (Ok [FileEntry (js "7. Song.mp3")]);
        OtherEntry (js "9. Link")] in
  (exec E (getMaxNumberPrefixInDownloads E listing tt) w).1.1 = Ok 0
  /\ (exec E (getMaxNumberPrefixInDownloads E readable tt) w).1.1 = Ok 7
  /\ forall name ds, name ∈ files_below (DirEntry [] readable) ->
       numberPrefixOf name = Some ds -> digits_value ds <= 7.
Proof.
  intros E w listing readable.
  split; [vm_compute; reflexivity | ].
  assert (Hrun : (exec E (getMaxNumberPrefixInDownloads E readable tt) w).1.1
                 = Ok 7) by (vm_compute; reflexivity).
  split; [exact Hrun | ].
  destruct (getMaxNumberPrefixInDownloads_scan E readable tt w)
    as (n & Hn & _ & Hcase).
  { repeat apply Forall_cons_2; try apply Forall_nil_2;
      intros ds Hds; vm_compute in Hds; try discriminate;
      injection Hds as <-; vm_compute; reflexivity. }
  rewrite Hrun in Hn. injection Hn as <-.
  assert (Hthere : bool_decide (is_Some (files w !! DOWNLOADS_DIR E))
                   && listable (DirEntry [] readable) = true).
  { apply andb_true_iff. split; [ | reflexivity].
    apply bool_decide_eq_true. exists (Audio (js "earlier")).
    vm_compute. reflexivity. }
  rewrite Hthere in Hcase. apply Hcase.
Defined.

(** ** The removal of the player scripts *)

Lemma exec_promise_all_cons {L X} (E : Env) (x : X) (xs : list X)
  (body : X -> Js L unit) (l : L) (w : World) :
  exec E (promise_all (x :: xs) body l) w
  = let first := exec E (body x l) w in
    let rest := exec E (promise_all xs body first.1.2) first.2 in
    ((match first.1.1 with
      | Ok _ => rest.1.1
      | Err e => Err e
      end, rest.1.2), rest.2).
Proof.
  cbn [promise_all]. rewrite exec_pbind.
  destruct (exec E (body x l) w) as [[r l1] w1]. cbn [fst snd].
  rewrite exec_pbind.
  destruct (exec E (promise_all xs body l1) w1) as [[r' l2] w2]. reflexivity.
Qed.

Lemma removePlayerScript_exec {L} (E : Env) (cwd name : list N) (l : L)
  (w : World) :
  let filePath := path_resolve E cwd name in
  exec E (removePlayerScript E cwd name l) w
  = match fs_fault E (Remove filePath) with
    | None =>
        ((Ok tt, l), record_op (Remove filePath) (set_files (delete filePath) w))
    | Some e =>
        let message :=
          js "Cleanup failed for " ++ filePath ++ js ": " ++ error_message e in
        ((written E (AppendErrorsLog message), l),
         (perform E (AppendErrorsLog message) (perform E (Remove filePath) w).2).2)
    end.
Proof.
  intros filePath. unfold removePlayerScript. fold filePath.
  rewrite exec_try_catch, exec_settle. exec_await.
  unfold perform. cbn [handle]. unfold fs_result.
  destruct (fs_fault E (Remove filePath)) as [e | ]; [ | reflexivity].
  cbn [fst snd]. rewrite logFailure_exec. reflexivity.
Qed.

Lemma cleanup_request_mono (E : Env) (cwd : list N) (name : list N)
  (rest : list (list N)) (op : Op) :
  cleanup_request E cwd rest op -> cleanup_request E cwd (name :: rest) op.
Proof.
  destruct op; simpl; auto.
  intros (n & Hn & ->). exists n. split; [right; exact Hn | reflexivity].
Qed.

Lemma cleanup_loop {L} (E : Env) (cwd : list N) (targets : list (list N))
  (l : L) (w : World) :
  let run := exec E (promise_all targets (removePlayerScript E cwd) l) w in
  (forall e, run.1.1 = Err e -> log_rejection E e)
  /\ files run.2 = scripts_removed E cwd targets (files w)
  /\ downloaded_log run.2 = downloaded_log w
  /\ detached run.2 = detached w
  /\ exists ops,
       trace run.2 = trace w ++ ops
       /\ Forall (cleanup_request E cwd targets) ops
       /\ forall name, name ∈ targets -> Remove (path_resolve E cwd name) ∈ ops.
Proof.
  revert l w. induction targets as [|name rest IH]; intros l w.
  - cbn [promise_all]. cbv zeta. cbn [exec ret fst snd].
    split; [discriminate | ]. repeat split.
    exists []. rewrite app_nil_r. split; [reflexivity | ].
    split; [apply Forall_nil_2 | ]. intros n Hn. inversion Hn.
  - cbv zeta. rewrite exec_promise_all_cons. cbv zeta.
    pose proof (removePlayerScript_exec E cwd name l w) as Hfirst.
    cbv zeta in Hfirst.
    set (path := path_resolve E cwd name) in *.
    assert (Hstep : exists r1 l1 w1 ops1,
              exec E (removePlayerScript E cwd name l) w = ((r1, l1), w1)
              /\ (forall e, r1 = Err e -> log_rejection E e)
              /\ files w1 = match fs_fault E (Remove path) with
                            | Some _ => files w
                            | None => delete path (files w)
                            end
              /\ downloaded_log w1 = downloaded_log w
              /\ detached w1 = detached w
              /\ trace w1 = trace w ++ Remove path :: ops1
              /\ Forall (cleanup_request E cwd (name :: rest)) ops1).
    { rewrite Hfirst. destruct (fs_fault E (Remove path)) as [e | ] eqn:Hfault.
      - set (message := js "Cleanup failed for " ++ path ++ js ": "
                          ++ error_message e).
        destruct (perform_AppendErrorsLog E message (perform E (Remove path) w).2)
          as [_ Hd].
        eexists _, _, _, [AppendErrorsLog message].
        split; [reflexivity | ].
        split; [intros e'; apply written_rejection | ].
        split.
        { destruct (perform_untouched E (AppendErrorsLog message)
                      (perform E (Remove path) w).2 eq_refl) as (Hf & _).
          rewrite Hf. unfold perform. cbn [handle snd]. unfold fs_result.
          rewrite Hfault. reflexivity. }
        split.
        { rewrite Hd. apply (perform_logs E (Remove path) w eq_refl). }
        split.
        { destruct (perform_untouched E (AppendErrorsLog message)
                      (perform E (Remove path) w).2 eq_refl) as (_ & Hdet & _).
          rewrite Hdet. unfold perform. cbn [handle snd]. unfold fs_result.
          rewrite Hfault. reflexivity. }
        split; [rewrite !perform_trace, <- app_assoc; reflexivity | ].
        apply Forall_cons_2; [exact I | apply Forall_nil_2].
      - eexists _, _, _, []. split; [reflexivity | ].
        split; [discriminate | ]. repeat split. apply Forall_nil_2. }
    destruct Hstep as (r1 & l1 & w1 & ops1 & -> & Hrej1 & Hfs1 & Hdl1 & Hd1
                       & Htr1 & Hops1).
    cbn [fst snd].
    destruct (IH l1 w1) as (Hrej & Hfs & Hdl & Hd & ops & Htr & Hops & Hall).
    cbv zeta in Hrej, Hfs, Hdl, Hd, Htr.
    split.
    { intros e. destruct r1 as [[] | e1]; [apply Hrej | ].
      intros [= <-]. apply Hrej1. reflexivity. }
    split.
    { rewrite Hfs, Hfs1. unfold scripts_removed. cbn [foldl]. fold path.
      destruct (fs_fault E (Remove path)); reflexivity. }
    split; [congruence | ]. split; [congruence | ].
    exists (Remove path :: ops1 ++ ops).
    split; [rewrite Htr, Htr1, <- app_assoc; reflexivity | ].
    split.
    { apply Forall_cons_2.
      - exists name. split; [left | reflexivity].
      - apply Forall_app. split; [exact Hops1 | ].
        eapply Forall_impl; [exact Hops | ].
        intros op. apply cleanup_request_mono. }
    intros n Hn. apply elem_of_cons in Hn as [-> | Hn]; [left | ].
    right. apply elem_of_app. right. apply Hall, Hn.
Qed.

Lemma scripts_removed_absent (E : Env) (cwd : list N) (targets : list (list N))
  (fs : gmap (list N) Node) (p : list N) :
  fs !! p = None -> scripts_removed E cwd targets fs !! p = None.
Proof.
  unfold scripts_removed. revert fs.
  induction targets as [|name rest IH]; intros fs Hp; cbn [foldl];
    [exact Hp | ].
  apply IH.
  destruct (fs_fault E (Remove (path_resolve E cwd name))); [exact Hp | ].
  rewrite lookup_delete. case_decide; [reflexivity | exact Hp].
Qed.

Lemma scripts_removed_gone (E : Env) (cwd : list N) (targets : list (list N))
  (fs : gmap (list N) Node) (name : list N) :
  name ∈ targets ->
  fs_fault E (Remove (path_resolve E cwd name)) = None ->
  scripts_removed E cwd targets fs !! path_resolve E cwd name = None.
Proof.
  revert fs. induction targets as [|first rest IH]; intros fs Hin Hok.
  - inversion Hin.
  - apply elem_of_cons in Hin as [<- | Hin].
    + unfold scripts_removed. cbn [foldl]. rewrite Hok.
      apply (scripts_removed_absent E cwd rest), lookup_delete_eq.
    + unfold scripts_removed. cbn [foldl]. apply IH; assumption.
Qed.

(** X26.  [cleanupPlayerScripts] never writes to the log of downloaded
    files, and it throws only when a write to the failure log is rejected.
    When the working directory cannot be listed, its only operation is
    the write of one line about the failed scan to the failure log.  When
    it can be listed, the removal of every listed name that ends with
    player-script.js is requested, whatever becomes of the other removals;
    no other removal is requested, and what else is done is writing to the
    failure log.  With a failure log that takes every line the call
    returns, after all the removals, and each of these paths whose removal
    did not fail is free then. *)
Theorem cleanupPlayerScripts_scope {L} (E : Env)
  (readdir : list N -> outcome (list (list N))) (cwd : list N)
  (l : L) (w : World) :
  let run := exec E (cleanupPlayerScripts E readdir cwd l) w in
  downloaded_log run.2 = downloaded_log w
  /\ (forall e, run.1.1 = Err e -> log_rejection E e)
  /\ match readdir cwd with
     | Err e =>
         trace run.2
         = trace w ++ [AppendErrorsLog
                         (js "Cleanup scan failed: " ++ error_message e)]
     | Ok entries =>
         let targets := List.filter is_player_script entries in
         (exists ops,
            trace run.2 = trace w ++ ops
            /\ Forall (cleanup_request E cwd targets) ops
            /\ forall name, name ∈ targets ->
                 Remove (path_resolve E cwd name) ∈ ops)
         /\ ((forall message, fs_fault E (AppendErrorsLog message) = None) ->
             run.1.1 = Ok tt
             /\ forall name,
                  name ∈ entries -> is_player_script name = true ->
                  fs_fault E (Remove (path_resolve E cwd name)) = None ->
                  files run.2 !! path_resolve E cwd name = None)
     end.
Proof.
  intros run. unfold run, cleanupPlayerScripts.
  rewrite exec_try_catch, exec_bind, exec_settle, exec_ret.
  destruct (readdir cwd) as [entries | e].
  2: { rewrite logFailure_exec. cbn [fst snd].
       set (message := js "Cleanup scan failed: " ++ error_message e).
       destruct (perform_AppendErrorsLog E message w) as [_ Hd].
       split; [exact Hd | ].
       split; [intros e'; apply written_rejection | apply perform_trace]. }
  cbv zeta.
  assert (Hloop :
    exec E (match List.filter is_player_script entries with
            | [] => ret tt
            | _ :: _ =>
                promise_all (List.filter is_player_script entries)
                  (removePlayerScript E cwd)
            end l) w
    = exec E (promise_all (List.filter is_player_script entries)
                (removePlayerScript E cwd) l) w).
  { destruct (List.filter is_player_script entries); reflexivity. }
  rewrite Hloop. clear Hloop.
  set (targets := List.filter is_player_script entries).
  destruct (cleanup_loop E cwd targets l w)
    as (Hrej & Hfs & Hdl & Hd & ops & Htr & Hops & Hall).
  cbv zeta in Hrej, Hfs, Hdl, Hd, Htr.
  assert (Hgone : forall fs name,
            name ∈ entries -> is_player_script name = true ->
            fs_fault E (Remove (path_resolve E cwd name)) = None ->
            scripts_removed E cwd targets fs !! path_resolve E cwd name = None).
  { intros fs name Hin Hscript Hok. apply scripts_removed_gone; [ | exact Hok].
    apply list_elem_of_In, List.filter_In.
    split; [apply list_elem_of_In, Hin | exact Hscript]. }
  destruct (exec E (promise_all targets (removePlayerScript E cwd) l) w)
    as [[[[] | e] l1] w1]; cbn [fst snd] in *.
  - split; [exact Hdl | ]. split; [discriminate | ].
    split; [exists ops; auto | ]. intros _. split; [reflexivity | ].
    intros name Hin Hscript Hok. rewrite Hfs. apply Hgone; assumption.
  - rewrite logFailure_exec. cbn [fst snd].
    set (message := js "Cleanup scan failed: " ++ error_message e).
    destruct (perform_AppendErrorsLog E message w1) as [_ Hd1].
    destruct (perform_untouched E (AppendErrorsLog message) w1 eq_refl)
      as (Hf1 & _).
    split; [congruence | ].
    split; [intros e'; apply written_rejection | ].
    split.
    + exists (ops ++ [AppendErrorsLog message]).
      split; [rewrite perform_trace, Htr, app_assoc; reflexivity | ].
      split.
      * apply Forall_app. split; [exact Hops | ].
        apply Forall_cons_2; [exact I | apply Forall_nil_2].
      * intros name Hin. apply elem_of_app. left. apply Hall, Hin.
    + intros Hlog. exfalso.
      destruct (Hrej e eq_refl) as [m Hm]. rewrite Hlog in Hm. discriminate.
Qed.
